(** * Prose Guardian: the Static Fixer, the Passive Watcher and the
    Proactive Injector

    A shallow embedding of [src/static-fixer.js], [src/passive-watcher.js]
    and [src/proactive-injector.js].

    JavaScript strings are modelled as [string]: a sequence of code units
    below 256, the ASCII and Latin-1 range.  On these the character classes
    and the case mappings are those of the JavaScript runtime: white space
    includes the no-break space (160), and the letters 192 to 222 and 224 to
    254 have their case.  Texts with a code unit from 256 on are outside the
    model.  JavaScript numbers that hold scores are binary64 floats
    ([PrimFloat.float]); counters, sizes and indices are natural numbers. *)

From Stdlib Require Import Bool Arith Lia List Ascii String.
From Stdlib Require Import ZArith PrimFloat Uint63.
From Stdlib Require Import Permutation Sorted.
Import ListNotations.

Set Warnings "-inexact-float".

Local Open Scope string_scope.
Local Open Scope list_scope.
Local Open Scope nat_scope.

(* ================================================================== *)
(** ** String primitives of the runtime *)

Module Js.

Definition code (c : ascii) : nat := nat_of_ascii c.

Definition in_range (lo hi : nat) (c : ascii) : bool :=
  (lo <=? code c) && (code c <=? hi).

(** [\s], and what [trim] removes: tab, line feed, vertical tab, form feed,
    carriage return, space and the no-break space. *)
Definition is_space (c : ascii) : bool :=
  in_range 9 13 c || (code c =? 32) || (code c =? 160).

Definition is_lower (c : ascii) : bool := in_range 97 122 c.
Definition is_upper (c : ascii) : bool := in_range 65 90 c.
Definition is_digit (c : ascii) : bool := in_range 48 57 c.

(** [\w]: letters, digits and the underscore. *)
Definition is_word (c : ascii) : bool :=
  is_lower c || is_upper c || is_digit c || (code c =? 95).

(** Line terminators, which [.] refuses without the [s] flag. *)
Definition is_line_terminator (c : ascii) : bool :=
  (code c =? 10) || (code c =? 13).

(** The letters of the Latin-1 range that have a lower-case form (192 to
    222 without the multiplication sign) and those that have an upper-case
    form in the range (224 to 254 without the division sign). *)
Definition is_upper_latin (c : ascii) : bool :=
  in_range 192 214 c || in_range 216 222 c.
Definition is_lower_latin (c : ascii) : bool :=
  in_range 224 246 c || in_range 248 254 c.

(** [toLowerCase] on one code unit. *)
Definition lower_char (c : ascii) : ascii :=
  if is_upper c || is_upper_latin c then ascii_of_nat (code c + 32) else c.

(** [toUpperCase] on one code unit, as the case-insensitive comparison of
    patterns uses it: the code units 181, 223 and 255, whose upper-case forms
    are no code units below 256, stand for themselves.  The code calls
    [toUpperCase] itself on a letter [a] to [z] only. *)
Definition upper_char (c : ascii) : ascii :=
  if is_lower c || is_lower_latin c then ascii_of_nat (code c - 32) else c.

Fixpoint map_chars (f : ascii -> ascii) (s : string) : string :=
  match s with
  | EmptyString => EmptyString
  | String c t => String (f c) (map_chars f t)
  end.

Definition toLowerCase : string -> string := map_chars lower_char.
Definition toUpperCase : string -> string := map_chars upper_char.

Definition is_empty (s : string) : bool :=
  match s with EmptyString => true | _ => false end.

(** Truthiness of a string value: [Boolean(s)]. *)
Definition truthy (s : string) : bool := negb (is_empty s).

Fixpoint forall_chars (p : ascii -> bool) (s : string) : bool :=
  match s with
  | EmptyString => true
  | String c t => p c && forall_chars p t
  end.

Fixpoint trim_start (s : string) : string :=
  match s with
  | String c t => if is_space c then trim_start t else s
  | EmptyString => EmptyString
  end.

(** [trim_end] keeps a character when it is not white space or when something
    that is kept follows it. *)
Fixpoint trim_end (s : string) : string :=
  match s with
  | EmptyString => EmptyString
  | String c t =>
      match trim_end t with
      | EmptyString => if is_space c then EmptyString else String c EmptyString
      | t' => String c t'
      end
  end.

Definition trim (s : string) : string := trim_end (trim_start s).

(** [s.split(sep)] for a separator of one character. *)
Fixpoint split_char (sep : ascii) (s : string) : list string :=
  match s with
  | EmptyString => [EmptyString]
  | String c t =>
      if Ascii.eqb c sep then EmptyString :: split_char sep t
      else match split_char sep t with
           | w :: ws => String c w :: ws
           | [] => [String c EmptyString]
           end
  end.

(** [ws.join(sep)]. *)
Fixpoint join (sep : string) (ws : list string) : string :=
  match ws with
  | [] => EmptyString
  | [w] => w
  | w :: ws' => (w ++ sep ++ join sep ws')%string
  end.

(** [s.startsWith(p)] and [s.includes(p)]. *)
Fixpoint startsWith (p s : string) : bool :=
  match p, s with
  | EmptyString, _ => true
  | String a p', String b s' => Ascii.eqb a b && startsWith p' s'
  | String _ _, EmptyString => false
  end.

Fixpoint includes (p s : string) : bool :=
  startsWith p s ||
  match s with
  | EmptyString => false
  | String _ t => includes p t
  end.

(** [words.slice(i, j)] for [i <= j]. *)
Definition slice {A} (i j : nat) (l : list A) : list A :=
  firstn (j - i) (skipn i l).

(** [arr.slice(-k)]: the last [k] elements, and the whole array for [k = 0]
    (since [-0] is [0]). *)
Definition slice_last {A} (k : nat) (l : list A) : list A :=
  if k =? 0 then l else skipn (List.length l - k) l.

(** Decimal rendering of an index, [String(n)]. *)
Definition digit_char (d : nat) : ascii := ascii_of_nat (48 + d).

Fixpoint nat_to_string_aux (fuel n : nat) (acc : string) : string :=
  match fuel with
  | 0 => acc
  | S fuel' =>
      let acc' := String (digit_char (n mod 10)) acc in
      if n / 10 =? 0 then acc' else nat_to_string_aux fuel' (n / 10) acc'
  end.

Definition nat_to_string (n : nat) : string := nat_to_string_aux (S n) n EmptyString.

End Js.

(* ================================================================== *)
(** ** Regular expressions of the runtime

    A backtracking matcher in continuation-passing style, as the language
    standard defines pattern matching: alternatives are tried left to right,
    a greedy quantifier tries one more iteration before it tries to leave, a
    lazy one the other way round, an iteration that consumes nothing is
    refused, and a group holds what its last iteration captured.  The syntax
    covers what the patterns of the two modules and of the rule file use:
    character sets, [.], sequence, alternation, the quantifiers, capturing
    groups, [^] and [\b].  Patterns are given as syntax trees; each
    definition quotes the pattern it stands for. *)

Module RegExp.

Inductive regex : Type :=
| Eps                                    (* the empty pattern *)
| Sym (p : ascii -> bool)                (* one character of a set, [[...]] *)
| NotSym (p : ascii -> bool)             (* one character outside a set, [[^...]] *)
| Dot                                    (* [.] *)
| Seq (r1 r2 : regex)
| Alt (r1 r2 : regex)                    (* [r1|r2] *)
| Star (greedy : bool) (r : regex)       (* [r*] and [r*?] *)
| Group (i : nat) (r : regex)            (* capturing group number [i] *)
| Bol                                    (* [^] *)
| WordB.                                 (* [\b] *)

Record flags : Type := { ignoreCase : bool; dotAll : bool; global : bool }.

Definition fl_none := {| ignoreCase := false; dotAll := false; global := false |}.
Definition fl_g := {| ignoreCase := false; dotAll := false; global := true |}.
Definition fl_s := {| ignoreCase := false; dotAll := true; global := false |}.
Definition fl_gs := {| ignoreCase := false; dotAll := true; global := true |}.
Definition fl_gi := {| ignoreCase := true; dotAll := false; global := true |}.

(** [r+] and [r+?], [r?]. *)
Definition Plus (greedy : bool) (r : regex) : regex := Seq r (Star greedy r).
Definition Opt (r : regex) : regex := Alt r Eps.

Definition chr (c : ascii) : regex := Sym (Ascii.eqb c).

Fixpoint lit (s : string) : regex :=
  match s with
  | EmptyString => Eps
  | String c EmptyString => chr c
  | String c t => Seq (chr c) (lit t)
  end.

Definition one_of (s : string) (c : ascii) : bool :=
  negb (Js.forall_chars (fun d => negb (Ascii.eqb d c)) s).

Definition any_char (c : ascii) : bool := true.

(** The groups a pattern contains and the number of groups of a pattern. *)
Fixpoint groups_of (r : regex) : list nat :=
  match r with
  | Seq r1 r2 | Alt r1 r2 => groups_of r1 ++ groups_of r2
  | Star _ r1 => groups_of r1
  | Group i r1 => i :: groups_of r1
  | _ => []
  end.

Definition ngroups (r : regex) : nat := fold_right Nat.max 0 (groups_of r).

(** The state of a match in progress: how far it got, what is left of the
    input, the character before the current position, and the captures. *)
Record MatchState : Type := {
  endIndex : nat;
  rest : string;
  prev : option ascii;
  captures : list (nat * string)
}.

Definition advance (x : MatchState) (ch : ascii) (s' : string) : MatchState :=
  {| endIndex := S (endIndex x); rest := s'; prev := Some ch; captures := captures x |}.

Definition set_capture (i : nat) (v : string) (x : MatchState) : MatchState :=
  {| endIndex := endIndex x; rest := rest x; prev := prev x;
     captures := (i, v) :: filter (fun kv => negb (fst kv =? i)) (captures x) |}.

Definition clear_captures (gs : list nat) (x : MatchState) : MatchState :=
  {| endIndex := endIndex x; rest := rest x; prev := prev x;
     captures := filter (fun kv => negb (existsb (Nat.eqb (fst kv)) gs)) (captures x) |}.

Fixpoint capture (i : nat) (cs : list (nat * string)) : option string :=
  match cs with
  | [] => None
  | (k, v) :: cs' => if k =? i then Some v else capture i cs'
  end.

(** Membership in a character set; with the [i] flag both sides are compared
    after case canonicalisation. *)
Definition set_match (ic : bool) (p : ascii -> bool) (ch : ascii) : bool :=
  if ic then p ch || p (Js.upper_char ch) || p (Js.lower_char ch) else p ch.

Definition is_word_opt (o : option ascii) : bool :=
  match o with Some c => Js.is_word c | None => false end.

Definition next_char (s : string) : option ascii :=
  match s with String c _ => Some c | EmptyString => None end.

(** The repetition of a matcher [m1], whose groups are [gs].  Every iteration
    consumes a character, so the length of the input bounds their number and
    the fuel never runs out. *)
Fixpoint star_loop (greedy : bool)
    (m1 : MatchState -> (MatchState -> option MatchState) -> option MatchState)
    (gs : list nat) (c : MatchState -> option MatchState)
    (fuel : nat) (x : MatchState) {struct fuel} : option MatchState :=
  match fuel with
  | 0 => c x
  | S fuel' =>
      let again :=
        m1 (clear_captures gs x)
           (fun y => if endIndex y =? endIndex x then None
                     else star_loop greedy m1 gs c fuel' y) in
      if greedy
      then match again with Some z => Some z | None => c x end
      else match c x with Some z => Some z | None => again end
  end.

Fixpoint matcher (fl : flags) (r : regex) (x : MatchState)
    (c : MatchState -> option MatchState) {struct r} : option MatchState :=
  match r with
  | Eps => c x
  | Sym p =>
      match rest x with
      | String ch s' =>
          if set_match (ignoreCase fl) p ch then c (advance x ch s') else None
      | EmptyString => None
      end
  | NotSym p =>
      match rest x with
      | String ch s' =>
          if set_match (ignoreCase fl) p ch then None else c (advance x ch s')
      | EmptyString => None
      end
  | Dot =>
      match rest x with
      | String ch s' =>
          if dotAll fl || negb (Js.is_line_terminator ch)
          then c (advance x ch s') else None
      | EmptyString => None
      end
  | Seq r1 r2 => matcher fl r1 x (fun y => matcher fl r2 y c)
  | Alt r1 r2 =>
      match matcher fl r1 x c with
      | Some z => Some z
      | None => matcher fl r2 x c
      end
  | Star greedy r1 =>
      star_loop greedy (fun x' k => matcher fl r1 x' k) (groups_of r1) c
        (S (String.length (rest x))) x
  | Group i r1 =>
      matcher fl r1 x
        (fun y => c (set_capture i (substring 0 (endIndex y - endIndex x) (rest x)) y))
  | Bol => match prev x with None => c x | Some _ => None end
  | WordB =>
      if xorb (is_word_opt (prev x)) (is_word_opt (next_char (rest x)))
      then c x else None
  end.

(** What [exec] reports for a match. *)
Record MatchResult : Type := {
  index : nat;                       (* where the match starts *)
  matched : string;                  (* the matched text *)
  groups : list (option string);     (* the captures, group 1 first *)
  before : string;                   (* the input up to the match *)
  after : string;                    (* the input after the match *)
  lastChar : option ascii            (* the character before [after] *)
}.

Definition result_of (r : regex) (input : string) (i : nat) (s : string)
    (y : MatchState) : MatchResult :=
  {| index := i;
     matched := substring 0 (endIndex y - i) s;
     groups := map (fun g => capture g (captures y)) (seq 1 (ngroups r));
     before := substring 0 i input;
     after := rest y;
     lastChar := prev y |}.

(** The match that starts exactly at position [i], where [s] is the input
    from [i] on and [p] the character before it. *)
Definition match_at (fl : flags) (r : regex) (input : string) (i : nat)
    (p : option ascii) (s : string) : option MatchResult :=
  match matcher fl r {| endIndex := i; rest := s; prev := p; captures := [] |} Some with
  | Some y => Some (result_of r input i s y)
  | None => None
  end.

(** [exec]: the first position from [i] on at which the pattern matches. *)
Fixpoint exec_from (fl : flags) (r : regex) (input : string) (i : nat)
    (p : option ascii) (s : string) {struct s} : option MatchResult :=
  match match_at fl r input i p s with
  | Some m => Some m
  | None =>
      match s with
      | EmptyString => None
      | String ch s' => exec_from fl r input (S i) (Some ch) s'
      end
  end.

Definition exec (fl : flags) (r : regex) (input : string) : option MatchResult :=
  exec_from fl r input 0 None input.

(** All matches of a global pattern, left to right; after an empty match the
    search resumes one character further. *)
Fixpoint matches_from (fuel : nat) (fl : flags) (r : regex) (input : string)
    (i : nat) (p : option ascii) (s : string) : list MatchResult :=
  match fuel with
  | 0 => []
  | S fuel' =>
      match exec_from fl r input i p s with
      | None => []
      | Some m =>
          m ::
          (if Js.is_empty (matched m)
           then match after m with
                | EmptyString => []
                | String ch s' =>
                    matches_from fuel' fl r input
                      (S (index m + String.length (matched m))) (Some ch) s'
                end
           else matches_from fuel' fl r input
                  (index m + String.length (matched m)) (lastChar m) (after m))
      end
  end.

(** The matches a call of [replace] or [match] works on: all of them for a
    global pattern, the first one otherwise. *)
Definition matches (fl : flags) (r : regex) (input : string) : list MatchResult :=
  if global fl
  then matches_from (S (String.length input)) fl r input 0 None input
  else match exec fl r input with Some m => [m] | None => [] end.

(** [input.match(r)] for a global pattern: the matched texts, or [None] for
    the null result. *)
Definition match_all (fl : flags) (r : regex) (input : string) : option (list string) :=
  match matches fl r input with
  | [] => None
  | ms => Some (map matched ms)
  end.

(** The replacement text a template string stands for: [$$], [$&], [$`],
    [$'], [$n] and [$nn]. *)
Definition digit_val (c : ascii) : nat := Js.code c - 48.

Definition group_text (caps : list (option string)) (k : nat) : string :=
  match nth_error caps (k - 1) with
  | Some (Some v) => v
  | _ => EmptyString
  end.

Fixpoint getSubstitution (m : MatchResult) (tpl : string) : string :=
  match tpl with
  | EmptyString => EmptyString
  | String c t =>
      if negb (Ascii.eqb c "$") then String c (getSubstitution m t)
      else
        match t with
        | EmptyString => "$"
        | String d t' =>
            if Ascii.eqb d "$" then String "$" (getSubstitution m t')
            else if Ascii.eqb d "&" then (matched m ++ getSubstitution m t')%string
            else if Ascii.eqb d "`" then (before m ++ getSubstitution m t')%string
            else if Ascii.eqb d "'" then (after m ++ getSubstitution m t')%string
            else if Js.is_digit d then
              let n1 := digit_val d in
              let one :=
                if (1 <=? n1) && (n1 <=? List.length (groups m))
                then (group_text (groups m) n1 ++ getSubstitution m t')%string
                else String "$" (String d (getSubstitution m t')) in
              match t' with
              | String e t'' =>
                  let n2 := 10 * n1 + digit_val e in
                  if Js.is_digit e && (1 <=? n2) && (n2 <=? List.length (groups m))
                  then (group_text (groups m) n2 ++ getSubstitution m t'')%string
                  else one
              | EmptyString => one
              end
            else String "$" (getSubstitution m t)
        end
  end.

(** [input.replace(r, f)]: the input with every match (of [matches])
    replaced.  The replacer runs once per match, left to right, and threads a
    state of its own through the calls.  [splice] lists the pieces: each
    match with the unmatched text before it and the text put in its place. *)
Record piece : Type := { kept : string; spliced : string }.

Fixpoint splice {S : Type} (f : MatchResult -> S -> string * S)
    (input : string) (from : nat) (ms : list MatchResult) (st : S)
    : list piece * string * S :=
  match ms with
  | [] => ([], substring from (String.length input - from) input, st)
  | m :: ms' =>
      let '(rep, st1) := f m st in
      let '(ps, tail, st2) :=
        splice f input (index m + String.length (matched m)) ms' st1 in
      ({| kept := substring from (index m - from) input; spliced := rep |} :: ps,
       tail, st2)
  end.

Fixpoint assemble (ps : list piece) (tail : string) : string :=
  match ps with
  | [] => tail
  | p :: ps' => (kept p ++ spliced p ++ assemble ps' tail)%string
  end.

Definition replace_fn {S : Type} (fl : flags) (r : regex)
    (f : MatchResult -> S -> string * S) (input : string) (st : S) : string * S :=
  let '(ps, tail, st') := splice f input 0 (matches fl r input) st in
  (assemble ps tail, st').

(** [input.replace(r, f)] for a replacer without state, and
    [input.replace(r, template)]. *)
Definition replace_pure (fl : flags) (r : regex) (f : MatchResult -> string)
    (input : string) : string :=
  fst (replace_fn fl r (fun m (_ : unit) => (f m, tt)) input tt).

Definition replace_str (fl : flags) (r : regex) (tpl : string) (input : string) : string :=
  replace_pure fl r (fun m => getSubstitution m tpl) input.

(** [input.split(r)]: at each position the pattern is tried there and only
    there; a match that ends where the current piece starts is skipped. *)
Fixpoint split_from (fuel : nat) (fl : flags) (r : regex) (input : string)
    (p q : nat) (pc : option ascii) (s : string) : list string :=
  match fuel with
  | 0 => []
  | S fuel' =>
      match s with
      | EmptyString => [substring p (String.length input - p) input]
      | String ch s' =>
          match match_at fl r input q pc s with
          | Some m =>
              let e := q + String.length (matched m) in
              if e =? p then split_from fuel' fl r input p (S q) (Some ch) s'
              else substring p (q - p) input ::
                   map (fun g => match g with Some v => v | None => EmptyString end)
                       (groups m) ++
                   split_from fuel' fl r input e e (lastChar m) (after m)
          | None => split_from fuel' fl r input p (S q) (Some ch) s'
          end
      end
  end.

Definition split (fl : flags) (r : regex) (input : string) : list string :=
  match input with
  | EmptyString =>
      match match_at fl r input 0 None input with
      | Some _ => []
      | None => [EmptyString]
      end
  | _ => split_from (S (String.length input)) fl r input 0 0 None input
  end.

End RegExp.

(* ================================================================== *)
(** ** Module A: the Static Fixer ([src/static-fixer.js]) *)

Module StaticFixer.
Import RegExp.

(** A rule of the rule file.  [findRegex] holds what
    [new RegExp(rule.findRegex, 'gi')] yields: the compiled pattern, or [None]
    when the constructor throws. *)
Record Rule : Type := {
  scriptName : string;
  findRegex : option regex;
  replaceString : string;
  disabled : bool;
  isStatic : bool
}.

Record Fixer : Type := { rules : list Rule; enabled : bool }.

(** [Math.random] is an oracle: [rnd k] decides the [k]-th draw, and
    [Math.floor(Math.random() * len)] is the index [rnd k mod len], which
    ranges over all indices below [len]. *)
Definition oracle : Type := nat -> nat.

(** [/\{\{random:([\s\S]+?)\}\}/] *)
Definition random_re : regex :=
  Seq (lit "{{random:") (Seq (Group 1 (Plus false (Sym any_char))) (lit "}}")).

(** [/\$(\d)/g] *)
Definition backref_re : regex := Seq (chr "$") (Group 1 (Sym Js.is_digit)).

(** [args[i] || ''] for the rest arguments of the replacer: the captures,
    then the offset of the match, then the whole text. *)
Definition arg_text (m : MatchResult) (input : string) (i : nat) : string :=
  let n := List.length (groups m) in
  if i <? n then group_text (groups m) (S i)
  else if i =? n then (if index m =? 0 then EmptyString else Js.nat_to_string (index m))
  else if i =? S n then input
  else EmptyString.

(** [args[parseInt(groupIndex) - 1] || ''] *)
Definition backref_text (m : MatchResult) (input : string) (groupIndex : string) : string :=
  match groupIndex with
  | String d _ =>
      match digit_val d with
      | 0 => EmptyString
      | S i => arg_text m input i
      end
  | EmptyString => EmptyString
  end.

(** [chosenOption.replace(/\$(\d)/g, ...)] *)
Definition expand (m : MatchResult) (input : string) (chosenOption : string) : string :=
  replace_pure fl_g backref_re
    (fun b => backref_text m input (group_text (groups b) 1)) chosenOption.

(** [options[Math.floor(Math.random() * options.length)].trim()] *)
Definition choose (options : list string) (draw : nat) : string :=
  Js.trim (nth (draw mod List.length options) options EmptyString).

(** The replacer of the randomised branch; its state counts the draws. *)
Definition random_replacer (rnd : oracle) (options : list string) (input : string)
    (m : MatchResult) (k : nat) : string * nat :=
  (expand m input (choose options (rnd k)), S k).

(** The options of a [{{random:...}}] replace string, when it parses. *)
Definition parse_options (replaceString : string) : option (list string) :=
  match exec fl_none random_re replaceString with
  | Some om =>
      match nth_error (groups om) 0 with
      | Some (Some inner) =>
          if Js.truthy inner then Some (Js.split_char "," inner) else None
      | _ => None
      end
  | None => None
  end.

(** The body of the [forEach] in [applyReplacements]. *)
Definition applyRule (rnd : oracle) (acc : string * nat) (rule : Rule) : string * nat :=
  let '(processedText, k) := acc in
  match findRegex rule with
  | None => acc
  | Some regex =>
      if Js.includes "{{random:" (replaceString rule) then
        match parse_options (replaceString rule) with
        | Some options =>
            replace_fn fl_gi regex (random_replacer rnd options processedText)
              processedText k
        | None => acc
        end
      else (replace_str fl_gi regex (replaceString rule) processedText, k)
  end.

Definition enabledRules (f : Fixer) : list Rule :=
  filter (fun rule => negb (disabled rule) && isStatic rule) (rules f).

Definition applyReplacements (f : Fixer) (rnd : oracle) (text : string) : string :=
  if negb (Js.truthy text) || negb (enabled f) then text
  else fst (fold_left (applyRule rnd) (enabledRules f) (text, 0)).

(** [(\s*<[^>]*>)*] with the group numbered [i]. *)
Definition tags_re (i : nat) : regex :=
  Star true (Group i (Seq (Star true (Sym Js.is_space))
                       (Seq (chr "<") (Seq (Star true (NotSym (one_of ">"))) (chr ">"))))).

(** [/^(\s*<[^>]*>)*([a-z])/s] *)
Definition first_letter_re : regex :=
  Seq Bol (Seq (tags_re 1) (Group 2 (Sym Js.is_lower))).

(** [/([.!?])(\s*<[^>]*>)*\s+([a-z])/gs] *)
Definition after_sentence_re : regex :=
  Seq (Group 1 (Sym (one_of ".!?")))
      (Seq (tags_re 2) (Seq (Plus true (Sym Js.is_space)) (Group 3 (Sym Js.is_lower)))).

Definition fixCapitalization (text : string) : string :=
  if negb (Js.truthy text) then text
  else
    let fixed :=
      replace_pure fl_s first_letter_re
        (fun m => (group_text (groups m) 1
                   ++ Js.toUpperCase (group_text (groups m) 2))%string) text in
    replace_pure fl_gs after_sentence_re
      (fun m => (group_text (groups m) 1 ++ group_text (groups m) 2 ++ " "
                 ++ Js.toUpperCase (group_text (groups m) 3))%string) fixed.

Definition process (f : Fixer) (rnd : oracle) (text : string) : string :=
  fixCapitalization (applyReplacements f rnd text).

(** The rule of the heart-pounded scenario: [\bheart pounded\b] with the
    alternatives "pulse quickened" and "chest tightened". *)
Definition heart_rule : Rule :=
  {| scriptName := "Slopfix - Heart Pounding";
     findRegex := Some (Seq WordB (Seq (lit "heart pounded") WordB));
     replaceString := "{{random:pulse quickened,chest tightened}}";
     disabled := false;
     isStatic := true |}.

Definition heart_fixer : Fixer := {| rules := [heart_rule]; enabled := true |}.

End StaticFixer.

(* ================================================================== *)
(** ** Module B: the Passive Watcher ([src/passive-watcher.js]) *)

Module PassiveWatcher.
Import RegExp.

Local Open Scope float_scope.
Local Open Scope nat_scope.

(** A JavaScript [Map] with string keys: the entries in insertion order, each
    key at most once.  [set] on a key that is present keeps its place. *)
Section JsMap.
Context {V : Type}.

Fixpoint map_get (k : string) (m : list (string * V)) : option V :=
  match m with
  | [] => None
  | (k', v) :: m' => if String.eqb k' k then Some v else map_get k m'
  end.

Fixpoint map_set (k : string) (v : V) (m : list (string * V)) : list (string * V) :=
  match m with
  | [] => [(k, v)]
  | (k', v') :: m' =>
      if String.eqb k' k then (k', v) :: m' else (k', v') :: map_set k v m'
  end.

Fixpoint map_delete (k : string) (m : list (string * V)) : list (string * V) :=
  match m with
  | [] => []
  | (k', v') :: m' =>
      if String.eqb k' k then map_delete k m' else (k', v') :: map_delete k m'
  end.

Definition keys (m : list (string * V)) : list string := map fst m.
End JsMap.

(** A JavaScript [Set] of strings. *)
Definition set_has (k : string) (s : list string) : bool := existsb (String.eqb k) s.

Definition set_add (k : string) (s : list string) : list string :=
  if set_has k s then s else s ++ [k].

Definition set_delete (k : string) (s : list string) : list string :=
  filter (fun k' => negb (String.eqb k' k)) s.

(** The words the analysis ignores, as the source lists them. *)
Definition COMMON_WORDS : list string :=
  ["the"; "of"; "to"; "and"; "a"; "in"; "is"; "it"; "you"; "that"; "he"; "was";
   "for"; "on"; "are"; "with"; "as"; "I";
   "his"; "they"; "be"; "at"; "one"; "have"; "this"; "from"; "or"; "had"; "by";
   "not"; "word"; "but"; "what"; "some";
   "we"; "can"; "out"; "other"; "were"; "all"; "there"; "when"; "up"; "use";
   "your"; "how"; "said"; "an"; "each";
   "she"; "which"; "do"; "their"; "time"; "if"; "will"; "way"; "about"; "many";
   "then"; "them"; "write"; "would";
   "like"; "so"; "these"; "her"; "long"; "make"; "thing"; "see"; "him"; "two";
   "has"; "look"; "more"; "day"; "could";
   "go"; "come"; "did"; "number"; "sound"; "no"; "most"; "people"; "my"; "over";
   "know"; "water"; "than"; "call"].

Record Settings : Type := {
  ngramMin : nat;
  ngramMax : nat;
  slopThreshold : float;
  pruningCycle : nat;
  patternMinCommon : nat;
  messagesToAnalyze : nat
}.

Definition default_settings : Settings :=
  {| ngramMin := 3; ngramMax := 7; slopThreshold := 5.0; pruningCycle := 20;
     patternMinCommon := 2; messagesToAnalyze := 20 |}.

(** The value the table holds for an n-gram. *)
Record NgramData : Type := { count : nat; score : float; lastSeen : nat }.

Record Watcher : Type := {
  settings : Settings;
  ngramFrequencies : list (string * NgramData);
  slopCandidates : list string;
  totalMessagesProcessed : nat;
  enabled : bool;
  whitelist : list string
}.

(** [new PassiveWatcher(options)] with the options already merged. *)
Definition create (s : Settings) : Watcher :=
  {| settings := s; ngramFrequencies := []; slopCandidates := [];
     totalMessagesProcessed := 0; enabled := true; whitelist := COMMON_WORDS |}.

Definition with_table (w : Watcher) (t : list (string * NgramData))
    (c : list string) : Watcher :=
  {| settings := settings w; ngramFrequencies := t; slopCandidates := c;
     totalMessagesProcessed := totalMessagesProcessed w; enabled := enabled w;
     whitelist := whitelist w |}.

Definition with_counter (w : Watcher) (n : nat) : Watcher :=
  {| settings := settings w; ngramFrequencies := ngramFrequencies w;
     slopCandidates := slopCandidates w; totalMessagesProcessed := n;
     enabled := enabled w; whitelist := whitelist w |}.

(** *** stripMarkup *)

Definition fence : regex := Alt (lit "```") (lit "~~~").

(** [/(?:```|~~~)\w*\s*[\s\S]*?(?:```|~~~)/g] *)
Definition code_block_re : regex :=
  Seq fence (Seq (Star true (Sym Js.is_word)) (Seq (Star true (Sym Js.is_space))
    (Seq (Star false (Sym any_char)) fence))).

(** [/<[^>]*>/g] *)
Definition html_tag_re : regex :=
  Seq (chr "<") (Seq (Star true (NotSym (one_of ">"))) (chr ">")).

(** [/(?:\*|_|~|`)+(.+?)(?:\*|_|~|`)+/g] *)
Definition mark : regex := Alt (chr "*") (Alt (chr "_") (Alt (chr "~") (chr "`"))).
Definition markdown_re : regex :=
  Seq (Plus true mark) (Seq (Group 1 (Plus false Dot)) (Plus true mark)).

(** [/\x22(.*?)\x22/g] (the double quote is written [\x22] here) and
    [/\((.*?)\)/g] *)
Definition dquote : ascii := "034"%char.
Definition quoted_re : regex :=
  Seq (chr dquote) (Seq (Group 1 (Star false Dot)) (chr dquote)).
Definition paren_re : regex :=
  Seq (chr "(") (Seq (Group 1 (Star false Dot)) (chr ")")).

(** [/\s+/g] *)
Definition spaces_re : regex := Plus true (Sym Js.is_space).

Definition stripMarkup (text : option string) : string :=
  match text with
  | None => EmptyString
  | Some text =>
      if negb (Js.truthy text) then EmptyString
      else
        let clean := replace_str fl_g code_block_re " " text in
        let clean := replace_str fl_g html_tag_re " " clean in
        let clean := replace_str fl_g markdown_re "$1" clean in
        let clean := replace_str fl_g quoted_re " $1 " clean in
        let clean := replace_str fl_g paren_re " $1 " clean in
        Js.trim (replace_str fl_g spaces_re " " clean)
  end.

(** *** generateNgrams and isPhraseLowQuality *)

Definition generateNgrams (words : list string) (n : nat) : list string :=
  if List.length words <? n then []
  else map (fun i => Js.join " " (Js.slice i (i + n) words))
           (seq 0 (S (List.length words - n))).

Definition isPhraseLowQuality (w : Watcher) (phrase : string) : bool :=
  let words := Js.split_char " " (Js.toLowerCase phrase) in
  if List.length words <? ngramMin (settings w) then true
  else if forallb (fun word => set_has word (whitelist w)) words then true
  else false.

(** *** analyzeMessage *)

(** [/[^.!?]+[.!?]+[\x22]?/g] *)
Definition sentence_re : regex :=
  Seq (Plus true (NotSym (one_of ".!?")))
      (Seq (Plus true (Sym (one_of ".!?"))) (Opt (chr dquote))).

(** [/[.,!?]/g] *)
Definition punct_re : regex := Sym (one_of ".,!?").

Definition sentences_of (cleanText : string) : list string :=
  match match_all fl_g sentence_re cleanText with
  | Some l => l
  | None => [cleanText]
  end.

(** The tokens of a sentence: punctuation removed, lower-cased, split at
    white space, empty pieces dropped. *)
Definition tokenize (sentence : string) : list string :=
  filter Js.truthy
    (split fl_none spaces_re (Js.toLowerCase (replace_str fl_g punct_re "" sentence))).

Definition of_nat (n : nat) : float := PrimFloat.of_uint63 (Uint63.of_Z (Z.of_nat n)).

Definition uncommonWordCount (w : Watcher) (ngram : string) : nat :=
  fold_left (fun count word => count + (if set_has word (whitelist w) then 0 else 1))
            (Js.split_char " " ngram) 0.

Definition scoreIncrement (w : Watcher) (n : nat) (ngram : string) : float :=
  ((1.0 + of_nat (n - ngramMin (settings w)) * 0.2)
   + of_nat (uncommonWordCount w ngram) * 0.5)%float.

(** The record an n-gram has before an observation: the stored one, or the
    fresh one with no observation. *)
Definition currentData (w : Watcher) (ngram : string) : NgramData :=
  match map_get ngram (ngramFrequencies w) with
  | Some d => d
  | None => {| count := 0; score := 0; lastSeen := totalMessagesProcessed w |}
  end.

(** The body of the innermost loop for an n-gram that is not skipped. *)
Definition track (w : Watcher) (n : nat) (ngram : string) : Watcher :=
  let cur := currentData w ngram in
  let newCount := count cur + 1 in
  let newScore := (score cur + scoreIncrement w n ngram)%float in
  let t := map_set ngram
             {| count := newCount; score := newScore;
                lastSeen := totalMessagesProcessed w |} (ngramFrequencies w) in
  let c := if (slopThreshold (settings w) <=? newScore)%float
              && (score cur <? slopThreshold (settings w))%float
           then set_add ngram (slopCandidates w) else slopCandidates w in
  with_table w t c.

Definition observe (w : Watcher) (occ : nat * string) : Watcher :=
  if isPhraseLowQuality w (snd occ) then w else track w (fst occ) (snd occ).

(** The n-grams of a sentence in the order the loops visit them, each with
    its window size. *)
Definition window_sizes (s : Settings) : list nat :=
  seq (ngramMin s) (S (ngramMax s) - ngramMin s).

Definition sentence_ngrams (s : Settings) (sentence : string) : list (nat * string) :=
  let words := tokenize sentence in
  flat_map (fun n => if List.length words <? n then []
                     else map (pair n) (generateNgrams words n))
           (window_sizes s).

Definition message_ngrams (s : Settings) (cleanText : string) : list (nat * string) :=
  flat_map (fun sentence => if negb (Js.truthy (Js.trim sentence)) then []
                            else sentence_ngrams s sentence)
           (sentences_of cleanText).

(** *** pruneOldNgrams *)

Definition age (w : Watcher) (d : NgramData) : Z :=
  (Z.of_nat (totalMessagesProcessed w) - Z.of_nat (lastSeen d))%Z.

Definition stale (w : Watcher) (d : NgramData) : bool :=
  (age w d >? Z.of_nat (pruningCycle (settings w)))%Z.

Definition decayed (d : NgramData) : NgramData :=
  {| count := count d; score := (score d * 0.9)%float; lastSeen := lastSeen d |}.

(** The body of the loop over the entries. *)
Definition prune_entry (w : Watcher) (e : string * NgramData) : Watcher :=
  let '(ngram, data) := e in
  if stale w data then
    if (score data <? slopThreshold (settings w))%float
    then with_table w (map_delete ngram (ngramFrequencies w))
                      (set_delete ngram (slopCandidates w))
    else with_table w (map_set ngram (decayed data) (ngramFrequencies w))
                      (slopCandidates w)
  else w.

Definition pruneOldNgrams (w : Watcher) : Watcher :=
  fold_left prune_entry (ngramFrequencies w) w.

(** [totalMessagesProcessed % pruningCycle === 0]; the remainder by zero is
    not a number and equals nothing. *)
Definition prune_due (w : Watcher) : bool :=
  negb (pruningCycle (settings w) =? 0)
  && (totalMessagesProcessed w mod pruningCycle (settings w) =? 0).

(** The three nested loops (sentences, window sizes, n-grams) run over data
    that the loop body does not change, so they are one pass of [observe]
    over [message_ngrams]; then the counter advances and pruning may run. *)
Definition analyzeMessage (w : Watcher) (text : option string) : Watcher :=
  match text with
  | None => w
  | Some t =>
      if negb (Js.truthy t) || negb (enabled w) then w
      else
        let cleanText := stripMarkup text in
        if negb (Js.truthy (Js.trim cleanText)) then w
        else
          let w1 := fold_left observe (message_ngrams (settings w) cleanText) w in
          let w2 := with_counter w1 (totalMessagesProcessed w1 + 1) in
          if prune_due w2 then pruneOldNgrams w2 else w2
  end.

(** *** Queries *)

(** The object [{phrase, score, count}] that the query returns for a record
    ([p_score] and [p_count] are its [score] and [count]). *)
Record OverusedPhrase : Type := { phrase : string; p_score : float; p_count : nat }.

(** [(a, b) => b.score - a.score] *)
Definition compareFn (a b : OverusedPhrase) : float := (p_score b - p_score a)%float.

(** [Array.prototype.sort]: a stable sort; [a] goes after [b] when the
    comparator is positive. *)
Fixpoint sort_insert {A} (cmp : A -> A -> float) (x : A) (l : list A) : list A :=
  match l with
  | [] => [x]
  | y :: l' => if (0 <? cmp x y)%float then y :: sort_insert cmp x l' else x :: l
  end.

Definition js_sort {A} (cmp : A -> A -> float) (l : list A) : list A :=
  fold_right (sort_insert cmp) [] l.

Definition project (e : string * NgramData) : OverusedPhrase :=
  {| phrase := fst e; p_score := score (snd e); p_count := count (snd e) |}.

Definition getOverusedPhrases (w : Watcher) (minScore : option float) : list OverusedPhrase :=
  let minScore := match minScore with Some m => m | None => 5.0%float end in
  js_sort compareFn
    (map project (filter (fun e => (minScore <=? score (snd e))%float) (ngramFrequencies w))).

Record Stats : Type := {
  totalPhrases : nat;
  st_slopCandidates : nat;
  messagesProcessed : nat;
  topPhrases : list OverusedPhrase
}.

Definition getStats (w : Watcher) : Stats :=
  {| totalPhrases := List.length (ngramFrequencies w);
     st_slopCandidates := List.length (slopCandidates w);
     messagesProcessed := totalMessagesProcessed w;
     topPhrases := firstn 10 (getOverusedPhrases w None) |}.

Definition reset (w : Watcher) : Watcher :=
  with_counter (with_table w [] []) 0.

Definition addToWhitelist (w : Watcher) (words : list string) : Watcher :=
  {| settings := settings w; ngramFrequencies := ngramFrequencies w;
     slopCandidates := slopCandidates w;
     totalMessagesProcessed := totalMessagesProcessed w; enabled := enabled w;
     whitelist := fold_left (fun s word => set_add (Js.toLowerCase word) s)
                            words (whitelist w) |}.

(** *** analyzeChatHistory *)

Record Message : Type := { is_user : bool; mes : option string }.

Definition has_text (m : Message) : bool :=
  match mes m with Some t => Js.truthy t | None => false end.

Record Analysis : Type := {
  analyzed : nat;
  overusedPhrases : list OverusedPhrase;
  stats : Stats
}.

Definition aiMessages (messages : list Message) : list Message :=
  filter (fun msg => negb (is_user msg) && has_text msg) messages.

Definition recentMessages (w : Watcher) (messages : list Message) : list Message :=
  Js.slice_last (messagesToAnalyze (settings w)) (aiMessages messages).

Definition analyzeChatHistory (w : Watcher) (messages : list Message)
    : Watcher * Analysis :=
  let recent := recentMessages w messages in
  let w' := fold_left (fun w msg => analyzeMessage w (mes msg)) recent (reset w) in
  (w', {| analyzed := List.length recent;
          overusedPhrases := getOverusedPhrases w' None;
          stats := getStats w' |}).

End PassiveWatcher.

(* ================================================================== *)
(** ** Notions the properties are stated with *)

Module Props.
Import RegExp PassiveWatcher.

(** The tokens of an n-gram key, as the source reads them back:
    [ngram.split(' ')]. *)
Definition tokens (ngram : string) : list string := Js.split_char " " ngram.

(** The tokens of an n-gram that are not stop words. *)
Definition nonstop_tokens (w : Watcher) (ngram : string) : list string :=
  filter (fun t => negb (set_has t (whitelist w))) (tokens ngram).

(** [y] is a state that a match reaches from [x]: it has consumed a prefix of
    what [x] had left. *)
Definition extends (x y : MatchState) : Prop :=
  exists consumed,
    rest x = (consumed ++ rest y)%string /\
    endIndex y = endIndex x + String.length consumed.

(** A string without white space. *)
Definition no_space (s : string) : bool :=
  Js.forall_chars (fun c => negb (Js.is_space c)) s.

(** A character that lower-casing leaves as it is. *)
Definition lower_fixed (c : ascii) : bool := Ascii.eqb (Js.lower_char c) c.

(** A call of [analyzeMessage] that gets past its two early returns. *)
Definition observes (w : Watcher) (text : option string) : bool :=
  match text with
  | Some t => Js.truthy t && enabled w && Js.truthy (Js.trim (stripMarkup text))
  | None => false
  end.

(** The occurrences of n-grams that the loops of [analyzeMessage] visit for a
    text, and the window sizes at which a given n-gram occurs among them. *)
Definition occurrences (w : Watcher) (text : option string) : list (nat * string) :=
  message_ngrams (settings w) (stripMarkup text).

Definition sizes_of (ngram : string) (occs : list (nat * string)) : list nat :=
  map fst (filter (fun o => String.eqb (snd o) ngram) occs).

(** One observation of an n-gram at window size [n], on its record. *)
Definition bump (w : Watcher) (ngram : string) (d : NgramData) (n : nat) : NgramData :=
  {| count := count d + 1;
     score := ((score d)
               + ((1.0 + of_nat (n - ngramMin (settings w)) * 0.2)
                  + of_nat (List.length (nonstop_tokens w ngram)) * 0.5))%float;
     lastSeen := totalMessagesProcessed w |}.

(** The state after the n-gram loops and the advance of the counter, before
    the pruning check. *)
Definition after_loops (w : Watcher) (text : option string) : Watcher :=
  let w1 := fold_left observe (occurrences w text) w in
  with_counter w1 (totalMessagesProcessed w1 + 1).

(** What pruning makes of one entry: nothing, the entry with its score
    decayed, or the entry as it is. *)
Definition pruned_entry (w : Watcher) (e : string * NgramData) : list (string * NgramData) :=
  if stale w (snd e) then
    if (score (snd e) <? slopThreshold (settings w))%float then []
    else [(fst e, decayed (snd e))]
  else [e].

(** The keys of the table are pairwise distinct, as in any [Map]. *)
Definition distinct_keys (w : Watcher) : Prop := NoDup (keys (ngramFrequencies w)).

(** Every tracked n-gram has enough tokens and a token that is no stop
    word. *)
Definition qualifies (w : Watcher) (ngram : string) : Prop :=
  ngramMin (settings w) <= List.length (tokens ngram) /\
  exists t, In t (tokens ngram) /\ set_has t (whitelist w) = false.

Definition table_qualifies (w : Watcher) : Prop :=
  forall ngram, In ngram (keys (ngramFrequencies w)) -> qualifies w ngram.

(** The scores can be compared with one another the way [sort] expects of its
    comparator: the sign of the difference agrees with the order, and the
    order is total and transitive (no score is not-a-number). *)
Definition comparable (scores : list float) : bool :=
  forallb (fun a =>
    forallb (fun b =>
      Bool.eqb (0 <? b - a)%float (a <? b)%float
      && implb (a <? b)%float (a <=? b)%float
      && ((a <? b)%float || (b <=? a)%float)
      && forallb (fun c => implb ((b <=? a)%float && (c <=? b)%float) (c <=? a)%float)
                 scores) scores) scores.

Definition table_scores (w : Watcher) : list float :=
  map (fun e => score (snd e)) (ngramFrequencies w).

(** [a] may stand before [b] in a list sorted by descending score. *)
Definition score_desc (a b : OverusedPhrase) : Prop :=
  (p_score b <=? p_score a)%float = true.

(** The texts that a batch analysis observes according to the claim that it
    does no speaker attribution: the last [messagesToAnalyze] messages with a
    non-empty text, whoever wrote them. *)
Definition recent_texts_any_speaker (w : Watcher) (messages : list Message) : list Message :=
  Js.slice_last (messagesToAnalyze (settings w)) (filter has_text messages).

Definition observe_all (w : Watcher) (messages : list Message) : Watcher :=
  fold_left (fun w msg => analyzeMessage w (mes msg)) messages w.

End Props.

(* ================================================================== *)
(** ** Sample inputs *)

Module Samples.
Import RegExp PassiveWatcher Props.

Definition fresh : Watcher := create default_settings.

Definition heart_text : option string := Some "His heart pounded.".

(** A watcher that prunes after every second message. *)
Definition quick_settings : Settings :=
  {| ngramMin := 3; ngramMax := 7; slopThreshold := 5.0; pruningCycle := 2;
     patternMinCommon := 2; messagesToAnalyze := 20 |}.

Definition quick : Watcher := create quick_settings.

(** Three messages in: one phrase seen three times, the others once. *)
Definition seasoned : Watcher :=
  fold_left analyzeMessage
    [Some "His heart pounded."; Some "His heart pounded again.";
     Some "His heart pounded once more."] fresh.

(** Three messages in with the quick settings: the phrases of the first
    message have not been seen for three messages. *)
Definition aged : Watcher :=
  fold_left analyzeMessage
    [Some "His heart pounded. His heart pounded. His heart pounded. Her cheeks flushed.";
     Some "The rain fell softly."; Some "The rain fell softly."] quick.

(** A watcher with a threshold of 3 that has seen one phrase twice. *)
Definition lenient_settings : Settings :=
  {| ngramMin := 3; ngramMax := 7; slopThreshold := 3.0; pruningCycle := 20;
     patternMinCommon := 2; messagesToAnalyze := 20 |}.

Definition lenient : Watcher :=
  fold_left analyzeMessage [heart_text; heart_text] (create lenient_settings).

(** A chat with one message, written by the user. *)
Definition user_chat : list Message :=
  [{| is_user := true; mes := Some "His heart pounded." |}].

(** A chat with both speakers. *)
Definition mixed_chat : list Message :=
  [{| is_user := false; mes := Some "His heart pounded." |};
   {| is_user := true; mes := Some "Her cheeks flushed red." |};
   {| is_user := false; mes := Some EmptyString |};
   {| is_user := false; mes := Some "His heart pounded again." |}].

(** The heart-pounded rule with a replace string that starts like a random
    list and never closes it. *)
Definition unclosed_rule : StaticFixer.Rule :=
  {| StaticFixer.scriptName := "Slopfix - Heart Pounding";
     StaticFixer.findRegex := Some (Seq WordB (Seq (lit "heart pounded") WordB));
     StaticFixer.replaceString := "{{random:pulse quickened,chest tightened";
     StaticFixer.disabled := false;
     StaticFixer.isStatic := true |}.

Definition unclosed_fixer : StaticFixer.Fixer :=
  {| StaticFixer.rules := [unclosed_rule]; StaticFixer.enabled := true |}.

Definition heart_sentence : string := "His heart pounded.".

End Samples.

(* ================================================================== *)
(** ** More of the Passive Watcher, and what its states have in common *)

Module Coverage.
Import RegExp PassiveWatcher Props.

(** [setAnalysisWindow(windowSize)] *)
Definition setAnalysisWindow (w : Watcher) (windowSize : nat) : Watcher :=
  {| settings :=
       {| ngramMin := ngramMin (settings w); ngramMax := ngramMax (settings w);
          slopThreshold := slopThreshold (settings w);
          pruningCycle := pruningCycle (settings w);
          patternMinCommon := patternMinCommon (settings w);
          messagesToAnalyze := windowSize |};
     ngramFrequencies := ngramFrequencies w; slopCandidates := slopCandidates w;
     totalMessagesProcessed := totalMessagesProcessed w; enabled := enabled w;
     whitelist := whitelist w |}.

(** What holds of the table and the candidates at any point of the loops of
    [analyzeMessage]: the keys are distinct, the candidates are distinct and
    tracked, every record has been observed at least once and not after the
    message being processed. *)
Definition loop_formed (w : Watcher) : Prop :=
  NoDup (keys (ngramFrequencies w)) /\
  NoDup (slopCandidates w) /\
  incl (slopCandidates w) (keys (ngramFrequencies w)) /\
  forall k d, In (k, d) (ngramFrequencies w) ->
              1 <= count d /\ lastSeen d <= totalMessagesProcessed w.

(** What holds between two calls: the same, and every record was last seen
    in a message that has been counted. *)
Definition well_formed (w : Watcher) : Prop :=
  NoDup (keys (ngramFrequencies w)) /\
  NoDup (slopCandidates w) /\
  incl (slopCandidates w) (keys (ngramFrequencies w)) /\
  forall k d, In (k, d) (ngramFrequencies w) ->
              1 <= count d /\ lastSeen d < totalMessagesProcessed w.

(** [analyzeMessage] without the pruning that may follow it. *)
Definition observe_only (w : Watcher) (text : option string) : Watcher :=
  if observes w text then after_loops w text else w.

(** The watcher with another set of stop words. *)
Definition with_whitelist (w : Watcher) (wl : list string) : Watcher :=
  {| settings := settings w; ngramFrequencies := ngramFrequencies w;
     slopCandidates := slopCandidates w;
     totalMessagesProcessed := totalMessagesProcessed w; enabled := enabled w;
     whitelist := wl |}.

(** Two sets of stop words that hold the same lower-case words. *)
Definition same_lower_words (wl wl' : list string) : Prop :=
  forall t, Js.toLowerCase t = t -> set_has t wl = set_has t wl'.

(** A string with the characters of a set taken out. *)
Fixpoint remove_chars (p : ascii -> bool) (s : string) : string :=
  match s with
  | EmptyString => EmptyString
  | String c t => if p c then remove_chars p t else String c (remove_chars p t)
  end.

(** The text that [replace] assembles from the matches [ms], starting at the
    position [from] of the input. *)
Definition spliced_text {S : Type} (f : MatchResult -> S -> string * S)
    (input : string) (from : nat) (ms : list MatchResult) (st : S) : string :=
  let '(ps, tail, _) := splice f input from ms st in assemble ps tail.

(** A string with every run of white space replaced by one space;
    [in_run] tells that the character before was white space. *)
Fixpoint collapse (in_run : bool) (s : string) : string :=
  match s with
  | EmptyString => EmptyString
  | String c t =>
      if Js.is_space c
      then if in_run then collapse true t else String " " (collapse true t)
      else String c (collapse false t)
  end.

(** Every white-space character of the string is a space that follows a
    character that is not white space; [after_space] tells what precedes the
    string. *)
Fixpoint single_spaced (after_space : bool) (s : string) : bool :=
  match s with
  | EmptyString => true
  | String c t =>
      if Js.is_space c
      then Ascii.eqb c " " && negb after_space && single_spaced true t
      else single_spaced false t
  end.

(** A word: not empty and without white space. *)
Definition is_word_text (w : string) : Prop :=
  w <> EmptyString /\ no_space w = true.

(** The characters [.,!?] that the tokeniser deletes. *)
Definition is_punct (c : ascii) : bool := one_of ".,!?" c.

(** The n-gram has at least [n] tokens and a token outside the set [wl]. *)
Definition qualified_by (wl : list string) (n : nat) (ngram : string) : Prop :=
  n <= List.length (tokens ngram) /\
  exists t, In t (tokens ngram) /\ set_has t wl = false.

(** The words of [base] are stop words of the watcher, and every tracked
    n-gram has enough tokens and a token outside [base]. *)
Definition tracked_since (base : list string) (w : Watcher) : Prop :=
  (forall t, set_has t base = true -> set_has t (whitelist w) = true) /\
  forall ngram, In ngram (keys (ngramFrequencies w)) ->
                qualified_by base (ngramMin (settings w)) ngram.

(** The watcher that has seen "his heart pounded" three times, after
    "heart" and "pounded" were made stop words. *)
Definition rewhitelisted : Watcher :=
  addToWhitelist Samples.seasoned ["heart"; "pounded"].

(** A sentence with the letters 201 and 220 (capital E with acute, capital
    U with diaeresis), and a text with no-break spaces (160). *)
Definition latin_sentence : string :=
  (String "201"%char "lan VITAL " ++ String "220"%char "ber alles.")%string.

Definition nbsp_text : string :=
  String "a" (String "160"%char (String " " (String "b" (String "160"%char EmptyString)))).

(** A chat in which one message is markup only. *)
Definition markup_chat : list Message :=
  [{| is_user := false; mes := Some "His heart pounded." |};
   {| is_user := false; mes := Some "<br>" |}].

End Coverage.

(* ================================================================== *)
(** ** More of the Static Fixer *)

Module FixerCoverage.
Import RegExp StaticFixer.

(** [setAllRulesEnabled(enabled)] *)
Definition setAllRulesEnabled (f : Fixer) (en : bool) : Fixer :=
  {| rules := map (fun rule =>
                     {| scriptName := scriptName rule; findRegex := findRegex rule;
                        replaceString := replaceString rule; disabled := negb en;
                        isStatic := isStatic rule |}) (rules f);
     enabled := enabled f |}.

(** The matches of the pattern of a rule in a text; none when the pattern
    does not compile. *)
Definition rule_matches (rule : Rule) (text : string) : list MatchResult :=
  match findRegex rule with
  | Some regex => matches fl_gi regex text
  | None => []
  end.

(** A rule that [applyReplacements] passes over: disabled, not static, or
    with a pattern that does not compile. *)
Definition inert (rule : Rule) : bool :=
  disabled rule || negb (isStatic rule)
  || match findRegex rule with Some _ => false | None => true end.

(** A rule of the randomised kind whose list of options parses. *)
Definition draws (rule : Rule) : bool :=
  Js.includes "{{random:" (replaceString rule)
  && match parse_options (replaceString rule) with Some _ => true | None => false end.

(** A pattern that ends with one character of the set [p], in a group. *)
Fixpoint ends_with_sym (p : ascii -> bool) (r : regex) : Prop :=
  match r with
  | Group _ (Sym q) => q = p
  | Seq _ r2 => ends_with_sym p r2
  | _ => False
  end.





(** The heart-pounded rule, whose pattern has no group, with alternatives
    that refer to groups: [{{random:$1,$2}}]. *)
Definition groupless_rule : Rule :=
  {| scriptName := "Heart without groups";
     findRegex := Some (Seq WordB (Seq (lit "heart pounded") WordB));
     replaceString := "{{random:$1,$2}}";
     disabled := false;
     isStatic := true |}.

Definition groupless_fixer : Fixer := {| rules := [groupless_rule]; enabled := true |}.

(** A character that does not open a tag. *)
Definition not_tag_open (c : ascii) : bool := negb (Ascii.eqb "<" c).

(** A character that is none of the sentence marks [.!?]. *)
Definition not_mark (c : ascii) : bool := negb (one_of ".!?" c).

(** A rule with a pattern that does not compile. *)
Definition broken_rule : Rule :=
  {| scriptName := "Broken"; findRegex := None;
     replaceString := "x"; disabled := false; isStatic := true |}.

End FixerCoverage.

(** The rules with the [id] of their objects. *)
Module FixerCatalog.
Import RegExp StaticFixer.

(** A rule object: the fields the fixer applies and the [id], when the
    object has one. *)
Record Entry : Type := { id : option string; rule : Rule }.

(** [r.id === ruleId] *)
Definition has_id (ruleId : string) (e : Entry) : bool :=
  match id e with Some i => String.eqb i ruleId | None => false end.

Definition set_disabled (r : Rule) (d : bool) : Rule :=
  {| scriptName := scriptName r; findRegex := findRegex r;
     replaceString := replaceString r; disabled := d; isStatic := isStatic r |}.

(** [setRuleEnabled(ruleId, enabled)]: [find] yields the first rule with the
    id, or nothing. *)
Fixpoint setRuleEnabled (entries : list Entry) (ruleId : string) (en : bool)
    : list Entry :=
  match entries with
  | [] => []
  | e :: es =>
      if has_id ruleId e
      then {| id := id e; rule := set_disabled (rule e) (negb en) |} :: es
      else e :: setRuleEnabled es ruleId en
  end.

(** The fixer that holds these rule objects. *)
Definition fixer_of (entries : list Entry) (en : bool) : Fixer :=
  {| rules := map rule entries; enabled := en |}.

(** The entries without the first one that has the id. *)
Fixpoint remove_first (ruleId : string) (entries : list Entry) : list Entry :=
  match entries with
  | [] => []
  | e :: es => if has_id ruleId e then es else e :: remove_first ruleId es
  end.

(** Two rule objects with the same id. *)
Definition twin_entries : list Entry :=
  [{| id := Some "R1"; rule := heart_rule |};
   {| id := Some "R1"; rule := heart_rule |}].

End FixerCatalog.

(* ================================================================== *)
(** ** Module C: the Proactive Injector ([src/proactive-injector.js]) *)

Module ProactiveInjector.

(** The injector holds the phrases it was last given, as the watcher's query
    returns them. *)
Record Injector : Type := {
  enabled : bool;
  overusedPhrases : list PassiveWatcher.OverusedPhrase;
  injectionMode : string;
  priority : string
}.

Definition create : Injector :=
  {| enabled := true; overusedPhrases := []; injectionMode := "system";
     priority := "high" |}.

Definition updateOverusedPhrases (inj : Injector)
    (phrases : list PassiveWatcher.OverusedPhrase) : Injector :=
  {| enabled := enabled inj; overusedPhrases := phrases;
     injectionMode := injectionMode inj; priority := priority inj |}.

(** [arr.slice(0, e)] for an integer [e]: a negative end counts from the end
    of the array. *)
Definition slice_to {A} (e : Z) (l : list A) : list A :=
  firstn (Z.to_nat (if (e <? 0)%Z then (Z.of_nat (List.length l) + e)%Z else e)) l.

Definition nl : string := String "010"%char EmptyString.

Definition dq : string := String PassiveWatcher.dquote EmptyString.

(** The phrase of an item between double quotes. *)
Definition quoted (item : PassiveWatcher.OverusedPhrase) : string :=
  (dq ++ PassiveWatcher.phrase item ++ dq)%string.

(** The template of the directive: what precedes and what follows the list
    of phrases.  The letter before [d patterns] is the code unit 233. *)
Definition directive_head : string :=
  ("[ANTI-SLOP DIRECTIVE - HIGH PRIORITY]" ++ nl
   ++ "The following phrases have been severely overused in recent responses. You MUST avoid them completely:"
   ++ nl ++ nl)%string.

Definition directive_foot : string :=
  (nl ++ nl
   ++ "Instead, use fresh, creative alternatives that convey the same meaning through different words, metaphors, or descriptive angles. Show emotions and reactions through unique sensory details, body language, and dialogue rather than these clich"
   ++ String "233"%char "d patterns." ++ nl)%string.

Definition directive_template (list : string) : string :=
  (nl ++ directive_head ++ list ++ directive_foot)%string.

Definition generatePreventativeInstructions (inj : Injector) (maxPhrases : Z) : string :=
  if negb (enabled inj) || (List.length (overusedPhrases inj) =? 0) then EmptyString
  else
    let topPhrases := map quoted (slice_to maxPhrases (overusedPhrases inj)) in
    if List.length topPhrases =? 0 then EmptyString
    else Js.trim (directive_template (Js.join ", " topPhrases)).

(** The line of the guideline for one phrase. *)
Definition example (item : PassiveWatcher.OverusedPhrase) : string :=
  ("- Instead of " ++ quoted item
   ++ ", consider: physical sensations, environmental details, or internal monologue")%string.

Definition guideline_head : string :=
  ("[WRITING GUIDELINE]" ++ nl ++ "Recent patterns to avoid:" ++ nl)%string.

Definition guideline_foot : string :=
  (nl ++ nl
   ++ "Focus on vivid, specific, and varied descriptions that haven't appeared in the last 20 messages."
   ++ nl)%string.

Definition guideline_template (examples : string) : string :=
  (nl ++ guideline_head ++ examples ++ guideline_foot)%string.

Definition generateAlternativesSuggestion (inj : Injector) : string :=
  if negb (enabled inj) || (List.length (overusedPhrases inj) =? 0) then EmptyString
  else
    let examples := Js.join nl (map example (slice_to 3 (overusedPhrases inj))) in
    Js.trim (guideline_template examples).

(** [getInjectionText()]; [None] is [null]. *)
Definition getInjectionText (inj : Injector) : option string :=
  if negb (enabled inj) || (List.length (overusedPhrases inj) =? 0) then None
  else Some (generatePreventativeInstructions inj 10).

Definition generateGentleReminder (inj : Injector) : string :=
  if negb (enabled inj) || (List.length (overusedPhrases inj) =? 0) then EmptyString
  else
    let topPhrases := map PassiveWatcher.phrase (slice_to 5 (overusedPhrases inj)) in
    ("[OOC: Focus on fresh, varied descriptions. Recent overused patterns include: "
     ++ Js.join ", " topPhrases ++ ". Find creative alternatives.]")%string.

Definition reset (inj : Injector) : Injector :=
  {| enabled := enabled inj; overusedPhrases := [];
     injectionMode := injectionMode inj; priority := priority inj |}.

Record Stats : Type := {
  st_enabled : bool;
  phrasesTracked : nat;
  st_injectionMode : string;
  st_priority : string;
  wouldInject : bool;
  topPhrases : list PassiveWatcher.OverusedPhrase
}.

Definition getStats (inj : Injector) : Stats :=
  {| st_enabled := enabled inj;
     phrasesTracked := List.length (overusedPhrases inj);
     st_injectionMode := injectionMode inj;
     st_priority := priority inj;
     wouldInject := 0 <? List.length (overusedPhrases inj);
     topPhrases := slice_to 5 (overusedPhrases inj) |}.

Definition setEnabled (inj : Injector) (en : bool) : Injector :=
  {| enabled := en; overusedPhrases := overusedPhrases inj;
     injectionMode := injectionMode inj; priority := priority inj |}.

(** [array.includes(x)] for strings. *)
Definition array_includes (x : string) (l : list string) : bool :=
  existsb (String.eqb x) l.

Definition modes : list string := ["system"; "user"; "both"].
Definition priorities : list string := ["high"; "medium"; "low"].

Definition setInjectionMode (inj : Injector) (mode : string) : Injector :=
  if array_includes mode modes
  then {| enabled := enabled inj; overusedPhrases := overusedPhrases inj;
          injectionMode := mode; priority := priority inj |}
  else inj.

Definition setPriority (inj : Injector) (p : string) : Injector :=
  if array_includes p priorities
  then {| enabled := enabled inj; overusedPhrases := overusedPhrases inj;
          injectionMode := injectionMode inj; priority := p |}
  else inj.

End ProactiveInjector.

(** What the properties of the injector speak of. *)
Module InjectorProps.
Import ProactiveInjector.

(** The injector has nothing to say: it is switched off or knows no phrase. *)
Definition silent (inj : Injector) : bool :=
  negb (enabled inj) || (List.length (overusedPhrases inj) =? 0).

(** The directive without the white space around it. *)
Definition directive_text (list : string) : string :=
  (directive_head ++ list ++ Js.trim_end directive_foot)%string.

(** Mode and priority are among the values the setters accept. *)
Definition valid (inj : Injector) : Prop :=
  In (injectionMode inj) modes /\ In (priority inj) priorities.

(** The records of the table that the default query returns. *)
Definition overused (e : string * PassiveWatcher.NgramData) : bool :=
  (5.0 <=? PassiveWatcher.score (snd e))%float.

(** An injector that knows two phrases, and the same one switched off. *)
Definition two_phrases : Injector :=
  {| enabled := true;
     overusedPhrases :=
       [{| PassiveWatcher.phrase := "his heart pounded";
           PassiveWatcher.p_score := 7.5%float; PassiveWatcher.p_count := 3 |};
        {| PassiveWatcher.phrase := "a shiver ran down";
           PassiveWatcher.p_score := 6.0%float; PassiveWatcher.p_count := 2 |}];
     injectionMode := "system"; priority := "high" |}.

End InjectorProps.

(** What the properties of the sentence splitter speak of. *)
Module Sentences.
Import RegExp PassiveWatcher.

(** A sentence mark. *)
Definition terminator (c : ascii) : bool := one_of ".!?" c.

Definition not_terminator (c : ascii) : bool := negb (terminator c).

(** The longest prefix whose characters are in a set, and what follows it. *)
Fixpoint take_while (q : ascii -> bool) (s : string) : string :=
  match s with
  | String c t => if q c then String c (take_while q t) else EmptyString
  | EmptyString => EmptyString
  end.

Fixpoint drop_while (q : ascii -> bool) (s : string) : string :=
  match s with
  | String c t => if q c then drop_while q t else s
  | EmptyString => EmptyString
  end.

(** The string starts with a character of the set. *)
Definition starts (q : ascii -> bool) (s : string) : bool :=
  match s with String c _ => q c | EmptyString => false end.

(** The state of a match after the characters of a set at the start of [s]
    have been consumed, from position [i] on. *)
Fixpoint eat (q : ascii -> bool) (i : nat) (pc : option ascii) (s : string)
    : MatchState :=
  match s with
  | String c t =>
      if q c then eat q (S i) (Some c) t
      else {| endIndex := i; rest := s; prev := pc; captures := [] |}
  | EmptyString => {| endIndex := i; rest := s; prev := pc; captures := [] |}
  end.

(** The sentence at the start of a text and what follows it: characters
    that are no sentence marks, then sentence marks, then a double quote if
    there is one. *)
Definition sentence_at (s : string) : option (string * string) :=
  match s with
  | EmptyString => None
  | String ch s' =>
      if terminator ch then None
      else
        let run := String ch (take_while not_terminator s') in
        match drop_while not_terminator s' with
        | EmptyString => None
        | String c2 s2 =>
            if terminator c2 then
              let marks := String c2 (take_while terminator s2) in
              match drop_while terminator s2 with
              | String c4 s4 =>
                  if Ascii.eqb dquote c4
                  then Some ((run ++ marks ++ String c4 EmptyString)%string, s4)
                  else Some ((run ++ marks)%string, String c4 s4)
              | EmptyString => Some ((run ++ marks)%string, EmptyString)
              end
            else None
        end
  end.

(** The text ends with a sentence mark. *)
Fixpoint ends_with_terminator (s : string) : bool :=
  match s with
  | EmptyString => false
  | String c EmptyString => terminator c
  | String _ t => ends_with_terminator t
  end.

(** A text without sentence marks that does not start with a double quote. *)
Definition loose_tail (tail : string) : bool :=
  Js.forall_chars not_terminator tail && negb (starts (Ascii.eqb dquote) tail).

End Sentences.

(* ================================================================== *)
(** ** Facts about strings and splitting *)

Module JsFacts.
Import RegExp Props.

Lemma lower_char_fixed (c : ascii) : lower_fixed (Js.lower_char c) = true.
Proof. destruct c as [[] [] [] [] [] [] [] []]; reflexivity. Qed.

Lemma toLowerCase_fixed (s : string) :
  Js.forall_chars lower_fixed (Js.toLowerCase s) = true.
Proof.
  induction s as [|c s IH]; [reflexivity|].
  cbn. now rewrite lower_char_fixed, IH.
Qed.

Lemma toLowerCase_id (s : string) :
  Js.forall_chars lower_fixed s = true -> Js.toLowerCase s = s.
Proof.
  induction s as [|c s IH]; [reflexivity|].
  cbn [Js.forall_chars]. intros H. apply andb_prop in H. destruct H as [Hc Hs].
  apply Ascii.eqb_eq in Hc. unfold Js.toLowerCase in *. cbn [Js.map_chars].
  now rewrite Hc, IH.
Qed.

Lemma forall_chars_app (p : ascii -> bool) (a b : string) :
  Js.forall_chars p (a ++ b)%string = Js.forall_chars p a && Js.forall_chars p b.
Proof.
  induction a as [|c a IH]; [reflexivity|].
  cbn. now rewrite IH, andb_assoc.
Qed.

Lemma forall_chars_substring (p : ascii -> bool) (s : string) (i n : nat) :
  Js.forall_chars p s = true -> Js.forall_chars p (substring i n s) = true.
Proof.
  revert i n. induction s as [|c s IH]; intros i n H.
  - destruct i, n; reflexivity.
  - cbn in H. apply andb_prop in H. destruct H as [Hc Hs].
    destruct i as [|i]; cbn.
    + destruct n as [|n]; [reflexivity|]. cbn. now rewrite Hc, IH.
    + now apply IH.
Qed.

Lemma forall_chars_join (p : ascii -> bool) (sep : string) (ws : list string) :
  Js.forall_chars p sep = true ->
  Forall (fun w => Js.forall_chars p w = true) ws ->
  Js.forall_chars p (Js.join sep ws) = true.
Proof.
  intros Hsep. induction 1 as [|w ws Hw Hws IH]; [reflexivity|].
  cbn [Js.join]. destruct ws as [|w' ws]; [exact Hw|].
  rewrite !forall_chars_app, Hw, Hsep. exact IH.
Qed.

(** The pieces of a split by a pattern without groups are cut from the
    input. *)
Lemma split_from_chars (p : ascii -> bool) (fl : flags) (r : regex) (input : string) :
  ngroups r = 0 ->
  Js.forall_chars p input = true ->
  forall fuel a q pc s,
    Forall (fun w => Js.forall_chars p w = true) (split_from fuel fl r input a q pc s).
Proof.
  intros Hg Hin. induction fuel as [|fuel IH]; intros a q pc s; [constructor|].
  cbn [split_from]. destruct s as [|ch s'].
  - constructor; [|constructor]. now apply forall_chars_substring.
  - unfold match_at.
    destruct (matcher fl r _ Some) as [y|]; [|apply IH].
    cbn [matched result_of groups lastChar after index].
    match goal with |- context [if ?b then _ else _] => destruct b end; [apply IH|].
    constructor; [now apply forall_chars_substring|].
    rewrite Hg. cbn [seq map app]. apply IH.
Qed.

Lemma split_chars (p : ascii -> bool) (fl : flags) (r : regex) (input : string) :
  ngroups r = 0 ->
  Js.forall_chars p input = true ->
  Forall (fun w => Js.forall_chars p w = true) (split fl r input).
Proof.
  intros Hg Hin. unfold split. destruct input as [|c t].
  - destruct (match_at _ _ _ _ _ _); repeat constructor.
  - now apply split_from_chars.
Qed.

(** *** What a match consumes *)

Lemma append_assoc (a b c : string) : ((a ++ b) ++ c = a ++ (b ++ c))%string.
Proof. induction a as [|x a IH]; cbn; [reflexivity|]. now rewrite IH. Qed.

Lemma append_nil_r (a : string) : (a ++ "")%string = a.
Proof. induction a as [|x a IH]; cbn; [reflexivity|]. now rewrite IH. Qed.

Lemma length_append (a b : string) :
  String.length (a ++ b) = String.length a + String.length b.
Proof. induction a as [|x a IH]; cbn; [reflexivity|]. now rewrite IH. Qed.

Lemma substring_prefix (a b : string) : substring 0 (String.length a) (a ++ b) = a.
Proof.
  induction a as [|x a IH]; cbn.
  - destruct b; reflexivity.
  - now rewrite IH.
Qed.

Lemma substring_middle (a b c : string) :
  substring (String.length a) (String.length b) (a ++ b ++ c) = b.
Proof. induction a as [|x a IH]; cbn; [apply substring_prefix|exact IH]. Qed.

Lemma extends_refl (x : MatchState) : extends x x.
Proof. exists EmptyString. cbn. split; [reflexivity|lia]. Qed.

Lemma extends_trans (x y z : MatchState) : extends x y -> extends y z -> extends x z.
Proof.
  intros (a & Ha & La) (b & Hb & Lb). exists (a ++ b)%string.
  rewrite Ha, Hb, append_assoc, length_append. split; [reflexivity|lia].
Qed.

Lemma extends_advance (x : MatchState) (ch : ascii) (s' : string) :
  rest x = String ch s' -> extends x (advance x ch s').
Proof.
  intros H. exists (String ch EmptyString). cbn. split; [exact H|lia].
Qed.

Lemma extends_clear (gs : list nat) (x y : MatchState) :
  extends (clear_captures gs x) y -> extends x y.
Proof. intros H. exact H. Qed.

Lemma extends_capture (i : nat) (v : string) (x y : MatchState) :
  extends x y -> extends x (set_capture i v y).
Proof. intros H. exact H. Qed.

Lemma star_loop_extends (greedy : bool)
    (m1 : MatchState -> (MatchState -> option MatchState) -> option MatchState)
    (gs : list nat) (c : MatchState -> option MatchState) :
  (forall x k z, m1 x k = Some z -> exists y, extends x y /\ k y = Some z) ->
  forall fuel x z,
    star_loop greedy m1 gs c fuel x = Some z ->
    exists y, extends x y /\ c y = Some z.
Proof.
  intros Hm. induction fuel as [|fuel IH]; intros x z H; cbn [star_loop] in H.
  - exists x. split; [apply extends_refl|exact H].
  - assert (Hagain : forall z',
              m1 (clear_captures gs x)
                 (fun y => if endIndex y =? endIndex x then None
                           else star_loop greedy m1 gs c fuel y) = Some z' ->
              exists y, extends x y /\ c y = Some z').
    { intros z' E. apply Hm in E. destruct E as (y1 & E1 & E2).
      destruct (endIndex y1 =? endIndex x); [discriminate|].
      apply IH in E2. destruct E2 as (y & E3 & E4).
      exists y. split; [|exact E4].
      eapply extends_trans; [apply (extends_clear gs); exact E1|exact E3]. }
    destruct greedy.
    + destruct (m1 _ _) as [z'|] eqn:E.
      * injection H as <-. now apply Hagain.
      * exists x. split; [apply extends_refl|exact H].
    + destruct (c x) as [z'|] eqn:E.
      * injection H as <-. exists x. split; [apply extends_refl|exact E].
      * now apply Hagain.
Qed.

(** Whatever a pattern matches is a prefix of the input it started on. *)
Lemma matcher_extends (fl : flags) (r : regex) :
  forall x c z, matcher fl r x c = Some z -> exists y, extends x y /\ c y = Some z.
Proof.
  induction r as [|p|p| |r1 IH1 r2 IH2|r1 IH1 r2 IH2|g r1 IH1|i r1 IH1| |];
    intros x c z H; cbn [matcher] in H.
  - exists x. split; [apply extends_refl|exact H].
  - destruct (rest x) as [|ch s'] eqn:E; [discriminate|].
    destruct (set_match _ _ _); [|discriminate].
    exists (advance x ch s'). split; [now apply extends_advance|exact H].
  - destruct (rest x) as [|ch s'] eqn:E; [discriminate|].
    destruct (set_match _ _ _); [discriminate|].
    exists (advance x ch s'). split; [now apply extends_advance|exact H].
  - destruct (rest x) as [|ch s'] eqn:E; [discriminate|].
    destruct (_ || _); [|discriminate].
    exists (advance x ch s'). split; [now apply extends_advance|exact H].
  - apply IH1 in H. destruct H as (y1 & E1 & H).
    apply IH2 in H. destruct H as (y2 & E2 & H).
    exists y2. split; [eapply extends_trans; eauto|exact H].
  - destruct (matcher fl r1 x c) as [z'|] eqn:E.
    + injection H as <-. now apply IH1.
    + now apply IH2.
  - eapply star_loop_extends; [|exact H].
    intros x' k z' E. now apply IH1.
  - apply IH1 in H. destruct H as (y & E & H).
    eexists. split; [apply extends_capture; exact E|exact H].
  - destruct (prev x); [discriminate|].
    exists x. split; [apply extends_refl|exact H].
  - destruct (xorb _ _); [|discriminate].
    exists x. split; [apply extends_refl|exact H].
Qed.

(** A greedy repetition never fails when what follows it cannot fail. *)
Lemma star_loop_total
    (m1 : MatchState -> (MatchState -> option MatchState) -> option MatchState)
    (gs : list nat) (fuel : nat) (x : MatchState) :
  star_loop true m1 gs Some fuel x <> None.
Proof.
  destruct fuel as [|fuel]; cbn [star_loop]; [discriminate|].
  destruct (m1 _ _); discriminate.
Qed.

(** [\s+] at a position: it matches exactly when a white-space character
    stands there, and then consumes at least that character. *)
Lemma spaces_match_at (re := Seq (Sym Js.is_space) (Star true (Sym Js.is_space)))
    (input : string) (q : nat) (pc : option ascii) (s : string) :
  match match_at fl_none re input q pc s with
  | Some m =>
      s = (matched m ++ after m)%string /\ matched m <> EmptyString /\ groups m = []
  | None =>
      match s with
      | String ch _ => Js.is_space ch = false
      | EmptyString => True
      end
  end.
Proof.
  unfold match_at. destruct s as [|ch s']; [exact I|].
  set (x0 := {| endIndex := q; rest := String ch s'; prev := pc; captures := [] |}).
  assert (Hstep : matcher fl_none re x0 Some =
                  if Js.is_space ch
                  then matcher fl_none (Star true (Sym Js.is_space)) (advance x0 ch s') Some
                  else None) by reflexivity.
  rewrite Hstep. clear Hstep.
  destruct (Js.is_space ch) eqn:Es; [|reflexivity].
  destruct (matcher fl_none (Star true (Sym Js.is_space)) _ Some) as [y|] eqn:E.
  - apply matcher_extends in E. destruct E as (y' & (c2 & Hc & Hl) & [= ->]).
    cbn [rest endIndex advance x0] in Hc, Hl.
    cbn [matched after groups result_of].
    replace (endIndex y - q) with (S (String.length c2)) by lia.
    subst s'. cbn [substring]. rewrite substring_prefix.
    split; [reflexivity|]. split; [discriminate|reflexivity].
  - exfalso. cbn [matcher] in E. now apply star_loop_total in E.
Qed.

(** The pieces of a split at white space hold no white space. *)
Lemma split_spaces_from (fuel : nat) :
  forall (input : string) (p q : nat) (pc : option ascii) (s pre piece : string),
    input = (pre ++ piece ++ s)%string ->
    p = String.length pre -> q = p + String.length piece ->
    no_space piece = true ->
    Forall (fun w => no_space w = true)
           (split_from fuel fl_none PassiveWatcher.spaces_re input p q pc s).
Proof.
  induction fuel as [|fuel IH]; intros input p q pc s pre piece Hin Hp Hq Hn;
    [constructor|].
  cbn [split_from]. destruct s as [|ch s'].
  - constructor; [|constructor].
    replace (String.length input - p) with (String.length piece)
      by (subst input p; rewrite !length_append; cbn; lia).
    subst input p. now rewrite substring_middle.
  - pose proof (spaces_match_at input q pc (String ch s')) as H.
    change (Seq (Sym Js.is_space) (Star true (Sym Js.is_space)))
      with PassiveWatcher.spaces_re in H.
    destruct (match_at fl_none PassiveWatcher.spaces_re input q pc (String ch s'))
      as [m|].
    + destruct H as (Hs & Hne & Hg).
      assert (Hlen : 0 < String.length (matched m))
        by (destruct (matched m); [congruence|cbn; lia]).
      destruct (q + String.length (matched m) =? p) eqn:E;
        [apply Nat.eqb_eq in E; lia|].
      rewrite Hg. cbn [map app]. constructor.
      * replace (q - p) with (String.length piece) by lia.
        subst input p. now rewrite substring_middle.
      * apply (IH _ _ _ _ _ (pre ++ piece ++ matched m)%string EmptyString).
        -- rewrite Hin, Hs. cbn [append].
           now rewrite !append_assoc.
        -- rewrite !length_append. lia.
        -- cbn. lia.
        -- reflexivity.
    + apply (IH _ _ _ _ _ pre (piece ++ String ch EmptyString)%string).
      * rewrite Hin, append_assoc. reflexivity.
      * exact Hp.
      * rewrite length_append. cbn. lia.
      * unfold no_space in *. rewrite forall_chars_app, Hn. cbn. now rewrite H.
Qed.

Lemma split_spaces (input : string) :
  Forall (fun w => no_space w = true) (split fl_none PassiveWatcher.spaces_re input).
Proof.
  unfold split. destruct input as [|c t].
  - destruct (match_at _ _ _ _ _ _); repeat constructor.
  - apply (split_spaces_from _ _ _ _ _ _ EmptyString EmptyString); reflexivity.
Qed.

(** Splitting at the separator undoes joining words that do not hold it. *)
Lemma split_char_word (sep : ascii) (w : string) :
  Js.forall_chars (fun c => negb (Ascii.eqb c sep)) w = true ->
  Js.split_char sep w = [w] /\
  forall rest, Js.split_char sep (w ++ String sep rest)
               = w :: Js.split_char sep rest.
Proof.
  induction w as [|c w IH]; intros H.
  - split; [reflexivity|]. intros rest. cbn. now rewrite Ascii.eqb_refl.
  - cbn in H. apply andb_prop in H. destruct H as [Hc Hw].
    apply negb_true_iff in Hc. destruct (IH Hw) as [A B].
    split; [|intros rest]; cbn; rewrite Hc; [now rewrite A|now rewrite B].
Qed.

Lemma split_char_join (sep : ascii) (ws : list string) :
  ws <> [] ->
  Forall (fun w => Js.forall_chars (fun c => negb (Ascii.eqb c sep)) w = true) ws ->
  Js.split_char sep (Js.join (String sep EmptyString) ws) = ws.
Proof.
  intros Hne H. induction H as [|w ws Hw Hws IH]; [congruence|].
  cbn [Js.join]. destruct ws as [|w' ws].
  - now apply split_char_word.
  - destruct (split_char_word sep w Hw) as [_ B].
    cbn [append]. rewrite B, IH by discriminate. reflexivity.
Qed.

Lemma no_space_no_blank (w : string) :
  no_space w = true ->
  Js.forall_chars (fun c => negb (Ascii.eqb c " ")) w = true.
Proof.
  unfold no_space. induction w as [|c w IH]; [reflexivity|].
  cbn. intros H. apply andb_prop in H. destruct H as [Hc Hw].
  rewrite (IH Hw), andb_true_r.
  destruct (Ascii.eqb c " ") eqn:E; [|reflexivity].
  apply Ascii.eqb_eq in E. subst c. discriminate Hc.
Qed.

Lemma Forall_filter {A} (P : A -> Prop) (f : A -> bool) (l : list A) :
  Forall P l -> Forall P (filter f l).
Proof.
  induction 1 as [|x l Hx Hl IH]; cbn; [constructor|].
  destruct (f x); auto.
Qed.

Lemma Forall_firstn {A} (P : A -> Prop) (n : nat) (l : list A) :
  Forall P l -> Forall P (firstn n l).
Proof.
  intros H. revert n. induction H as [|x l Hx Hl IH]; intros [|n]; cbn;
    constructor; auto.
Qed.

Lemma Forall_skipn {A} (P : A -> Prop) (n : nat) (l : list A) :
  Forall P l -> Forall P (skipn n l).
Proof.
  intros H. revert n. induction H as [|x l Hx Hl IH]; intros [|n]; cbn;
    try constructor; auto.
Qed.

Lemma Forall_slice {A} (P : A -> Prop) (i j : nat) (l : list A) :
  Forall P l -> Forall P (Js.slice i j l).
Proof. intros H. unfold Js.slice. now apply Forall_firstn, Forall_skipn. Qed.

End JsFacts.

(* ================================================================== *)
(** ** Facts about the table and the n-gram loop *)

Module WatcherFacts.
Import RegExp PassiveWatcher Props.

Lemma map_get_set_same {V} (k : string) (v : V) (m : list (string * V)) :
  map_get k (map_set k v m) = Some v.
Proof.
  induction m as [|[k' v'] m IH]; simpl.
  - now rewrite String.eqb_refl.
  - destruct (String.eqb k' k) eqn:E; simpl; rewrite E; auto.
Qed.

Lemma map_get_set_other {V} (k k' : string) (v : V) (m : list (string * V)) :
  k' <> k -> map_get k (map_set k' v m) = map_get k m.
Proof.
  intros Hne. induction m as [|[k0 v0] m IH]; simpl.
  - destruct (String.eqb k' k) eqn:E; auto.
    apply String.eqb_eq in E. contradiction.
  - destruct (String.eqb k0 k') eqn:E; simpl.
    + apply String.eqb_eq in E. subst k0.
      destruct (String.eqb k' k) eqn:E'; auto.
      apply String.eqb_eq in E'. contradiction.
    + now rewrite IH.
Qed.

Lemma keys_map_set {V} (k : string) (v : V) (m : list (string * V)) :
  keys (map_set k v m) = if set_has k (keys m) then keys m else keys m ++ [k].
Proof.
  unfold keys, set_has. induction m as [|[k' v'] m IH]; simpl; auto.
  rewrite (String.eqb_sym k k').
  destruct (String.eqb k' k) eqn:E; simpl; auto.
  rewrite IH. now destruct (existsb (String.eqb k) (map fst m)).
Qed.

Lemma set_has_In (k : string) (s : list string) : set_has k s = true <-> In k s.
Proof.
  unfold set_has. rewrite existsb_exists. split.
  - intros (x & Hx & E). apply String.eqb_eq in E. now subst.
  - intros H. exists k. split; auto. apply String.eqb_refl.
Qed.

Lemma in_keys_map_set {V} (g k : string) (v : V) (m : list (string * V)) :
  In g (keys (map_set k v m)) <-> In g (keys m) \/ g = k.
Proof.
  rewrite keys_map_set. destruct (set_has k (keys m)) eqn:E.
  - apply set_has_In in E. split; [auto|]. intros [H| ->]; auto.
  - rewrite in_app_iff. simpl. split.
    + intros [H|[H|[]]]; auto.
    + intros [H|H]; auto.
Qed.

Lemma NoDup_map_set {V} (k : string) (v : V) (m : list (string * V)) :
  NoDup (keys m) -> NoDup (keys (map_set k v m)).
Proof.
  intros H. rewrite keys_map_set. destruct (set_has k (keys m)) eqn:E; auto.
  apply NoDup_app; auto.
  - constructor; [intros []|constructor].
  - intros x Hx [<-|[]]. apply set_has_In in Hx. congruence.
Qed.

(** The loop body leaves the configuration, the counter and the stop words
    alone. *)
Lemma observe_frame (w : Watcher) (o : nat * string) :
  settings (observe w o) = settings w /\
  totalMessagesProcessed (observe w o) = totalMessagesProcessed w /\
  whitelist (observe w o) = whitelist w /\
  enabled (observe w o) = enabled w.
Proof.
  unfold observe. destruct (isPhraseLowQuality w (snd o)); auto.
Qed.

Lemma fold_observe_frame (occs : list (nat * string)) (w : Watcher) :
  settings (fold_left observe occs w) = settings w /\
  totalMessagesProcessed (fold_left observe occs w) = totalMessagesProcessed w /\
  whitelist (fold_left observe occs w) = whitelist w /\
  enabled (fold_left observe occs w) = enabled w.
Proof.
  revert w. induction occs as [|o occs IH]; intros w; simpl; auto.
  destruct (IH (observe w o)) as (A & B & C & D).
  destruct (observe_frame w o) as (A' & B' & C' & D').
  repeat split; congruence.
Qed.

Lemma isPhraseLowQuality_frame (w w' : Watcher) (g : string) :
  settings w' = settings w -> whitelist w' = whitelist w ->
  isPhraseLowQuality w' g = isPhraseLowQuality w g.
Proof. intros A B. unfold isPhraseLowQuality. now rewrite A, B. Qed.

(** The count of uncommon words is the number of tokens that are no stop
    words. *)
Lemma uncommon_fold (wl : list string) (ws : list string) (a : nat) :
  fold_left (fun count word => count + (if set_has word wl then 0 else 1)) ws a
  = a + List.length (filter (fun t => negb (set_has t wl)) ws).
Proof.
  revert a. induction ws as [|x ws IH]; intros a; simpl; [lia|].
  rewrite IH. destruct (set_has x wl); simpl; lia.
Qed.

Lemma uncommonWordCount_spec (w : Watcher) (g : string) :
  uncommonWordCount w g = List.length (nonstop_tokens w g).
Proof. unfold uncommonWordCount. now rewrite uncommon_fold. Qed.

Lemma track_get_same (w : Watcher) (n : nat) (g : string) :
  map_get g (ngramFrequencies (track w n g)) = Some (bump w g (currentData w g) n).
Proof.
  unfold track. simpl. rewrite map_get_set_same. unfold bump, scoreIncrement.
  now rewrite uncommonWordCount_spec.
Qed.

Lemma track_get_other (w : Watcher) (n : nat) (g k : string) :
  k <> g -> map_get g (ngramFrequencies (track w n k)) = map_get g (ngramFrequencies w).
Proof. intros H. unfold track. simpl. now apply map_get_set_other. Qed.

Lemma bump_frame (w w' : Watcher) (g : string) (d : NgramData) (n : nat) :
  settings w' = settings w -> whitelist w' = whitelist w ->
  totalMessagesProcessed w' = totalMessagesProcessed w ->
  bump w' g d n = bump w g d n.
Proof. intros A B C. unfold bump, nonstop_tokens. now rewrite A, B, C. Qed.

Lemma fold_bump_frame (w w' : Watcher) (g : string) (ns : list nat) (d : NgramData) :
  settings w' = settings w -> whitelist w' = whitelist w ->
  totalMessagesProcessed w' = totalMessagesProcessed w ->
  fold_left (bump w' g) ns d = fold_left (bump w g) ns d.
Proof.
  intros A B C. revert d. induction ns as [|m ns IH]; intros d; [reflexivity|].
  cbn [fold_left]. rewrite (bump_frame w w') by assumption. apply IH.
Qed.

(** The record of a surviving n-gram after the loops: one [bump] for each of
    its occurrences, in order. *)
Lemma fold_observe_get (g : string) (occs : list (nat * string)) (w : Watcher) :
  isPhraseLowQuality w g = false ->
  map_get g (ngramFrequencies (fold_left observe occs w)) =
  match sizes_of g occs with
  | [] => map_get g (ngramFrequencies w)
  | ns => Some (fold_left (bump w g) ns (currentData w g))
  end.
Proof.
  intros Hq. revert w Hq.
  induction occs as [|[n k] occs IH]; intros w Hq; [reflexivity|].
  cbn [fold_left]. unfold sizes_of in *. cbn [filter snd].
  destruct (observe_frame w (n, k)) as (A & B & C & _).
  rewrite IH by (rewrite (isPhraseLowQuality_frame w) by assumption; exact Hq).
  destruct (String.eqb k g) eqn:E.
  - apply String.eqb_eq in E. subst k. cbn [map fst].
    assert (Hg : map_get g (ngramFrequencies (observe w (n, g)))
                 = Some (bump w g (currentData w g) n)).
    { unfold observe. cbn [fst snd]. rewrite Hq. apply track_get_same. }
    assert (Hc : currentData (observe w (n, g)) g = bump w g (currentData w g) n).
    { unfold currentData at 1. now rewrite Hg. }
    destruct (map fst (filter (fun o => String.eqb (snd o) g) occs)) as [|n' ns].
    + exact Hg.
    + rewrite Hc, (fold_bump_frame w) by assumption. reflexivity.
  - assert (Hne : k <> g) by (intros ->; rewrite String.eqb_refl in E; discriminate).
    assert (Hg : map_get g (ngramFrequencies (observe w (n, k)))
                 = map_get g (ngramFrequencies w)).
    { unfold observe. cbn [fst snd]. destruct (isPhraseLowQuality w k); auto.
      now apply track_get_other. }
    assert (Hc : currentData (observe w (n, k)) g = currentData w g).
    { unfold currentData. now rewrite Hg, B. }
    destruct (map fst (filter (fun o => String.eqb (snd o) g) occs)) as [|n' ns].
    + exact Hg.
    + rewrite Hc, (fold_bump_frame w) by assumption. reflexivity.
Qed.

Lemma fold_bump_last (w : Watcher) (g : string) (ns : list nat) (d : NgramData) :
  ns <> [] ->
  lastSeen (fold_left (bump w g) ns d) = totalMessagesProcessed w /\
  count (fold_left (bump w g) ns d) = count d + List.length ns.
Proof.
  revert d. induction ns as [|n ns IH]; intros d H; [congruence|].
  cbn [fold_left List.length]. destruct ns as [|n' ns].
  - simpl. split; [reflexivity|lia].
  - destruct (IH (bump w g d n)) as [A B]; [discriminate|].
    split; [exact A|]. rewrite B. simpl. lia.
Qed.

Lemma NoDup_fold_observe (occs : list (nat * string)) (w : Watcher) :
  distinct_keys w -> distinct_keys (fold_left observe occs w).
Proof.
  revert w. induction occs as [|o occs IH]; intros w H; [exact H|].
  cbn [fold_left]. apply IH. unfold observe.
  destruct (isPhraseLowQuality w (snd o)); [exact H|].
  unfold distinct_keys, track. cbn [ngramFrequencies with_table].
  now apply NoDup_map_set.
Qed.

Lemma map_get_In {V} (k : string) (v : V) (m : list (string * V)) :
  map_get k m = Some v -> In (k, v) m.
Proof.
  induction m as [|[k' v'] m IH]; simpl; [discriminate|].
  destruct (String.eqb k' k) eqn:E.
  - apply String.eqb_eq in E. intros [= ->]. left. now subst.
  - intros H. right. auto.
Qed.

Lemma map_get_notin {V} (k : string) (m : list (string * V)) :
  ~ In k (keys m) -> map_get k m = None.
Proof.
  induction m as [|[k' v'] m IH]; simpl; auto.
  intros H. destruct (String.eqb k' k) eqn:E.
  - apply String.eqb_eq in E. tauto.
  - apply IH. tauto.
Qed.

Lemma map_delete_mid {V} (k : string) (v : V) (pre post : list (string * V)) :
  ~ In k (keys pre) -> ~ In k (keys post) ->
  map_delete k (pre ++ (k, v) :: post) = pre ++ post.
Proof.
  intros Hpre Hpost. induction pre as [|[k' v'] pre IH]; simpl.
  - rewrite String.eqb_refl. clear - Hpost.
    induction post as [|[k' v'] post IH]; simpl; auto.
    simpl in Hpost. destruct (String.eqb k' k) eqn:E.
    + apply String.eqb_eq in E. tauto.
    + f_equal. apply IH. tauto.
  - simpl in Hpre. destruct (String.eqb k' k) eqn:E.
    + apply String.eqb_eq in E. tauto.
    + f_equal. apply IH. tauto.
Qed.

Lemma map_set_mid {V} (k : string) (v v' : V) (pre post : list (string * V)) :
  ~ In k (keys pre) ->
  map_set k v' (pre ++ (k, v) :: post) = pre ++ (k, v') :: post.
Proof.
  intros Hpre. induction pre as [|[k0 v0] pre IH]; simpl.
  - now rewrite String.eqb_refl.
  - simpl in Hpre. destruct (String.eqb k0 k) eqn:E.
    + apply String.eqb_eq in E. tauto.
    + f_equal. apply IH. tauto.
Qed.

Lemma prune_entry_frame (w : Watcher) (e : string * NgramData) :
  settings (prune_entry w e) = settings w /\
  totalMessagesProcessed (prune_entry w e) = totalMessagesProcessed w /\
  whitelist (prune_entry w e) = whitelist w /\
  enabled (prune_entry w e) = enabled w.
Proof.
  unfold prune_entry. destruct e as [k d].
  destruct (stale w d); auto.
  destruct (PrimFloat.ltb (score d) (slopThreshold (settings w))); auto.
Qed.

Lemma pruned_entry_frame (w w' : Watcher) (e : string * NgramData) :
  settings w' = settings w -> totalMessagesProcessed w' = totalMessagesProcessed w ->
  pruned_entry w' e = pruned_entry w e.
Proof. intros A B. unfold pruned_entry, stale, age. now rewrite A, B. Qed.

(** Pruning works entry by entry and keeps the order of the entries. *)
Lemma prune_fold (es pre : list (string * NgramData)) (w : Watcher) :
  NoDup (keys (pre ++ es)) ->
  ngramFrequencies w = pre ++ es ->
  ngramFrequencies (fold_left prune_entry es w) = pre ++ flat_map (pruned_entry w) es /\
  settings (fold_left prune_entry es w) = settings w /\
  totalMessagesProcessed (fold_left prune_entry es w) = totalMessagesProcessed w.
Proof.
  revert pre w. induction es as [|[k d] es IH]; intros pre w Hnd Ht.
  - simpl. rewrite app_nil_r in *. auto.
  - cbn [fold_left flat_map].
    destruct (prune_entry_frame w (k, d)) as (A & B & _).
    assert (Hk : ~ In k (keys pre) /\ ~ In k (keys es)).
    { unfold keys in *. rewrite map_app in Hnd. cbn [map fst] in Hnd.
      apply NoDup_remove_2 in Hnd. rewrite in_app_iff in Hnd. tauto. }
    destruct Hk as [Hpre Hes].
    assert (Hstep : prune_entry w (k, d) =
              if stale w d then
                if PrimFloat.ltb (score d) (slopThreshold (settings w))
                then with_table w (map_delete k (ngramFrequencies w))
                                  (set_delete k (slopCandidates w))
                else with_table w (map_set k (decayed d) (ngramFrequencies w))
                                  (slopCandidates w)
              else w) by reflexivity.
    assert (Hfr : forall w', settings w' = settings w ->
                    totalMessagesProcessed w' = totalMessagesProcessed w ->
                    flat_map (pruned_entry w') es = flat_map (pruned_entry w) es).
    { intros w' S T. apply flat_map_ext. intros e. now apply pruned_entry_frame. }
    unfold pruned_entry at 1. cbn [fst snd].
    destruct (stale w d) eqn:Es;
      [destruct (PrimFloat.ltb (score d) (slopThreshold (settings w))) eqn:El|].
    + assert (H1 : NoDup (keys (pre ++ es))).
      { unfold keys in *. rewrite map_app in *. cbn [map fst] in Hnd.
        now apply NoDup_remove_1 in Hnd. }
      assert (H2 : ngramFrequencies (prune_entry w (k, d)) = pre ++ es).
      { rewrite Hstep. cbn [ngramFrequencies with_table]. rewrite Ht.
        now apply map_delete_mid. }
      destruct (IH pre (prune_entry w (k, d)) H1 H2) as (X & Y & Z).
      rewrite X, Y, Z, Hfr by assumption. cbn [app]. auto.
    + assert (H1 : NoDup (keys ((pre ++ [(k, decayed d)]) ++ es))).
      { rewrite <- app_assoc. cbn [app]. unfold keys in *.
        rewrite map_app in *. exact Hnd. }
      assert (H2 : ngramFrequencies (prune_entry w (k, d))
                   = (pre ++ [(k, decayed d)]) ++ es).
      { rewrite Hstep. cbn [ngramFrequencies with_table]. rewrite Ht, <- app_assoc.
        now apply map_set_mid. }
      destruct (IH (pre ++ [(k, decayed d)]) (prune_entry w (k, d)) H1 H2) as (X & Y & Z).
      rewrite X, Y, Z, Hfr, <- app_assoc by assumption. auto.
    + assert (H1 : NoDup (keys ((pre ++ [(k, d)]) ++ es)))
        by now rewrite <- app_assoc.
      assert (H2 : ngramFrequencies (prune_entry w (k, d)) = (pre ++ [(k, d)]) ++ es).
      { rewrite Hstep. now rewrite <- app_assoc. }
      destruct (IH (pre ++ [(k, d)]) (prune_entry w (k, d)) H1 H2) as (X & Y & Z).
      rewrite X, Y, Z, Hfr, <- app_assoc by assumption. auto.
Qed.

Lemma pruneOldNgrams_table (w : Watcher) :
  distinct_keys w ->
  ngramFrequencies (pruneOldNgrams w) = flat_map (pruned_entry w) (ngramFrequencies w).
Proof.
  intros H. unfold pruneOldNgrams.
  destruct (prune_fold (ngramFrequencies w) [] w) as (X & _); auto.
Qed.

Lemma keys_pruned (w : Watcher) (es : list (string * NgramData)) (k : string) :
  In k (keys (flat_map (pruned_entry w) es)) -> In k (keys es).
Proof.
  unfold keys. induction es as [|[k0 d0] es IH]; cbn [flat_map map]; auto.
  rewrite map_app, in_app_iff. intros [H|H]; [|right; auto].
  left. unfold pruned_entry in H. cbn [fst snd] in H.
  destruct (stale w d0); [destruct (PrimFloat.ltb _ _)|]; simpl in H; tauto.
Qed.

Lemma map_get_app_notin {V} (k : string) (a b : list (string * V)) :
  ~ In k (keys a) -> map_get k (a ++ b) = map_get k b.
Proof.
  induction a as [|[k' v'] a IH]; simpl; auto.
  intros H. destruct (String.eqb k' k) eqn:E.
  - apply String.eqb_eq in E. tauto.
  - apply IH. tauto.
Qed.

Lemma map_get_pruned (w : Watcher) (es : list (string * NgramData))
    (k : string) (d : NgramData) :
  NoDup (keys es) -> In (k, d) es ->
  map_get k (flat_map (pruned_entry w) es) = map_get k (pruned_entry w (k, d)).
Proof.
  induction es as [|[k0 d0] es IH]; intros Hnd Hin; [destruct Hin|].
  cbn [flat_map]. unfold keys in Hnd. cbn [map fst] in Hnd.
  inversion Hnd as [|? ? Hnot Hnd']; subst.
  destruct Hin as [E|Hin].
  - inversion E; subst k0 d0.
    assert (Hr : map_get k (flat_map (pruned_entry w) es) = None).
    { apply map_get_notin. intros H. apply keys_pruned in H. contradiction. }
    unfold pruned_entry. cbn [fst snd].
    destruct (stale w d); [destruct (PrimFloat.ltb _ _)|]; simpl;
      rewrite ?String.eqb_refl; auto.
  - assert (Hne : k0 <> k).
    { intros ->. apply Hnot. apply (in_map fst) in Hin. exact Hin. }
    rewrite map_get_app_notin; [now apply IH|].
    intros H. assert (H' : In k (keys [(k0, d0)])).
    { apply (keys_pruned w). cbn [flat_map]. now rewrite app_nil_r. }
    simpl in H'. tauto.
Qed.

Lemma NoDup_keys_pruned (w : Watcher) (es : list (string * NgramData)) :
  NoDup (keys es) -> NoDup (keys (flat_map (pruned_entry w) es)).
Proof.
  induction es as [|[k d] es IH]; intros H; [constructor|].
  unfold keys in H. cbn [map fst] in H. inversion H as [|? ? Hnot Hnd]; subst.
  cbn [flat_map]. unfold pruned_entry at 1. cbn [fst snd].
  assert (Hk : ~ In k (keys (flat_map (pruned_entry w) es))).
  { intros Hin. apply keys_pruned in Hin. contradiction. }
  destruct (stale w d); [destruct (PrimFloat.ltb _ _)|]; cbn [app].
  - now apply IH.
  - unfold keys in *. cbn [map fst]. constructor; auto.
  - unfold keys in *. cbn [map fst]. constructor; auto.
Qed.

Lemma analyzeMessage_skips (w : Watcher) (text : option string) :
  observes w text = false -> analyzeMessage w text = w.
Proof.
  unfold observes, analyzeMessage. destruct text as [t|]; [|reflexivity].
  destruct (Js.truthy t); cbn [negb orb andb]; [|reflexivity].
  destruct (enabled w); cbn [negb andb]; [|reflexivity].
  now intros ->.
Qed.

Lemma analyzeMessage_observes (w : Watcher) (text : option string) :
  observes w text = true ->
  analyzeMessage w text =
  if prune_due (after_loops w text) then pruneOldNgrams (after_loops w text)
  else after_loops w text.
Proof.
  unfold observes, analyzeMessage. destruct text as [t|]; [|discriminate].
  destruct (Js.truthy t); cbn [negb orb andb]; [|discriminate].
  destruct (enabled w); cbn [negb andb]; [|discriminate].
  now intros ->.
Qed.

Lemma after_loops_frame (w : Watcher) (text : option string) :
  settings (after_loops w text) = settings w /\
  totalMessagesProcessed (after_loops w text) = totalMessagesProcessed w + 1 /\
  whitelist (after_loops w text) = whitelist w /\
  enabled (after_loops w text) = enabled w.
Proof.
  destruct (fold_observe_frame (occurrences w text) w) as (A & B & C & D).
  unfold after_loops. cbn [settings totalMessagesProcessed whitelist enabled with_counter].
  rewrite B. auto.
Qed.

Lemma prune_due_after_loops (w : Watcher) (text : option string) :
  prune_due (after_loops w text) =
  negb (pruningCycle (settings w) =? 0)
  && ((totalMessagesProcessed w + 1) mod pruningCycle (settings w) =? 0).
Proof.
  destruct (after_loops_frame w text) as (A & B & _).
  unfold prune_due. now rewrite A, B.
Qed.

Lemma distinct_after_loops (w : Watcher) (text : option string) :
  distinct_keys w -> distinct_keys (after_loops w text).
Proof. intros H. unfold after_loops. now apply NoDup_fold_observe. Qed.

Lemma distinct_pruneOldNgrams (w : Watcher) :
  distinct_keys w -> distinct_keys (pruneOldNgrams w).
Proof.
  intros H. unfold distinct_keys. rewrite pruneOldNgrams_table by assumption.
  now apply NoDup_keys_pruned.
Qed.

Lemma distinct_analyzeMessage (w : Watcher) (text : option string) :
  distinct_keys w -> distinct_keys (analyzeMessage w text).
Proof.
  intros H. destruct (observes w text) eqn:E.
  - rewrite analyzeMessage_observes by assumption.
    destruct (prune_due _).
    + now apply distinct_pruneOldNgrams, distinct_after_loops.
    + now apply distinct_after_loops.
  - now rewrite analyzeMessage_skips.
Qed.

Lemma distinct_create (s : Settings) : distinct_keys (create s).
Proof. constructor. Qed.

Lemma distinct_fold_analyzeMessage (texts : list (option string)) (w : Watcher) :
  distinct_keys w -> distinct_keys (fold_left analyzeMessage texts w).
Proof.
  revert w. induction texts as [|t texts IH]; intros w H; [exact H|].
  apply IH. now apply distinct_analyzeMessage.
Qed.

(** A record seen in the current message is not stale when pruning is due. *)
Lemma fresh_not_stale (w : Watcher) (text : option string) (d : NgramData) :
  lastSeen d = totalMessagesProcessed w ->
  prune_due (after_loops w text) = true ->
  stale (after_loops w text) d = false.
Proof.
  intros Hl Hp. unfold stale, age, prune_due in *.
  destruct (fold_observe_frame (occurrences w text) w) as (A & B & _).
  unfold after_loops in *.
  cbn [settings totalMessagesProcessed with_counter] in *.
  rewrite A, B in *. rewrite Hl.
  apply andb_prop in Hp. destruct Hp as [Hp _].
  apply negb_true_iff, Nat.eqb_neq in Hp.
  rewrite Z.gtb_ltb. apply Z.ltb_ge. lia.
Qed.

Lemma in_message_ngrams_size (s : Settings) (clean : string) (n : nat) (g : string) :
  In (n, g) (message_ngrams s clean) -> In n (window_sizes s).
Proof.
  unfold message_ngrams. rewrite in_flat_map. intros (sentence & _ & H).
  destruct (negb (Js.truthy (Js.trim sentence))); [destruct H|].
  unfold sentence_ngrams in H. rewrite in_flat_map in H.
  destruct H as (m & Hm & H).
  destruct (List.length (tokenize sentence) <? m); [destruct H|].
  rewrite in_map_iff in H. destruct H as (x & [= <- _] & _). exact Hm.
Qed.

Lemma window_sizes_range (s : Settings) (n : nat) :
  In n (window_sizes s) -> ngramMin s <= n <= ngramMax s.
Proof. unfold window_sizes. rewrite in_seq. lia. Qed.

(** The keys that the loops add are lower-case already. *)
Lemma tokenize_fixed (sentence : string) :
  Forall (fun t => Js.forall_chars lower_fixed t = true) (tokenize sentence).
Proof.
  unfold tokenize. apply JsFacts.Forall_filter, JsFacts.split_chars; [reflexivity|].
  apply JsFacts.toLowerCase_fixed.
Qed.

(** The tokens hold no white space, so the key of a window of tokens reads
    back as that window. *)
Lemma tokenize_no_space (sentence : string) :
  Forall (fun t => no_space t = true) (tokenize sentence).
Proof. unfold tokenize. apply JsFacts.Forall_filter, JsFacts.split_spaces. Qed.

Lemma tokens_of_window (sentence : string) (i n : nat) :
  0 < n -> i + n <= List.length (tokenize sentence) ->
  tokens (Js.join " " (Js.slice i (i + n) (tokenize sentence)))
  = Js.slice i (i + n) (tokenize sentence).
Proof.
  intros Hn Hi. unfold tokens. apply JsFacts.split_char_join.
  - intros E. apply (f_equal (@List.length string)) in E.
    unfold Js.slice in E. rewrite length_firstn, length_skipn in E. cbn in E. lia.
  - apply JsFacts.Forall_slice.
    eapply Forall_impl; [|apply tokenize_no_space].
    intros t. apply JsFacts.no_space_no_blank.
Qed.

Lemma generateNgrams_fixed (words : list string) (n : nat) (g : string) :
  Forall (fun t => Js.forall_chars lower_fixed t = true) words ->
  In g (generateNgrams words n) -> Js.forall_chars lower_fixed g = true.
Proof.
  intros Hw. unfold generateNgrams.
  destruct (List.length words <? n); [intros []|].
  rewrite in_map_iff. intros (i & <- & _).
  apply JsFacts.forall_chars_join; [reflexivity|].
  now apply JsFacts.Forall_slice.
Qed.

Lemma message_ngrams_fixed (s : Settings) (clean : string) (n : nat) (g : string) :
  In (n, g) (message_ngrams s clean) -> Js.forall_chars lower_fixed g = true.
Proof.
  unfold message_ngrams. rewrite in_flat_map. intros (sentence & _ & H).
  destruct (negb (Js.truthy (Js.trim sentence))); [destruct H|].
  unfold sentence_ngrams in H. rewrite in_flat_map in H.
  destruct H as (m & _ & H).
  destruct (List.length (tokenize sentence) <? m); [destruct H|].
  rewrite in_map_iff in H. destruct H as (x & [= _ <-] & Hx).
  eapply generateNgrams_fixed; [apply tokenize_fixed|exact Hx].
Qed.

Lemma not_low_quality_qualifies (w : Watcher) (g : string) :
  Js.forall_chars lower_fixed g = true ->
  isPhraseLowQuality w g = false -> qualifies w g.
Proof.
  intros Hf. unfold isPhraseLowQuality, qualifies, tokens.
  rewrite (JsFacts.toLowerCase_id g Hf).
  destruct (List.length (Js.split_char " " g) <? ngramMin (settings w)) eqn:El;
    [discriminate|].
  destruct (forallb _ _) eqn:Ea; [discriminate|]. intros _.
  apply Nat.ltb_ge in El. split; [exact El|].
  assert (Hex : existsb (fun t => negb (set_has t (whitelist w)))
                        (Js.split_char " " g) = true).
  { clear El. induction (Js.split_char " " g) as [|t ts IH]; [discriminate|].
    cbn in *. destruct (set_has t (whitelist w)); cbn in *; auto. }
  apply existsb_exists in Hex. destruct Hex as (t & Hin & Ht).
  exists t. split; [exact Hin|]. now apply negb_true_iff in Ht.
Qed.

Lemma fold_observe_keys (occs : list (nat * string)) (w : Watcher) (g : string) :
  In g (keys (ngramFrequencies (fold_left observe occs w))) ->
  In g (keys (ngramFrequencies w)) \/
  exists n, In (n, g) occs /\ isPhraseLowQuality w g = false.
Proof.
  revert w. induction occs as [|[n k] occs IH]; intros w H; [left; exact H|].
  cbn [fold_left] in H. apply IH in H.
  destruct (observe_frame w (n, k)) as (A & _ & C & _).
  destruct H as [H|(m & Hin & Hq)].
  - unfold observe in H. cbn [fst snd] in H.
    destruct (isPhraseLowQuality w k) eqn:E; [left; exact H|].
    unfold track in H. cbn [ngramFrequencies with_table] in H.
    apply in_keys_map_set in H. destruct H as [H| ->]; [left; exact H|].
    right. exists n. split; [left; reflexivity|exact E].
  - right. exists m. split; [right; exact Hin|].
    now rewrite (isPhraseLowQuality_frame w) in Hq.
Qed.

Lemma in_keys_map_delete {V} (g k : string) (m : list (string * V)) :
  In g (keys (map_delete k m)) -> In g (keys m).
Proof.
  unfold keys. induction m as [|[k' v'] m IH]; cbn; auto.
  destruct (String.eqb k' k); cbn; tauto.
Qed.

Lemma prune_keys (es : list (string * NgramData)) (w : Watcher) (K : list string) :
  incl (keys es) K -> incl (keys (ngramFrequencies w)) K ->
  incl (keys (ngramFrequencies (fold_left prune_entry es w))) K.
Proof.
  revert w. induction es as [|[k d] es IH]; intros w He Hw; [exact Hw|].
  cbn [fold_left]. apply IH.
  - intros x Hx. apply He. right. exact Hx.
  - unfold prune_entry.
    destruct (stale w d); [destruct (PrimFloat.ltb _ _)|]; auto;
      cbn [ngramFrequencies with_table]; intros x Hx.
    + apply Hw. eapply in_keys_map_delete. exact Hx.
    + apply in_keys_map_set in Hx. destruct Hx as [Hx| ->]; [now apply Hw|].
      apply He. left. reflexivity.
Qed.

Lemma pruneOldNgrams_keys (w : Watcher) (g : string) :
  In g (keys (ngramFrequencies (pruneOldNgrams w))) -> In g (keys (ngramFrequencies w)).
Proof. apply (prune_keys (ngramFrequencies w) w); apply incl_refl. Qed.

Lemma fold_prune_frame (es : list (string * NgramData)) (w : Watcher) :
  settings (fold_left prune_entry es w) = settings w /\
  totalMessagesProcessed (fold_left prune_entry es w) = totalMessagesProcessed w /\
  whitelist (fold_left prune_entry es w) = whitelist w /\
  enabled (fold_left prune_entry es w) = enabled w.
Proof.
  revert w. induction es as [|e es IH]; intros w; cbn [fold_left]; auto.
  destruct (IH (prune_entry w e)) as (A & B & C & D).
  destruct (prune_entry_frame w e) as (A' & B' & C' & D').
  repeat split; congruence.
Qed.

(** Observing a text changes neither the configuration nor the stop words. *)
Lemma analyzeMessage_frame (w : Watcher) (text : option string) :
  settings (analyzeMessage w text) = settings w /\
  whitelist (analyzeMessage w text) = whitelist w /\
  enabled (analyzeMessage w text) = enabled w.
Proof.
  destruct (observes w text) eqn:E.
  - rewrite analyzeMessage_observes by assumption.
    destruct (fold_observe_frame (occurrences w text) w) as (A & _ & C & D).
    assert (H : settings (after_loops w text) = settings w /\
                whitelist (after_loops w text) = whitelist w /\
                enabled (after_loops w text) = enabled w) by (unfold after_loops; auto).
    destruct (prune_due _); [|exact H].
    destruct (fold_prune_frame (ngramFrequencies (after_loops w text))
                (after_loops w text)) as (A' & _ & C' & D').
    unfold pruneOldNgrams. destruct H as (X & Y & Z). repeat split; congruence.
  - rewrite analyzeMessage_skips by assumption. auto.
Qed.

(** *** Sorting *)

Lemma sort_insert_perm {A} (cmp : A -> A -> float) (x : A) (l : list A) :
  Permutation (sort_insert cmp x l) (x :: l).
Proof.
  induction l as [|y l IH]; cbn; [reflexivity|].
  destruct (PrimFloat.ltb 0 (cmp x y)); [|reflexivity].
  rewrite IH. apply perm_swap.
Qed.

Lemma js_sort_perm {A} (cmp : A -> A -> float) (l : list A) :
  Permutation (js_sort cmp l) l.
Proof.
  induction l as [|x l IH]; cbn; [reflexivity|].
  rewrite sort_insert_perm. now constructor.
Qed.

Lemma comparable_facts (scores : list float) (a b : float) :
  comparable scores = true -> In a scores -> In b scores ->
  ((0 <? b - a)%float = (a <? b)%float) /\
  ((a <? b)%float = true -> (a <=? b)%float = true) /\
  ((a <? b)%float = false -> (b <=? a)%float = true) /\
  (forall c, In c scores -> (b <=? a)%float = true -> (c <=? b)%float = true ->
             (c <=? a)%float = true).
Proof.
  intros H Ha Hb. unfold comparable in H.
  rewrite forallb_forall in H. specialize (H a Ha).
  rewrite forallb_forall in H. specialize (H b Hb).
  apply andb_prop in H. destruct H as [H Ht].
  apply andb_prop in H. destruct H as [H Htot].
  apply andb_prop in H. destruct H as [Hs Hi].
  repeat split.
  - now apply Bool.eqb_prop.
  - intros E. now rewrite E in Hi.
  - intros E. now rewrite E in Htot.
  - intros c Hc E1 E2. rewrite forallb_forall in Ht. specialize (Ht c Hc).
    now rewrite E1, E2 in Ht.
Qed.

Lemma sort_insert_sorted (scores : list float) (x : OverusedPhrase)
    (l : list OverusedPhrase) :
  comparable scores = true ->
  In (p_score x) scores -> Forall (fun y => In (p_score y) scores) l ->
  StronglySorted score_desc l ->
  StronglySorted score_desc (sort_insert compareFn x l).
Proof.
  intros Hc Hx Hl Hs. induction Hs as [|y l Hs IH Hy]; cbn.
  - constructor; constructor.
  - inversion Hl as [|? ? Hyin Hl']; subst.
    destruct (comparable_facts scores (p_score x) (p_score y) Hc Hx Hyin)
      as (Sg & Lt & Ge & Tr).
    unfold compareFn at 1. rewrite Sg.
    destruct (PrimFloat.ltb (p_score x) (p_score y)) eqn:E.
    + constructor; [now apply IH|].
      rewrite Forall_forall. intros z Hz.
      apply (Permutation_in _ (sort_insert_perm compareFn x l)) in Hz.
      destruct Hz as [<-|Hz]; [now apply Lt|].
      rewrite Forall_forall in Hy. now apply Hy.
    + constructor; [now constructor|].
      constructor; [now apply Ge|].
      rewrite Forall_forall in *. intros z Hz.
      apply (Tr (p_score z)); [now apply Hl'|now apply Ge|now apply Hy].
Qed.

Lemma js_sort_sorted (scores : list float) (l : list OverusedPhrase) :
  comparable scores = true ->
  Forall (fun y => In (p_score y) scores) l ->
  StronglySorted score_desc (js_sort compareFn l).
Proof.
  intros Hc Hl. induction Hl as [|x l Hx Hl IH]; cbn; [constructor|].
  apply (sort_insert_sorted scores); auto.
  rewrite Forall_forall in *. intros y Hy. apply Hl.
  now apply (Permutation_in _ (js_sort_perm compareFn l)).
Qed.

(** *** Batch analysis *)

Lemma slice_last_pos {A} (k : nat) (l : list A) :
  0 < k -> Js.slice_last k l = skipn (List.length l - k) l.
Proof.
  intros H. unfold Js.slice_last. destruct (k =? 0) eqn:E; [|reflexivity].
  apply Nat.eqb_eq in E. lia.
Qed.

Lemma filter_filter_weaker {A} (f g : A -> bool) (l : list A) :
  (forall x, g x = true -> f x = true) ->
  filter g (filter f l) = filter g l.
Proof.
  intros H. induction l as [|x l IH]; cbn; [reflexivity|].
  destruct (f x) eqn:Ef; cbn.
  - now rewrite IH.
  - destruct (g x) eqn:Eg; [|exact IH]. rewrite (H x Eg) in Ef. discriminate.
Qed.

End WatcherFacts.

(* ================================================================== *)
(** ** The Passive Watcher: observation, pruning, queries *)

Module WatcherSpec.
Import RegExp PassiveWatcher Props Samples WatcherFacts.

Local Open Scope float_scope.
Local Open Scope nat_scope.

(** C10.  Observing a text that is null, empty, or empty once the markup is
    stripped leaves the whole state of the watcher as it was: the table, the
    slop candidates and the message counter are untouched, and no pruning
    runs. *)
Theorem analyzeMessage_empty_text (w : Watcher) (text : option string) :
  text = None \/ text = Some EmptyString \/ stripMarkup text = EmptyString ->
  analyzeMessage w text = w.
Proof.
  intros H. apply analyzeMessage_skips. unfold observes.
  destruct text as [t|]; [|reflexivity].
  destruct H as [H|[H|H]]; [discriminate| |].
  - injection H as ->. reflexivity.
  - rewrite H. cbn. now rewrite andb_false_r.
Qed.

Lemma analyzeMessage_empty_text_witness :
  stripMarkup (Some "<br> <i></i>") = EmptyString /\
  analyzeMessage seasoned (Some "<br> <i></i>") = seasoned.
Proof.
  split; [reflexivity|].
  apply (analyzeMessage_empty_text seasoned (Some "<br> <i></i>")).
  right; right; reflexivity.
Defined.

(** C1.  For an observed text and an n-gram that survives the quality filter
    and occurs in the text at the window sizes [ns] (each between ngramMin
    and ngramMax), the record of the n-gram after the call is its record
    before the call with one update per occurrence: occurrenceCount plus 1,
    score plus 1.0 + (n - ngramMin) * 0.2 + (number of its tokens that are no
    stop words) * 0.5, and lastSeen set to the message counter of the call. *)
Theorem observed_ngram_record (w : Watcher) (text : option string)
    (g : string) (ns : list nat) :
  distinct_keys w ->
  observes w text = true ->
  isPhraseLowQuality w g = false ->
  sizes_of g (occurrences w text) = ns ->
  ns <> [] ->
  Forall (fun n => ngramMin (settings w) <= n <= ngramMax (settings w)) ns /\
  map_get g (ngramFrequencies (analyzeMessage w text))
    = Some (fold_left (bump w g) ns (currentData w g)) /\
  (forall n, ns = [n] ->
     map_get g (ngramFrequencies (analyzeMessage w text))
     = Some {| count := count (currentData w g) + 1;
               score := score (currentData w g)
                        + ((1.0 + of_nat (n - ngramMin (settings w)) * 0.2)
                           + of_nat (List.length (nonstop_tokens w g)) * 0.5);
               lastSeen := totalMessagesProcessed w |}).
Proof.
  intros Hd Ho Hq Hns Hne.
  assert (Hrange : Forall (fun n => ngramMin (settings w) <= n <= ngramMax (settings w)) ns).
  { subst ns. unfold sizes_of. apply Forall_forall. intros n Hn.
    rewrite in_map_iff in Hn. destruct Hn as ([n' k] & <- & Hin).
    apply filter_In in Hin. destruct Hin as [Hin _].
    apply window_sizes_range. eapply in_message_ngrams_size. exact Hin. }
  assert (Hloops : map_get g (ngramFrequencies (after_loops w text))
                   = Some (fold_left (bump w g) ns (currentData w g))).
  { unfold after_loops. cbn [ngramFrequencies with_counter].
    rewrite fold_observe_get by assumption. rewrite Hns.
    destruct ns; [congruence|reflexivity]. }
  assert (Hget : map_get g (ngramFrequencies (analyzeMessage w text))
                 = Some (fold_left (bump w g) ns (currentData w g))).
  { rewrite analyzeMessage_observes by assumption.
    destruct (prune_due (after_loops w text)) eqn:Ep; [|exact Hloops].
    pose proof (distinct_after_loops w text Hd) as Hd'.
    rewrite pruneOldNgrams_table by assumption.
    rewrite (map_get_pruned _ _ g (fold_left (bump w g) ns (currentData w g)));
      [|exact Hd'|now apply map_get_In].
    unfold pruned_entry. cbn [fst snd].
    rewrite fresh_not_stale; [|now apply fold_bump_last|exact Ep].
    simpl. now rewrite String.eqb_refl. }
  split; [exact Hrange|]. split; [exact Hget|].
  intros n ->. rewrite Hget. reflexivity.
Qed.

Lemma observed_ngram_record_witness :
  map_get "his heart pounded" (ngramFrequencies (analyzeMessage fresh heart_text))
  = Some {| count := 1; score := 2.0; lastSeen := 0 |}.
Proof.
  assert (Hd : distinct_keys fresh) by apply distinct_create.
  assert (Ho : observes fresh heart_text = true) by reflexivity.
  assert (Hq : isPhraseLowQuality fresh "his heart pounded" = false) by reflexivity.
  assert (Hs : sizes_of "his heart pounded" (occurrences fresh heart_text) = [3])
    by reflexivity.
  assert (Hne : [3] <> []) by discriminate.
  destruct (observed_ngram_record fresh heart_text "his heart pounded" [3]
              Hd Ho Hq Hs Hne) as (_ & _ & H).
  rewrite (H 3 eq_refl). reflexivity.
Defined.

(** C2.  When pruning runs, a tracked record whose age (message counter
    minus lastSeen) is strictly greater than pruningCycle is deleted if its
    score is below the threshold and otherwise keeps its place with its score
    multiplied by 0.9; a record whose age is at most pruningCycle is left as
    it is; no record appears.  A processed message is followed by pruning
    exactly when the advanced counter is a multiple of pruningCycle. *)
Theorem pruning_deletes_or_decays (w : Watcher) :
  distinct_keys w ->
  (forall k d, In (k, d) (ngramFrequencies w) ->
     map_get k (ngramFrequencies (pruneOldNgrams w)) =
     if (Z.of_nat (totalMessagesProcessed w) - Z.of_nat (lastSeen d)
         >? Z.of_nat (pruningCycle (settings w)))%Z
     then if (score d <? slopThreshold (settings w))%float then None
          else Some {| count := count d; score := score d * 0.9;
                       lastSeen := lastSeen d |}
     else Some d) /\
  ngramFrequencies (pruneOldNgrams w)
    = flat_map (pruned_entry w) (ngramFrequencies w) /\
  (forall k, In k (keys (ngramFrequencies (pruneOldNgrams w))) ->
             In k (keys (ngramFrequencies w))) /\
  (forall text, 0 < pruningCycle (settings w) -> observes w text = true ->
     analyzeMessage w text =
     if (totalMessagesProcessed w + 1) mod pruningCycle (settings w) =? 0
     then pruneOldNgrams (after_loops w text) else after_loops w text).
Proof.
  intros Hd. repeat split.
  - intros k d Hin. rewrite pruneOldNgrams_table by assumption.
    rewrite (map_get_pruned w _ k d) by assumption.
    unfold pruned_entry, stale, age. cbn [fst snd].
    destruct (_ >? _)%Z; [destruct (PrimFloat.ltb (score d) _)|]; cbn [map_get];
      rewrite ?String.eqb_refl; reflexivity.
  - now apply pruneOldNgrams_table.
  - apply pruneOldNgrams_keys.
  - intros text Hc Ho. rewrite analyzeMessage_observes by assumption.
    rewrite prune_due_after_loops.
    destruct (pruningCycle (settings w) =? 0) eqn:E; [|reflexivity].
    apply Nat.eqb_eq in E. lia.
Qed.

Lemma pruning_deletes_or_decays_witness :
  map_get "his heart pounded" (ngramFrequencies (pruneOldNgrams aged))
    = Some {| count := 3; score := 6.0 * 0.9; lastSeen := 0 |} /\
  map_get "her cheeks flushed" (ngramFrequencies (pruneOldNgrams aged)) = None /\
  map_get "the rain fell" (ngramFrequencies (pruneOldNgrams aged))
    = Some {| count := 2; score := 4.0; lastSeen := 2 |} /\
  analyzeMessage aged (Some "The rain fell softly.")
    = pruneOldNgrams (after_loops aged (Some "The rain fell softly.")).
Proof.
  assert (Hd : distinct_keys aged).
  { apply distinct_fold_analyzeMessage, distinct_create. }
  destruct (pruning_deletes_or_decays aged Hd) as (H & _ & _ & Hrun).
  assert (Hpos : 0 < pruningCycle (settings aged)) by (vm_compute; lia).
  assert (Hobs : observes aged (Some "The rain fell softly.") = true)
    by (vm_compute; reflexivity).
  assert (Hdue : ((totalMessagesProcessed aged + 1) mod pruningCycle (settings aged) =? 0)
                 = true) by (vm_compute; reflexivity).
  specialize (Hrun _ Hpos Hobs). rewrite Hdue in Hrun.
  split; [|split; [|split; [|exact Hrun]]].
  - rewrite (H _ {| count := 3; score := 6.0; lastSeen := 0 |}); [reflexivity|].
    vm_compute. tauto.
  - rewrite (H _ {| count := 1; score := 2.0; lastSeen := 0 |}); [reflexivity|].
    vm_compute. tauto.
  - rewrite (H _ {| count := 2; score := 4.0; lastSeen := 2 |}); [reflexivity|].
    vm_compute. tauto.
Defined.

(** C3, as the code has it.  Called without a minimum score, the query uses
    the fixed cut-off 5.0 (the default value of the threshold, whatever the
    watcher is configured with).  For any minimum score it returns exactly the
    tracked records whose score is at or above it, as projections to phrase,
    score and occurrence count, and, the scores being comparable numbers, in
    the order of descending score. *)
Theorem overused_phrases_query (w : Watcher) (minScore : float) :
  comparable (table_scores w) = true ->
  getOverusedPhrases w None = getOverusedPhrases w (Some 5.0%float) /\
  Permutation (getOverusedPhrases w (Some minScore))
    (map project (filter (fun e => (minScore <=? score (snd e))%float)
                         (ngramFrequencies w))) /\
  (forall p, In p (getOverusedPhrases w (Some minScore)) <->
     exists k d, In (k, d) (ngramFrequencies w) /\
                 (minScore <=? score d)%float = true /\
                 p = {| phrase := k; p_score := score d; p_count := count d |}) /\
  StronglySorted score_desc (getOverusedPhrases w (Some minScore)).
Proof.
  intros Hc. split; [reflexivity|].
  assert (Hp : Permutation (getOverusedPhrases w (Some minScore))
                 (map project (filter (fun e => (minScore <=? score (snd e))%float)
                                      (ngramFrequencies w))))
    by apply js_sort_perm.
  split; [exact Hp|]. split.
  - intros p. split.
    + intros Hin. apply (Permutation_in _ Hp) in Hin.
      rewrite in_map_iff in Hin. destruct Hin as ([k d] & <- & Hin).
      apply filter_In in Hin. destruct Hin as [Hin Hm].
      exists k, d. auto.
    + intros (k & d & Hin & Hm & ->).
      apply (Permutation_in _ (Permutation_sym Hp)).
      rewrite in_map_iff. exists (k, d). split; [reflexivity|].
      apply filter_In. auto.
  - unfold getOverusedPhrases. apply (js_sort_sorted (table_scores w)); [exact Hc|].
    rewrite Forall_forall. intros p Hin.
    rewrite in_map_iff in Hin. destruct Hin as (e & <- & Hin).
    apply filter_In in Hin. destruct Hin as [Hin _].
    unfold table_scores. cbn [project p_score].
    rewrite in_map_iff. exists e. auto.
Qed.

Lemma overused_phrases_query_witness :
  comparable (table_scores seasoned) = true /\
  StronglySorted score_desc (getOverusedPhrases seasoned (Some 2.5%float)) /\
  getOverusedPhrases seasoned None = getOverusedPhrases seasoned (Some 5.0%float).
Proof.
  assert (Hc : comparable (table_scores seasoned) = true) by reflexivity.
  split; [exact Hc|].
  destruct (overused_phrases_query seasoned 2.5%float Hc) as (H0 & _ & _ & Hs).
  split; [exact Hs|exact H0].
Defined.

(** C3 as stated fails: with a threshold of 3 configured and a phrase scored
    4, the query without argument does not fall back on the configured
    threshold; it leaves the phrase out. *)
Lemma default_cutoff_ignores_threshold :
  slopThreshold (settings lenient) = 3.0%float /\
  getOverusedPhrases lenient (Some (slopThreshold (settings lenient)))
    = [{| phrase := "his heart pounded"; p_score := 4.0; p_count := 2 |}] /\
  getOverusedPhrases lenient None = [] /\
  getOverusedPhrases lenient None
    <> getOverusedPhrases lenient (Some (slopThreshold (settings lenient))).
Proof.
  split; [reflexivity|]. split; [reflexivity|]. split; [reflexivity|].
  intros H. vm_compute in H. discriminate H.
Qed.

(** C4, as the code has it.  The batch analysis resets the watcher and then
    observes the last messagesToAnalyze of the messages that are not written
    by the user and have a non-empty text, in order; the user's messages are
    filtered out by the watcher itself and never influence the result. *)
Theorem batch_observes_recent_ai_messages (w : Watcher) (messages : list Message) :
  0 < messagesToAnalyze (settings w) ->
  let ai := filter (fun m => negb (is_user m) && has_text m) messages in
  let recent := skipn (List.length ai - messagesToAnalyze (settings w)) ai in
  fst (analyzeChatHistory w messages) = observe_all (reset w) recent /\
  analyzed (snd (analyzeChatHistory w messages)) = List.length recent /\
  List.length recent = Nat.min (messagesToAnalyze (settings w)) (List.length ai) /\
  Forall (fun m => is_user m = false /\ has_text m = true) recent /\
  analyzeChatHistory w messages
    = analyzeChatHistory w (filter (fun m => negb (is_user m)) messages).
Proof.
  intros Hn ai recent.
  assert (Hr : recentMessages w messages = recent).
  { unfold recentMessages, aiMessages. now rewrite slice_last_pos. }
  unfold analyzeChatHistory. rewrite Hr. cbn [fst snd analyzed].
  split; [reflexivity|]. split; [reflexivity|]. split; [|split].
  - unfold recent. rewrite length_skipn. lia.
  - unfold recent. apply JsFacts.Forall_skipn. unfold ai.
    rewrite Forall_forall. intros m Hm. apply filter_In in Hm.
    destruct Hm as [_ Hm]. apply andb_prop in Hm. destruct Hm as [Hu Ht].
    now apply negb_true_iff in Hu.
  - assert (Hr' : recentMessages w (filter (fun m => negb (is_user m)) messages) = recent).
    { rewrite <- Hr. unfold recentMessages, aiMessages. f_equal.
      apply filter_filter_weaker. intros m Hm.
      apply andb_prop in Hm. tauto. }
    now rewrite Hr'.
Qed.

Lemma batch_observes_recent_ai_messages_witness :
  0 < messagesToAnalyze (settings fresh) /\
  fst (analyzeChatHistory fresh mixed_chat)
  = observe_all (reset fresh)
      [{| is_user := false; mes := Some "His heart pounded." |};
       {| is_user := false; mes := Some "His heart pounded again." |}].
Proof.
  assert (Hn : 0 < messagesToAnalyze (settings fresh)) by (cbn; lia).
  split; [exact Hn|].
  destruct (batch_observes_recent_ai_messages fresh mixed_chat Hn) as (H & _).
  exact H.
Defined.

(** C4 as stated fails: a message written by the user, with a non-empty
    text, is not observed by the batch analysis. *)
Lemma batch_skips_user_messages :
  recent_texts_any_speaker fresh user_chat = user_chat /\
  fst (analyzeChatHistory fresh user_chat) = reset fresh /\
  fst (analyzeChatHistory fresh user_chat)
    <> observe_all (reset fresh) (recent_texts_any_speaker fresh user_chat).
Proof.
  split; [reflexivity|]. split; [reflexivity|].
  intros H. apply (f_equal totalMessagesProcessed) in H.
  vm_compute in H. discriminate H.
Qed.

End WatcherSpec.

(* ================================================================== *)
(** ** The Static Fixer: replacement and capitalisation *)

Module FixerFacts.
Import RegExp StaticFixer.

Lemma substring_all (s : string) : substring 0 (String.length s) s = s.
Proof. induction s as [|c s IH]; cbn; [reflexivity|]. now rewrite IH. Qed.








Lemma enabledRules_app (en : bool) (l1 l2 : list Rule) :
  enabledRules {| rules := l1 ++ l2; enabled := en |}
  = enabledRules {| rules := l1; enabled := en |}
    ++ enabledRules {| rules := l2; enabled := en |}.
Proof. unfold enabledRules. cbn [rules]. apply filter_app. Qed.

End FixerFacts.

Module FixerSpec.
Import RegExp StaticFixer Samples FixerFacts.

(** C6, as the code has it.  A rule whose replace string contains the
    opening of a random list but does not parse as one is passed over:
    [applyReplacements] neither fails nor substitutes anything for it, the
    matches of the rule stay as they are, and the other rules are applied as
    if the rule were not in the list. *)
Theorem malformed_random_rule_is_skipped (rnd : oracle) (rule : Rule) :
  Js.includes "{{random:" (replaceString rule) = true ->
  parse_options (replaceString rule) = None ->
  (forall acc, applyRule rnd acc rule = acc) /\
  (forall (before after : list Rule) (en : bool) (text : string),
     applyReplacements {| rules := before ++ rule :: after; enabled := en |} rnd text
     = applyReplacements {| rules := before ++ after; enabled := en |} rnd text).
Proof.
  intros Hinc Hopt.
  assert (Hskip : forall acc, applyRule rnd acc rule = acc).
  { intros [text k]. unfold applyRule. rewrite Hinc, Hopt.
    now destruct (findRegex rule). }
  split; [exact Hskip|].
  intros l1 l2 en text. unfold applyReplacements. cbn [enabled].
  destruct (negb (Js.truthy text) || negb en); [reflexivity|].
  rewrite !enabledRules_app, !fold_left_app. f_equal.
  unfold enabledRules. cbn [rules filter].
  destruct (negb (disabled rule) && isStatic rule); [|reflexivity].
  cbn [fold_left]. now rewrite Hskip.
Qed.

Lemma malformed_random_rule_is_skipped_witness :
  parse_options (replaceString unclosed_rule) = None /\
  applyReplacements {| rules := [unclosed_rule; heart_rule]; enabled := true |}
    (fun _ => 0) heart_sentence
  = applyReplacements heart_fixer (fun _ => 0) heart_sentence.
Proof.
  split; [reflexivity|].
  destruct (malformed_random_rule_is_skipped (fun _ => 0) unclosed_rule
              eq_refl eq_refl) as [_ H].
  exact (H [] [heart_rule] true heart_sentence).
Defined.

(** C6 as stated fails: the text keeps the phrase that the rule matches; the
    raw replace string is not put in its place. *)
Lemma malformed_random_rule_leaves_matches :
  Js.includes "{{random:" (replaceString unclosed_rule) = true /\
  parse_options (replaceString unclosed_rule) = None /\
  replace_str fl_gi (Seq WordB (Seq (lit "heart pounded") WordB))
    (replaceString unclosed_rule) heart_sentence
    = "His {{random:pulse quickened,chest tightened." /\
  applyReplacements unclosed_fixer (fun _ => 0) heart_sentence = "His heart pounded." /\
  applyReplacements unclosed_fixer (fun _ => 0) heart_sentence
    <> replace_str fl_gi (Seq WordB (Seq (lit "heart pounded") WordB))
         (replaceString unclosed_rule) heart_sentence.
Proof.
  split; [reflexivity|]. split; [reflexivity|]. split; [reflexivity|].
  split; [reflexivity|]. intros H. vm_compute in H. discriminate H.
Qed.

(** C7.  The code at inputs with several tags in a row, and with a sentence
    end inside a tag: of the tags before the first letter and of the tags
    after a sentence end only the last one comes back, and the inside of a
    tag is capitalised like prose. *)
Theorem fixCapitalization_loses_tags :
  fixCapitalization "<b><i>hello</i></b>" = "<i>Hello</i></b>" /\
  fixCapitalization "Stop.<b><i> go" = "Stop.<i> Go" /\
  fixCapitalization "<a title='x. y'>" = "<a title='x. Y'>".
Proof. repeat split. Qed.

(** C8.  The code at an input where a tag that holds a sentence end follows
    a sentence end: the second application capitalises inside the tag, which
    the first one stepped over. *)
Theorem fixCapitalization_twice_differs :
  fixCapitalization "Wait. <i class='x. y'> fine" = "Wait. <i class='x. y'> Fine" /\
  fixCapitalization (fixCapitalization "Wait. <i class='x. y'> fine")
    = "Wait. <i class='x. Y'> Fine" /\
  fixCapitalization (fixCapitalization "Wait. <i class='x. y'> fine")
    <> fixCapitalization "Wait. <i class='x. y'> fine".
Proof.
  split; [reflexivity|]. split; [reflexivity|].
  intros H. vm_compute in H. discriminate H.
Qed.

End FixerSpec.

(* ================================================================== *)
(** ** The Passive Watcher: invariants, counters, pruning cadence *)

Module WatcherMoreFacts.
Import RegExp PassiveWatcher Props Samples WatcherFacts Coverage.

Lemma in_map_set {V} (k g : string) (v d : V) (m : list (string * V)) :
  In (k, d) (map_set g v m) -> (k = g /\ d = v) \/ In (k, d) m.
Proof.
  induction m as [|[k0 v0] m IH]; cbn.
  - intros [[= <- <-]|[]]. now left.
  - destruct (String.eqb k0 g) eqn:E; cbn.
    + apply String.eqb_eq in E. subst k0.
      intros [[= <- <-]|H]; [now left|right; now right].
    + intros [H|H]; [right; now left|].
      destruct (IH H) as [?|?]; [now left|right; now right].
Qed.

Lemma in_map_delete {V} (k g : string) (d : V) (m : list (string * V)) :
  In (k, d) (map_delete g m) -> In (k, d) m.
Proof.
  induction m as [|[k0 v0] m IH]; cbn; auto.
  destruct (String.eqb k0 g); cbn; tauto.
Qed.

Lemma keys_map_delete_in {V} (x g : string) (m : list (string * V)) :
  In x (keys m) -> x <> g -> In x (keys (map_delete g m)).
Proof.
  unfold keys. induction m as [|[k0 v0] m IH]; cbn; auto.
  intros [->|H] Hne.
  - destruct (String.eqb x g) eqn:E; [apply String.eqb_eq in E; contradiction|].
    now left.
  - destruct (String.eqb k0 g); [|right]; auto.
Qed.

Lemma NoDup_set_add (k : string) (s : list string) :
  NoDup s -> NoDup (set_add k s).
Proof.
  intros H. unfold set_add. destruct (set_has k s) eqn:E; [exact H|].
  apply NoDup_app; auto.
  - constructor; [intros []|constructor].
  - intros x Hx [<-|[]]. apply set_has_In in Hx. congruence.
Qed.

Lemma in_set_add (x k : string) (s : list string) :
  In x (set_add k s) -> In x s \/ x = k.
Proof.
  unfold set_add. destruct (set_has k s); [now left|].
  rewrite in_app_iff. cbn. intros [?|[?|[]]]; auto.
Qed.

Lemma in_set_delete (x k : string) (s : list string) :
  In x (set_delete k s) -> In x s /\ x <> k.
Proof.
  unfold set_delete. rewrite filter_In. intros [H E]. split; [exact H|].
  intros ->. now rewrite String.eqb_refl in E.
Qed.

Lemma loop_formed_track (w : Watcher) (n : nat) (g : string) :
  loop_formed w -> loop_formed (track w n g).
Proof.
  intros (Hk & Hc & Hi & Hr). unfold loop_formed, track.
  cbn [ngramFrequencies slopCandidates totalMessagesProcessed with_table].
  split; [now apply NoDup_map_set|]. split; [|split].
  - destruct (_ && _); [now apply NoDup_set_add|exact Hc].
  - intros x Hx. apply in_keys_map_set.
    destruct (_ && _); [apply in_set_add in Hx; destruct Hx; auto|].
    left. now apply Hi.
  - intros k d Hin. apply in_map_set in Hin. destruct Hin as [[-> ->]|Hin].
    + cbn. split; lia.
    + now apply (Hr k d).
Qed.

Lemma loop_formed_fold (occs : list (nat * string)) (w : Watcher) :
  loop_formed w -> loop_formed (fold_left observe occs w).
Proof.
  revert w. induction occs as [|o occs IH]; intros w H; [exact H|].
  cbn [fold_left]. apply IH. unfold observe.
  destruct (isPhraseLowQuality w (snd o)); [exact H|].
  now apply loop_formed_track.
Qed.

Lemma well_formed_loop (w : Watcher) : well_formed w -> loop_formed w.
Proof.
  intros (Hk & Hc & Hi & Hr). repeat split; auto; destruct (Hr k d H); lia.
Qed.

Lemma well_formed_after_loops (w : Watcher) (text : option string) :
  well_formed w -> well_formed (after_loops w text).
Proof.
  intros H. apply well_formed_loop in H.
  apply (loop_formed_fold (occurrences w text)) in H.
  destruct H as (Hk & Hc & Hi & Hr). unfold after_loops, well_formed.
  cbn [ngramFrequencies slopCandidates totalMessagesProcessed with_counter].
  repeat split; auto; destruct (Hr k d H); lia.
Qed.

(** Pruning keeps what holds of the candidates and of the records. *)
Lemma prune_fold_formed (T : nat) (es : list (string * NgramData)) (w : Watcher) :
  (forall k d, In (k, d) es -> 1 <= count d /\ lastSeen d < T) ->
  NoDup (slopCandidates w) ->
  incl (slopCandidates w) (keys (ngramFrequencies w)) ->
  (forall k d, In (k, d) (ngramFrequencies w) -> 1 <= count d /\ lastSeen d < T) ->
  let w' := fold_left prune_entry es w in
  NoDup (slopCandidates w') /\
  incl (slopCandidates w') (keys (ngramFrequencies w')) /\
  (forall k d, In (k, d) (ngramFrequencies w') -> 1 <= count d /\ lastSeen d < T).
Proof.
  revert w. induction es as [|[k0 d0] es IH]; intros w He Hc Hi Hr; [cbn; auto|].
  cbn [fold_left]. apply IH.
  - intros k d Hin. apply (He k d). now right.
  - unfold prune_entry. destruct (stale w d0); [destruct (PrimFloat.ltb _ _)|]; auto.
    cbn [slopCandidates with_table]. unfold set_delete. now apply NoDup_filter.
  - unfold prune_entry. destruct (stale w d0); [destruct (PrimFloat.ltb _ _)|]; auto;
      cbn [slopCandidates ngramFrequencies with_table]; intros x Hx.
    + apply in_set_delete in Hx. destruct Hx as [Hx Hne].
      apply keys_map_delete_in; auto.
    + apply in_keys_map_set. left. now apply Hi.
  - unfold prune_entry. destruct (stale w d0); [destruct (PrimFloat.ltb _ _)|]; auto;
      cbn [ngramFrequencies with_table]; intros k d Hin.
    + apply in_map_delete in Hin. now apply (Hr k d).
    + apply in_map_set in Hin. destruct Hin as [[-> ->]|Hin]; [|now apply (Hr k d)].
      cbn [count lastSeen decayed]. apply (He k0 d0). now left.
Qed.

Lemma well_formed_prune (w : Watcher) :
  well_formed w -> well_formed (pruneOldNgrams w).
Proof.
  intros (Hk & Hc & Hi & Hr).
  destruct (prune_fold_formed (totalMessagesProcessed w) (ngramFrequencies w) w
              Hr Hc Hi Hr) as (A & B & C).
  destruct (fold_prune_frame (ngramFrequencies w) w) as (_ & T & _).
  unfold well_formed. fold (pruneOldNgrams w) in *.
  split; [now apply distinct_pruneOldNgrams|]. split; [exact A|]. split; [exact B|].
  rewrite T. exact C.
Qed.

Lemma well_formed_analyzeMessage (w : Watcher) (text : option string) :
  well_formed w -> well_formed (analyzeMessage w text).
Proof.
  intros H. destruct (observes w text) eqn:E.
  - rewrite analyzeMessage_observes by assumption.
    destruct (prune_due _).
    + now apply well_formed_prune, well_formed_after_loops.
    + now apply well_formed_after_loops.
  - now rewrite analyzeMessage_skips.
Qed.

Lemma well_formed_empty (w : Watcher) :
  ngramFrequencies w = [] -> slopCandidates w = [] -> well_formed w.
Proof.
  intros A B. unfold well_formed. rewrite A, B.
  repeat split; try constructor; try (intros ? []). destruct H. destruct H.
Qed.

Lemma well_formed_observe_all (msgs : list Message) (w : Watcher) :
  well_formed w -> well_formed (observe_all w msgs).
Proof.
  unfold observe_all. revert w. induction msgs as [|m msgs IH]; intros w H; [exact H|].
  cbn [fold_left]. apply IH. now apply well_formed_analyzeMessage.
Qed.

(** *** Counting *)

Lemma observes_frame (w w' : Watcher) (text : option string) :
  enabled w' = enabled w -> observes w' text = observes w text.
Proof. intros E. unfold observes. now rewrite E. Qed.

Lemma analyzeMessage_counter (w : Watcher) (text : option string) :
  totalMessagesProcessed (analyzeMessage w text)
  = totalMessagesProcessed w + (if observes w text then 1 else 0).
Proof.
  destruct (observes w text) eqn:E.
  - rewrite analyzeMessage_observes by assumption.
    destruct (after_loops_frame w text) as (_ & B & _).
    destruct (prune_due _); [|exact B].
    destruct (fold_prune_frame (ngramFrequencies (after_loops w text))
                (after_loops w text)) as (_ & T & _).
    unfold pruneOldNgrams. now rewrite T.
  - rewrite analyzeMessage_skips by assumption. lia.
Qed.

Lemma observe_all_counter (msgs : list Message) (w : Watcher) :
  totalMessagesProcessed (observe_all w msgs)
  = totalMessagesProcessed w
    + List.length (filter (fun m => observes w (mes m)) msgs).
Proof.
  unfold observe_all. revert w. induction msgs as [|m msgs IH]; intros w; cbn; [lia|].
  rewrite IH, analyzeMessage_counter.
  destruct (analyzeMessage_frame w (mes m)) as (_ & _ & E).
  rewrite (filter_ext _ (fun m0 => observes w (mes m0)))
    by (intros a; now apply observes_frame).
  destruct (observes w (mes m)); cbn; lia.
Qed.

Lemma observe_all_disabled (msgs : list Message) (w : Watcher) :
  enabled w = false -> observe_all w msgs = w.
Proof.
  intros E. unfold observe_all. induction msgs as [|m msgs IH]; [reflexivity|].
  cbn [fold_left]. rewrite analyzeMessage_skips; [exact IH|].
  unfold observes. destruct (mes m); [|reflexivity].
  rewrite E. now rewrite andb_false_r.
Qed.

(** *** Pruning in the first cycle *)

Lemma prune_fold_noop (es : list (string * NgramData)) (w : Watcher) :
  totalMessagesProcessed w <= pruningCycle (settings w) ->
  fold_left prune_entry es w = w.
Proof.
  intros H. induction es as [|[k d] es IH]; [reflexivity|].
  cbn [fold_left]. replace (prune_entry w (k, d)) with w; [exact IH|].
  unfold prune_entry, stale, age.
  destruct (_ >? _)%Z eqn:E; [|reflexivity].
  apply Z.gtb_lt in E. lia.
Qed.

Lemma analyzeMessage_early (w : Watcher) (text : option string) :
  totalMessagesProcessed w < pruningCycle (settings w) ->
  analyzeMessage w text = observe_only w text.
Proof.
  intros H. unfold observe_only. destruct (observes w text) eqn:E.
  - rewrite analyzeMessage_observes by assumption.
    destruct (prune_due _); [|reflexivity].
    unfold pruneOldNgrams. apply prune_fold_noop.
    destruct (after_loops_frame w text) as (A & B & _). rewrite A, B. lia.
  - now apply analyzeMessage_skips.
Qed.

Lemma observe_only_frame (w : Watcher) (text : option string) :
  settings (observe_only w text) = settings w /\
  totalMessagesProcessed (observe_only w text) <= totalMessagesProcessed w + 1.
Proof.
  unfold observe_only. destruct (observes w text); [|split; [reflexivity|lia]].
  destruct (after_loops_frame w text) as (A & B & _). split; [exact A|lia].
Qed.

Lemma observe_all_early (msgs : list Message) (w : Watcher) :
  totalMessagesProcessed w + List.length msgs <= pruningCycle (settings w) ->
  observe_all w msgs = fold_left (fun w m => observe_only w (mes m)) msgs w.
Proof.
  unfold observe_all. revert w. induction msgs as [|m msgs IH]; intros w H;
    [reflexivity|].
  cbn [fold_left List.length] in *. rewrite analyzeMessage_early by lia.
  apply IH. destruct (observe_only_frame w (mes m)) as (A & B). rewrite A. lia.
Qed.

Lemma fold_observe_keys_grow (occs : list (nat * string)) (w : Watcher) (g : string) :
  In g (keys (ngramFrequencies w)) ->
  In g (keys (ngramFrequencies (fold_left observe occs w))).
Proof.
  revert w. induction occs as [|o occs IH]; intros w H; [exact H|].
  cbn [fold_left]. apply IH. unfold observe.
  destruct (isPhraseLowQuality w (snd o)); [exact H|].
  unfold track. cbn [ngramFrequencies with_table]. apply in_keys_map_set. now left.
Qed.

Lemma observe_only_keys_grow (w : Watcher) (text : option string) (g : string) :
  In g (keys (ngramFrequencies w)) ->
  In g (keys (ngramFrequencies (observe_only w text))).
Proof.
  intros H. unfold observe_only. destruct (observes w text); [|exact H].
  unfold after_loops. cbn [ngramFrequencies with_counter].
  now apply fold_observe_keys_grow.
Qed.

Lemma fold_observe_only_keys_grow (msgs : list Message) (w : Watcher) (g : string) :
  In g (keys (ngramFrequencies w)) ->
  In g (keys (ngramFrequencies
                (fold_left (fun w m => observe_only w (mes m)) msgs w))).
Proof.
  revert w. induction msgs as [|m msgs IH]; intros w H; [exact H|].
  cbn [fold_left]. apply IH. now apply observe_only_keys_grow.
Qed.

(** *** The query on a well-formed table *)

Lemma NoDup_keys_filter {V} (f : string * V -> bool) (m : list (string * V)) :
  NoDup (keys m) -> NoDup (keys (filter f m)).
Proof.
  unfold keys. induction m as [|[k v] m IH]; cbn; [constructor|].
  intros H. inversion H as [|? ? Hn Hd]; subst.
  destruct (f (k, v)); cbn; [|auto]. constructor; [|auto].
  intros Hin. apply Hn. rewrite in_map_iff in *.
  destruct Hin as (x & E & Hx). exists x. split; [exact E|].
  now apply filter_In in Hx.
Qed.

Lemma phrases_of_query (w : Watcher) (minScore : option float) :
  Permutation (map phrase (getOverusedPhrases w minScore))
    (keys (filter (fun e => (match minScore with Some m => m | None => 5.0%float end
                             <=? score (snd e))%float) (ngramFrequencies w))).
Proof.
  unfold getOverusedPhrases. rewrite js_sort_perm.
  unfold keys. rewrite map_map. reflexivity.
Qed.

(** *** Keys and tokens *)

Lemma split_char_chars (p : ascii -> bool) (sep : ascii) (s : string) :
  Js.forall_chars p s = true ->
  Forall (fun t => Js.forall_chars p t = true) (Js.split_char sep s).
Proof.
  induction s as [|c s IH]; intros H; cbn.
  - repeat constructor.
  - cbn in H. apply andb_prop in H. destruct H as [Hc Hs]. specialize (IH Hs).
    destruct (Ascii.eqb c sep).
    + constructor; [reflexivity|exact IH].
    + destruct (Js.split_char sep s) as [|t ts]; [repeat constructor; cbn; now rewrite Hc|].
      inversion IH; subst. constructor; [cbn; now rewrite Hc|assumption].
Qed.

Lemma lower_tokens (phrase : string) (t : string) :
  In t (Js.split_char " " (Js.toLowerCase phrase)) -> Js.toLowerCase t = t.
Proof.
  intros H. apply JsFacts.toLowerCase_id.
  pose proof (split_char_chars lower_fixed " " _ (JsFacts.toLowerCase_fixed phrase)) as F.
  rewrite Forall_forall in F. now apply F.
Qed.

Lemma forallb_ext_in {A} (f g : A -> bool) (l : list A) :
  (forall x, In x l -> f x = g x) -> forallb f l = forallb g l.
Proof.
  induction l as [|x l IH]; intros H; cbn; [reflexivity|].
  rewrite (H x) by now left. rewrite IH; [reflexivity|].
  intros y Hy. apply H. now right.
Qed.

Lemma isPhraseLowQuality_same_lower (w : Watcher) (wl : list string) (phrase : string) :
  same_lower_words wl (whitelist w) ->
  isPhraseLowQuality (with_whitelist w wl) phrase = isPhraseLowQuality w phrase.
Proof.
  intros H. unfold isPhraseLowQuality. cbn [settings whitelist with_whitelist].
  destruct (_ <? _); [reflexivity|].
  rewrite (forallb_ext_in _ (fun word => set_has word (whitelist w))); [reflexivity|].
  intros t Ht. apply H. eapply lower_tokens. exact Ht.
Qed.

Lemma uncommonWordCount_same_lower (w : Watcher) (wl : list string) (g : string) :
  same_lower_words wl (whitelist w) ->
  Js.forall_chars lower_fixed g = true ->
  uncommonWordCount (with_whitelist w wl) g = uncommonWordCount w g.
Proof.
  intros H Hg. rewrite !uncommonWordCount_spec. unfold nonstop_tokens, tokens.
  cbn [whitelist with_whitelist]. f_equal. apply filter_ext_in.
  intros t Ht. f_equal. apply H. apply JsFacts.toLowerCase_id.
  pose proof (split_char_chars lower_fixed " " g Hg) as F.
  rewrite Forall_forall in F. now apply F.
Qed.

Lemma observe_same_lower (w : Watcher) (wl : list string) (o : nat * string) :
  same_lower_words wl (whitelist w) ->
  Js.forall_chars lower_fixed (snd o) = true ->
  observe (with_whitelist w wl) o = with_whitelist (observe w o) wl.
Proof.
  intros H Hg. unfold observe.
  rewrite isPhraseLowQuality_same_lower by assumption.
  destruct (isPhraseLowQuality w (snd o)); [reflexivity|].
  unfold track, scoreIncrement, currentData.
  rewrite uncommonWordCount_same_lower by assumption. reflexivity.
Qed.

Lemma fold_observe_same_lower (wl : list string) (occs : list (nat * string))
    (w : Watcher) :
  same_lower_words wl (whitelist w) ->
  Forall (fun o => Js.forall_chars lower_fixed (snd o) = true) occs ->
  fold_left observe occs (with_whitelist w wl)
  = with_whitelist (fold_left observe occs w) wl.
Proof.
  intros H F. revert w H. induction F as [|o occs Ho F IH]; intros w H; [reflexivity|].
  cbn [fold_left]. rewrite observe_same_lower by assumption.
  apply IH. destruct (observe_frame w o) as (_ & _ & C & _). now rewrite C.
Qed.

Lemma fold_prune_with_whitelist (wl : list string) (es : list (string * NgramData))
    (w : Watcher) :
  fold_left prune_entry es (with_whitelist w wl)
  = with_whitelist (fold_left prune_entry es w) wl.
Proof.
  revert w. induction es as [|[k d] es IH]; intros w; [reflexivity|].
  cbn [fold_left]. rewrite <- IH. f_equal.
  unfold prune_entry, stale, age. cbn [settings totalMessagesProcessed with_whitelist].
  destruct (_ >? _)%Z; [destruct (PrimFloat.ltb _ _)|]; reflexivity.
Qed.

Lemma analyzeMessage_same_lower (w : Watcher) (wl : list string) (text : option string) :
  same_lower_words wl (whitelist w) ->
  analyzeMessage (with_whitelist w wl) text = with_whitelist (analyzeMessage w text) wl.
Proof.
  intros H. destruct (observes w text) eqn:E.
  - assert (E' : observes (with_whitelist w wl) text = true) by exact E.
    rewrite !analyzeMessage_observes by assumption.
    assert (Ha : after_loops (with_whitelist w wl) text
                 = with_whitelist (after_loops w text) wl).
    { unfold after_loops, occurrences. cbn [settings with_whitelist].
      rewrite fold_observe_same_lower; [reflexivity|exact H|].
      rewrite Forall_forall. intros [n g] Hin. cbn [snd].
      eapply message_ngrams_fixed. exact Hin. }
    rewrite Ha.
    change (prune_due (with_whitelist (after_loops w text) wl))
      with (prune_due (after_loops w text)).
    destruct (prune_due _); [|reflexivity].
    unfold pruneOldNgrams. cbn [ngramFrequencies with_whitelist].
    apply fold_prune_with_whitelist.
  - assert (E' : observes (with_whitelist w wl) text = false) by exact E.
    now rewrite !analyzeMessage_skips.
Qed.

(** *** addToWhitelist *)

Lemma set_has_add (x k : string) (s : list string) :
  set_has x (set_add k s) = set_has x s || String.eqb x k.
Proof.
  unfold set_add. destruct (set_has k s) eqn:E.
  - destruct (String.eqb x k) eqn:Ex; [|now rewrite orb_false_r].
    apply String.eqb_eq in Ex. subst x. now rewrite E.
  - unfold set_has. rewrite existsb_app. cbn. now rewrite orb_false_r.
Qed.

Lemma set_has_fold_add (x : string) (words : list string) (s : list string) :
  set_has x (fold_left (fun s word => set_add (Js.toLowerCase word) s) words s)
  = set_has x s || existsb (fun word => String.eqb x (Js.toLowerCase word)) words.
Proof.
  revert s. induction words as [|word words IH]; intros s; cbn [fold_left existsb].
  - now rewrite orb_false_r.
  - rewrite IH, set_has_add. now rewrite orb_assoc.
Qed.

Lemma set_has_delete_other (t u : string) (l : list string) :
  t <> u -> set_has t (set_delete u l) = set_has t l.
Proof.
  intros Hne. unfold set_delete, set_has.
  induction l as [|x l IH]; [reflexivity|].
  cbn [filter existsb]. destruct (String.eqb x u) eqn:E; cbn [negb existsb].
  - apply String.eqb_eq in E. subst x.
    destruct (String.eqb t u) eqn:E'; [|exact IH].
    apply String.eqb_eq in E'. contradiction.
  - now rewrite IH.
Qed.

(** *** Batch analysis forgets the past *)

Lemma reset_same (w w' : Watcher) :
  settings w' = settings w -> whitelist w' = whitelist w -> enabled w' = enabled w ->
  reset w' = reset w.
Proof.
  intros A B C. unfold reset, with_counter, with_table.
  cbn [settings ngramFrequencies slopCandidates totalMessagesProcessed enabled whitelist].
  now rewrite A, B, C.
Qed.

Lemma analyzeChatHistory_same (w w' : Watcher) (msgs : list Message) :
  settings w' = settings w -> whitelist w' = whitelist w -> enabled w' = enabled w ->
  analyzeChatHistory w' msgs = analyzeChatHistory w msgs.
Proof.
  intros A B C. unfold analyzeChatHistory, recentMessages.
  now rewrite (reset_same w w'), A.
Qed.

Lemma observe_all_frame (msgs : list Message) (w : Watcher) :
  settings (observe_all w msgs) = settings w /\
  whitelist (observe_all w msgs) = whitelist w /\
  enabled (observe_all w msgs) = enabled w.
Proof.
  unfold observe_all. revert w. induction msgs as [|m msgs IH]; intros w; [auto|].
  cbn [fold_left]. destruct (IH (analyzeMessage w (mes m))) as (A & B & C).
  destruct (analyzeMessage_frame w (mes m)) as (A' & B' & C').
  repeat split; congruence.
Qed.

End WatcherMoreFacts.

Module WatcherExtra.
Import RegExp PassiveWatcher Props Samples WatcherFacts Coverage WatcherMoreFacts.

(** X1.  A watcher is well formed when it is created, and every operation
    keeps it so: the keys of the table are distinct, the slop candidates are
    distinct and all tracked, every record has a count of at least 1 and was
    last seen before the current message counter. *)
Theorem watcher_stays_well_formed :
  (forall s, well_formed (create s)) /\
  (forall w, well_formed w ->
     (forall text, well_formed (analyzeMessage w text)) /\
     well_formed (pruneOldNgrams w) /\
     well_formed (reset w) /\
     (forall words, well_formed (addToWhitelist w words)) /\
     (forall n, well_formed (setAnalysisWindow w n)) /\
     (forall msgs, well_formed (fst (analyzeChatHistory w msgs)))).
Proof.
  split; [intros s; now apply well_formed_empty|].
  intros w H. split; [intros text; now apply well_formed_analyzeMessage|].
  split; [now apply well_formed_prune|].
  split; [now apply well_formed_empty|].
  split; [intros words; exact H|]. split; [intros n; exact H|].
  intros msgs. unfold analyzeChatHistory. cbn [fst].
  apply (well_formed_observe_all (recentMessages w msgs) (reset w)).
  now apply well_formed_empty.
Qed.

Lemma watcher_stays_well_formed_witness :
  well_formed (analyzeMessage (analyzeMessage fresh heart_text) heart_text).
Proof.
  destruct watcher_stays_well_formed as [Hc Hs].
  pose proof (Hc default_settings) as H0.
  destruct (Hs fresh H0) as (H1 & _).
  destruct (Hs _ (H1 heart_text)) as (H2 & _).
  exact (H2 heart_text).
Defined.

(** X2.  On a well-formed watcher the statistics never report more slop
    candidates than tracked phrases, and the query returns every phrase at
    most once, never more entries than the table holds, each with a count of
    at least 1; the top phrases of the statistics are at most ten. *)
Theorem query_of_well_formed (w : Watcher) (minScore : option float) :
  well_formed w ->
  st_slopCandidates (getStats w) <= totalPhrases (getStats w) /\
  NoDup (map phrase (getOverusedPhrases w minScore)) /\
  List.length (getOverusedPhrases w minScore) <= totalPhrases (getStats w) /\
  (forall p, In p (getOverusedPhrases w minScore) -> 1 <= p_count p) /\
  List.length (topPhrases (getStats w)) <= 10.
Proof.
  intros (Hk & Hc & Hi & Hr). cbn [getStats st_slopCandidates totalPhrases topPhrases].
  split.
  { replace (List.length (ngramFrequencies w))
      with (List.length (keys (ngramFrequencies w)))
      by (unfold keys; apply length_map).
    now apply NoDup_incl_length. }
  split.
  { eapply Permutation_NoDup; [symmetry; apply phrases_of_query|].
    now apply NoDup_keys_filter. }
  split.
  { unfold getOverusedPhrases.
    rewrite (Permutation_length (js_sort_perm _ _)), length_map.
    apply filter_length_le. }
  split.
  { intros p Hp. unfold getOverusedPhrases in Hp.
    apply (Permutation_in _ (js_sort_perm _ _)) in Hp.
    rewrite in_map_iff in Hp. destruct Hp as ([k d] & <- & Hin).
    apply filter_In in Hin. destruct Hin as [Hin _].
    cbn. now apply (Hr k d). }
  rewrite length_firstn. lia.
Qed.

Lemma query_of_well_formed_witness :
  st_slopCandidates (getStats seasoned) <= totalPhrases (getStats seasoned) /\
  NoDup (map phrase (getOverusedPhrases seasoned (Some 2.5%float))).
Proof.
  assert (H : well_formed seasoned).
  { unfold seasoned. cbn [fold_left].
    do 3 apply well_formed_analyzeMessage. now apply well_formed_empty. }
  destruct (query_of_well_formed seasoned (Some 2.5%float) H) as (A & B & _).
  split; [exact A|exact B].
Defined.

(** X3.  The message counter counts exactly the texts that get past the early
    returns of [analyzeMessage]: a call advances it by one when the watcher is
    enabled and the text is non-empty after the markup is stripped, and not
    at all otherwise; a disabled watcher ignores every text; and after a
    batch analysis the counter is the number of such texts among the analysed
    messages, which can be less than the reported [analyzed]. *)
Theorem counter_counts_observed_texts (w : Watcher) :
  (forall text, totalMessagesProcessed (analyzeMessage w text)
                = totalMessagesProcessed w + (if observes w text then 1 else 0)) /\
  (forall msgs, totalMessagesProcessed (observe_all w msgs)
                = totalMessagesProcessed w
                  + List.length (filter (fun m => observes w (mes m)) msgs)) /\
  (enabled w = false -> forall msgs, observe_all w msgs = w) /\
  (forall msgs,
     messagesProcessed (stats (snd (analyzeChatHistory w msgs)))
     = List.length (filter (fun m => observes w (mes m)) (recentMessages w msgs)) /\
     messagesProcessed (stats (snd (analyzeChatHistory w msgs)))
     <= analyzed (snd (analyzeChatHistory w msgs))).
Proof.
  split; [apply analyzeMessage_counter|]. split; [intros; apply observe_all_counter|].
  split; [intros E msgs; now apply observe_all_disabled|].
  intros msgs.
  assert (H : messagesProcessed (stats (snd (analyzeChatHistory w msgs)))
              = List.length (filter (fun m => observes w (mes m))
                                    (recentMessages w msgs))).
  { unfold analyzeChatHistory. cbn [snd stats getStats messagesProcessed].
    change (fold_left (fun w0 msg => analyzeMessage w0 (mes msg))
                      (recentMessages w msgs) (reset w))
      with (observe_all (reset w) (recentMessages w msgs)).
    rewrite observe_all_counter. cbn [reset totalMessagesProcessed with_counter].
    reflexivity. }
  split; [exact H|]. rewrite H. unfold analyzeChatHistory. cbn [snd analyzed].
  apply filter_length_le.
Qed.

(** X4.  While the message counter is at most [pruningCycle], pruning changes
    nothing, so during the first cycle after a reset no record is deleted or
    decayed: [analyzeMessage] is the n-gram loops and the counter alone, and
    a batch analysis whose window is at most [pruningCycle] keeps every key
    it ever adds. *)
Theorem first_cycle_prunes_nothing (w : Watcher) :
  (totalMessagesProcessed w <= pruningCycle (settings w) -> pruneOldNgrams w = w) /\
  (totalMessagesProcessed w < pruningCycle (settings w) ->
     forall text, analyzeMessage w text = observe_only w text) /\
  (0 < messagesToAnalyze (settings w) ->
   messagesToAnalyze (settings w) <= pruningCycle (settings w) ->
   forall msgs,
     fst (analyzeChatHistory w msgs)
     = fold_left (fun w m => observe_only w (mes m))
                 (recentMessages w msgs) (reset w) /\
     forall l1 l2, recentMessages w msgs = l1 ++ l2 ->
       incl (keys (ngramFrequencies (observe_all (reset w) l1)))
            (keys (ngramFrequencies (fst (analyzeChatHistory w msgs))))).
Proof.
  split; [intros H; unfold pruneOldNgrams; now apply prune_fold_noop|].
  split; [intros H text; now apply analyzeMessage_early|].
  intros Hpos Hle msgs.
  assert (Hlen : List.length (recentMessages w msgs) <= pruningCycle (settings w)).
  { unfold recentMessages. rewrite slice_last_pos by assumption.
    rewrite length_skipn. lia. }
  assert (Hall : forall l, List.length l <= pruningCycle (settings w) ->
            observe_all (reset w) l
            = fold_left (fun w m => observe_only w (mes m)) l (reset w)).
  { intros l Hl. apply observe_all_early. cbn. exact Hl. }
  split.
  - unfold analyzeChatHistory. cbn [fst]. now apply Hall.
  - intros l1 l2 E g Hg. unfold analyzeChatHistory. cbn [fst].
    change (fold_left (fun w0 msg => analyzeMessage w0 (mes msg))
                      (recentMessages w msgs) (reset w))
      with (observe_all (reset w) (recentMessages w msgs)).
    rewrite Hall by assumption. rewrite E, fold_left_app.
    apply fold_observe_only_keys_grow.
    rewrite <- Hall; [exact Hg|].
    rewrite E, length_app in Hlen. lia.
Qed.

Lemma first_cycle_prunes_nothing_witness :
  pruneOldNgrams seasoned = seasoned /\
  analyzeMessage seasoned heart_text = observe_only seasoned heart_text.
Proof.
  destruct (first_cycle_prunes_nothing seasoned) as (A & B & _).
  split.
  - apply A. vm_compute. lia.
  - apply B. vm_compute. lia.
Defined.

Lemma counter_counts_observed_texts_witness :
  messagesProcessed (stats (snd (analyzeChatHistory fresh markup_chat))) = 1 /\
  analyzed (snd (analyzeChatHistory fresh markup_chat)) = 2.
Proof.
  destruct (counter_counts_observed_texts fresh) as (_ & _ & _ & H).
  destruct (H markup_chat) as (E & _).
  split; [rewrite E; vm_compute; reflexivity|vm_compute; reflexivity].
Defined.

(** X5.  The n-grams of a tokenised sentence: none when the sentence has
    fewer than [n] tokens, otherwise one for each of the
    [length - n + 1] windows, in order; each is its window joined by single
    spaces and splits back at the spaces into exactly the [n] tokens of the
    window, so for a window size of at least ngramMin the quality test
    comes down to whether all tokens of the window are stop words. *)
Theorem generated_ngrams_read_back (w : Watcher) (sentence : string) (n : nat) :
  let words := tokenize sentence in
  (List.length words < n -> generateNgrams words n = []) /\
  (0 < n -> n <= List.length words ->
     List.length (generateNgrams words n) = List.length words - n + 1 /\
     forall i, i <= List.length words - n ->
       let window := Js.slice i (i + n) words in
       nth i (generateNgrams words n) EmptyString = Js.join " " window /\
       tokens (Js.join " " window) = window /\
       List.length window = n /\
       (ngramMin (settings w) <= n ->
        isPhraseLowQuality w (Js.join " " window)
        = forallb (fun t => set_has t (whitelist w)) window)).
Proof.
  intros words. split.
  - intros H. unfold generateNgrams. apply Nat.ltb_lt in H. now rewrite H.
  - intros Hn Hle.
    assert (Hgen : generateNgrams words n
                   = map (fun i => Js.join " " (Js.slice i (i + n) words))
                         (seq 0 (S (List.length words - n)))).
    { unfold generateNgrams. destruct (_ <? _) eqn:E; [|reflexivity].
      apply Nat.ltb_lt in E. lia. }
    split; [rewrite Hgen, length_map, length_seq; lia|].
    intros i Hi window.
    assert (Hwin : tokens (Js.join " " window) = window)
      by (apply tokens_of_window; [exact Hn|fold words; lia]).
    assert (Hlen : List.length window = n).
    { unfold window, Js.slice. rewrite length_firstn, length_skipn. lia. }
    split; [|split; [exact Hwin|split; [exact Hlen|]]].
    + rewrite Hgen.
      set (f := fun i => Js.join " " (Js.slice i (i + n) words)).
      rewrite (nth_indep _ EmptyString (f 0))
        by (rewrite length_map, length_seq; lia).
      rewrite map_nth, seq_nth by lia. reflexivity.
    + intros Hmin. unfold isPhraseLowQuality.
      rewrite JsFacts.toLowerCase_id.
      * fold (tokens (Js.join " " window)). rewrite Hwin, Hlen.
        apply Nat.ltb_ge in Hmin. rewrite Hmin.
        now destruct (forallb _ _).
      * apply JsFacts.forall_chars_join; [reflexivity|].
        apply JsFacts.Forall_slice, tokenize_fixed.
Qed.

Lemma generated_ngrams_read_back_witness :
  tokens (Js.join " " (Js.slice 1 (1 + 3) (tokenize "His heart pounded again.")))
  = ["heart"; "pounded"; "again"].
Proof.
  destruct (generated_ngrams_read_back fresh "His heart pounded again." 3) as (_ & H).
  assert (Hn : 0 < 3) by lia.
  assert (Hle : 3 <= List.length (tokenize "His heart pounded again."))
    by (vm_compute; lia).
  destruct (H Hn Hle) as (_ & Hi).
  assert (H1 : 1 <= List.length (tokenize "His heart pounded again.") - 3)
    by (vm_compute; lia).
  destruct (Hi 1 H1) as (_ & E & _).
  rewrite E. vm_compute. reflexivity.
Defined.

(** X6.  Stop words that are not lower-case never take effect, because
    every phrase is lower-cased before it is tested: two sets of stop words
    that hold the same lower-case words give the same quality test and the
    same analysis.  The entry "I" of COMMON_WORDS is such a word: a watcher
    without it behaves the same. *)
Theorem upper_case_stop_words_are_dead (w : Watcher) (wl : list string) :
  same_lower_words wl (whitelist w) ->
  (forall phrase,
     isPhraseLowQuality (with_whitelist w wl) phrase = isPhraseLowQuality w phrase) /\
  (forall text,
     analyzeMessage (with_whitelist w wl) text
     = with_whitelist (analyzeMessage w text) wl) /\
  (forall u, Js.toLowerCase u <> u ->
     same_lower_words (set_delete u (whitelist w)) (whitelist w)).
Proof.
  intros H. split; [intros; now apply isPhraseLowQuality_same_lower|].
  split; [intros; now apply analyzeMessage_same_lower|].
  intros u Hu t Ht. apply set_has_delete_other. intros ->. contradiction.
Qed.

Lemma upper_case_stop_words_are_dead_witness :
  In "I" COMMON_WORDS /\
  isPhraseLowQuality (with_whitelist fresh (set_delete "I" COMMON_WORDS)) "I was there"
  = isPhraseLowQuality fresh "I was there".
Proof.
  split; [vm_compute; tauto|].
  assert (Hd : same_lower_words (set_delete "I" (whitelist fresh)) (whitelist fresh)).
  { destruct (upper_case_stop_words_are_dead fresh (whitelist fresh)) as (_ & _ & H).
    - intros t _. reflexivity.
    - apply H. discriminate. }
  destruct (upper_case_stop_words_are_dead fresh (set_delete "I" COMMON_WORDS) Hd)
    as (H & _).
  apply H.
Defined.

(** X7.  [addToWhitelist] only touches the stop words: it keeps every stop
    word there was, adds each given word in lower case, and leaves the table,
    the candidates and the counter alone (nothing already tracked is
    removed); afterwards every phrase whose words, in any case, are given or
    old stop words is of low quality. *)
Theorem addToWhitelist_extends_stop_words (w : Watcher) (words : list string) :
  let w' := addToWhitelist w words in
  (forall t, set_has t (whitelist w') = true <->
             set_has t (whitelist w) = true \/
             exists word, In word words /\ t = Js.toLowerCase word) /\
  ngramFrequencies w' = ngramFrequencies w /\
  slopCandidates w' = slopCandidates w /\
  totalMessagesProcessed w' = totalMessagesProcessed w /\
  settings w' = settings w /\
  (forall phrase,
     (forall t, In t (Js.split_char " " (Js.toLowerCase phrase)) ->
        set_has t (whitelist w) = true \/
        exists word, In word words /\ t = Js.toLowerCase word) ->
     isPhraseLowQuality w' phrase = true).
Proof.
  intros w'.
  assert (Hw : forall t, set_has t (whitelist w') = true <->
             set_has t (whitelist w) = true \/
             exists word, In word words /\ t = Js.toLowerCase word).
  { intros t. unfold w', addToWhitelist. cbn [whitelist].
    rewrite set_has_fold_add, orb_true_iff, existsb_exists.
    split; (intros [H|(word & Hin & E)]; [now left|right; exists word; split; auto]).
    - now apply String.eqb_eq.
    - subst t. apply String.eqb_refl. }
  split; [exact Hw|]. repeat (split; [reflexivity|]).
  intros phrase Hall. unfold isPhraseLowQuality.
  destruct (_ <? _); [reflexivity|].
  replace (forallb _ _) with true; [reflexivity|].
  symmetry. apply forallb_forall. intros t Ht. apply Hw. now apply Hall.
Qed.

Lemma addToWhitelist_extends_stop_words_witness :
  isPhraseLowQuality fresh "his Heart Pounded" = false /\
  isPhraseLowQuality (addToWhitelist fresh ["Heart"; "POUNDED"]) "his Heart Pounded" = true.
Proof.
  split; [reflexivity|].
  destruct (addToWhitelist_extends_stop_words fresh ["Heart"; "POUNDED"])
    as (_ & _ & _ & _ & _ & H).
  apply H. intros t Ht. vm_compute in Ht.
  destruct Ht as [<-|[<-|[<-|[]]]].
  - left. reflexivity.
  - right. exists "Heart". split; [now left|reflexivity].
  - right. exists "POUNDED". split; [right; now left|reflexivity].
Defined.

(** X8.  A batch analysis does not depend on what the watcher has tracked
    before: watchers with the same settings, stop words and enabled flag
    give the same result, so analysing the same chat again, or after any
    other observation, gives the same table and the same report. *)
Theorem batch_analysis_forgets_history (w : Watcher) (msgs : list Message) :
  (forall w', settings w' = settings w -> whitelist w' = whitelist w ->
              enabled w' = enabled w ->
              analyzeChatHistory w' msgs = analyzeChatHistory w msgs) /\
  analyzeChatHistory (fst (analyzeChatHistory w msgs)) msgs = analyzeChatHistory w msgs /\
  (forall text, analyzeChatHistory (analyzeMessage w text) msgs
                = analyzeChatHistory w msgs) /\
  (forall other, analyzeChatHistory (fst (analyzeChatHistory w other)) msgs
                 = analyzeChatHistory w msgs).
Proof.
  split; [intros; now apply analyzeChatHistory_same|].
  assert (H : forall other, analyzeChatHistory (fst (analyzeChatHistory w other)) msgs
                            = analyzeChatHistory w msgs).
  { intros other. unfold analyzeChatHistory at 2. cbn [fst].
    change (fold_left (fun w0 msg => analyzeMessage w0 (mes msg))
                      (recentMessages w other) (reset w))
      with (observe_all (reset w) (recentMessages w other)).
    destruct (observe_all_frame (recentMessages w other) (reset w)) as (A & B & C).
    now apply analyzeChatHistory_same. }
  split; [apply H|]. split; [|exact H].
  intros text. destruct (analyzeMessage_frame w text) as (A & B & C).
  now apply analyzeChatHistory_same.
Qed.

Lemma batch_analysis_forgets_history_witness :
  analyzeChatHistory aged mixed_chat = analyzeChatHistory quick mixed_chat.
Proof.
  destruct (batch_analysis_forgets_history quick mixed_chat) as (H & _).
  apply H; vm_compute; reflexivity.
Defined.

End WatcherExtra.

(* ================================================================== *)
(** ** The Static Fixer: rules without effect, draws, capitalisation *)

Module FixerMoreFacts.
Import RegExp StaticFixer Samples FixerFacts FixerCoverage Props.

Lemma splice_state {S} (f : MatchResult -> S -> string * S) (g : S -> S)
    (input : string) :
  (forall m st, snd (f m st) = g st) ->
  forall ms from st,
    snd (splice f input from ms st) = Nat.iter (List.length ms) g st.
Proof.
  intros Hf. induction ms as [|m ms IH]; intros from st; [reflexivity|].
  cbn [splice List.length]. specialize (Hf m st).
  destruct (f m st) as [rep st1]. cbn [snd] in Hf. subst st1.
  specialize (IH (index m + String.length (matched m)) (g st)).
  destruct (splice f input _ ms (g st)) as [[ps tail] st2]. cbn [snd] in *.
  rewrite IH. symmetry. apply Nat.iter_succ_r.
Qed.

Lemma iter_S (n k : nat) : Nat.iter n S k = k + n.
Proof. induction n as [|n IH]; simpl; [lia|]. rewrite IH. lia. Qed.

Lemma replace_fn_no_match {S} (fl : flags) (r : regex)
    (f : MatchResult -> S -> string * S) (input : string) (st : S) :
  matches fl r input = [] -> replace_fn fl r f input st = (input, st).
Proof.
  intros H. unfold replace_fn. rewrite H. cbn [splice assemble].
  now rewrite Nat.sub_0_r, substring_all.
Qed.

Lemma applyRule_inert (rnd : oracle) (rule : Rule) (acc : string * nat) :
  findRegex rule = None -> applyRule rnd acc rule = acc.
Proof. intros H. destruct acc as [t k]. unfold applyRule. now rewrite H. Qed.

Lemma applyRule_no_match (rnd : oracle) (rule : Rule) (text : string) (k : nat) :
  rule_matches rule text = [] -> applyRule rnd (text, k) rule = (text, k).
Proof.
  unfold rule_matches, applyRule. destruct (findRegex rule) as [re|]; [|reflexivity].
  intros H. destruct (Js.includes _ _).
  - destruct (parse_options _); [|reflexivity]. now apply replace_fn_no_match.
  - unfold replace_str, replace_pure. now rewrite replace_fn_no_match.
Qed.

Lemma applyRule_draws (rnd : oracle) (rule : Rule) (text : string) (k : nat) :
  snd (applyRule rnd (text, k) rule)
  = k + (if draws rule then List.length (rule_matches rule text) else 0).
Proof.
  unfold applyRule, draws, rule_matches.
  destruct (findRegex rule) as [re|].
  - destruct (Js.includes _ _); cbn [andb].
    + destruct (parse_options _) as [options|]; [|cbn; lia].
      unfold replace_fn.
      pose proof (splice_state (random_replacer rnd options text) S text
                    (fun m st => eq_refl) (matches fl_gi re text) 0 k) as H.
      destruct (splice _ text 0 _ k) as [[ps tail] k']. cbn [snd] in *.
      rewrite H. apply iter_S.
    + cbn. lia.
  - destruct (_ && _); cbn; lia.
Qed.

Lemma fold_applyRule_no_match (rnd : oracle) (rs : list Rule) (text : string) (k : nat) :
  (forall rule, In rule rs -> rule_matches rule text = []) ->
  fold_left (applyRule rnd) rs (text, k) = (text, k).
Proof.
  induction rs as [|rule rs IH]; intros H; [reflexivity|].
  cbn [fold_left]. rewrite applyRule_no_match by (apply H; now left).
  apply IH. intros r Hr. apply H. now right.
Qed.

(** *** Patterns that need a character the text does not have *)

Lemma forall_chars_suffix (p : ascii -> bool) (a b : string) :
  Js.forall_chars p (a ++ b)%string = true -> Js.forall_chars p b = true.
Proof.
  rewrite JsFacts.forall_chars_app. intros H. now apply andb_prop in H.
Qed.

Lemma ends_with_sym_needs (p : ascii -> bool) (fl : flags) (r : regex) :
  ignoreCase fl = false -> ends_with_sym p r ->
  forall x c z,
    matcher fl r x c = Some z ->
    Js.forall_chars (fun ch => negb (p ch)) (rest x) = true -> False.
Proof.
  intros Hic. induction r as [|q|q| |r1 IH1 r2 IH2|r1 IH1 r2 IH2|g r1 IH1|i r1 IH1| |];
    cbn [ends_with_sym]; try contradiction.
  - intros He x c z H Hx. cbn [matcher] in H.
    apply JsFacts.matcher_extends in H. destruct H as (y & (cons & Hc & _) & H).
    apply (IH2 He y c z H). rewrite Hc in Hx. now apply forall_chars_suffix in Hx.
  - destruct r1; try contradiction. intros -> x c z H Hx.
    cbn [matcher] in H. destruct (rest x) as [|ch s']; [discriminate|].
    unfold set_match in H. rewrite Hic in H. cbn in Hx.
    destruct (p ch); [discriminate|discriminate].
Qed.

Lemma exec_from_needs (p : ascii -> bool) (fl : flags) (r : regex) (input : string) :
  ignoreCase fl = false -> ends_with_sym p r ->
  forall s i pc,
    Js.forall_chars (fun ch => negb (p ch)) s = true ->
    exec_from fl r input i pc s = None.
Proof.
  intros Hic He. induction s as [|ch s IH]; intros i pc H; cbn [exec_from].
  - unfold match_at. destruct (matcher _ _ _ Some) as [y|] eqn:E; [|reflexivity].
    exfalso. eapply (ends_with_sym_needs p fl r Hic He); [exact E|exact H].
  - unfold match_at. destruct (matcher _ _ _ Some) as [y|] eqn:E.
    + exfalso. eapply (ends_with_sym_needs p fl r Hic He); [exact E|exact H].
    + apply IH. cbn in H. now apply andb_prop in H.
Qed.

Lemma matches_needs (p : ascii -> bool) (fl : flags) (r : regex) (input : string) :
  ignoreCase fl = false -> ends_with_sym p r ->
  Js.forall_chars (fun ch => negb (p ch)) input = true ->
  matches fl r input = [].
Proof.
  intros Hic He H. unfold matches, exec.
  destruct (global fl); cbn [matches_from];
    now rewrite (exec_from_needs p fl r input Hic He).
Qed.

End FixerMoreFacts.

Module FixerExtra.
Import RegExp StaticFixer Samples FixerFacts FixerCoverage FixerMoreFacts.

(** X9.  A rule that is disabled, not static, or whose pattern does not
    compile has no effect on [applyReplacements]: the other rules are
    applied, in order, as if it were not in the list; so after
    [setAllRulesEnabled(false)] the text passes through unchanged and
    [process] only fixes the capitalisation. *)
Theorem inert_rules_have_no_effect (rnd : oracle) (rule : Rule) :
  inert rule = true ->
  (forall (before after : list Rule) (en : bool) (text : string),
     applyReplacements {| rules := before ++ rule :: after; enabled := en |} rnd text
     = applyReplacements {| rules := before ++ after; enabled := en |} rnd text) /\
  (forall (f : Fixer) (text : string),
     Forall (fun r => inert r = true) (rules (setAllRulesEnabled f false)) /\
     applyReplacements (setAllRulesEnabled f false) rnd text = text /\
     process (setAllRulesEnabled f false) rnd text = fixCapitalization text).
Proof.
  intros Hi.
  assert (Hskip : negb (disabled rule) && isStatic rule = true ->
                  forall acc, applyRule rnd acc rule = acc).
  { unfold inert in Hi.
    destruct (disabled rule); cbn in *; [discriminate|].
    destruct (isStatic rule); cbn in *; [|discriminate].
    destruct (findRegex rule) eqn:E; [discriminate|].
    intros _ acc. now apply applyRule_inert. }
  split.
  - intros l1 l2 en text. unfold applyReplacements. cbn [enabled].
    destruct (negb (Js.truthy text) || negb en); [reflexivity|].
    rewrite !enabledRules_app, !fold_left_app. f_equal.
    unfold enabledRules in *. cbn [rules filter] in *.
    destruct (negb (disabled rule) && isStatic rule); [|reflexivity].
    cbn [fold_left]. now rewrite Hskip.
  - intros f text.
    assert (Hin : Forall (fun r => inert r = true) (rules (setAllRulesEnabled f false))).
    { unfold setAllRulesEnabled. cbn [rules]. rewrite Forall_forall.
      intros r Hr. rewrite in_map_iff in Hr. destruct Hr as (r0 & <- & _).
      reflexivity. }
    assert (He : enabledRules (setAllRulesEnabled f false) = []).
    { unfold enabledRules, setAllRulesEnabled. cbn [rules].
      induction (rules f) as [|r rs IH]; [reflexivity|]. cbn. exact IH. }
    assert (Ha : applyReplacements (setAllRulesEnabled f false) rnd text = text).
    { unfold applyReplacements. rewrite He.
      destruct (_ || _); reflexivity. }
    split; [exact Hin|]. split; [exact Ha|]. unfold process. now rewrite Ha.
Qed.

Lemma inert_rules_have_no_effect_witness :
  inert broken_rule = true /\
  applyReplacements {| rules := [broken_rule; heart_rule]; enabled := true |}
    (fun _ => 0) heart_sentence
  = applyReplacements heart_fixer (fun _ => 0) heart_sentence.
Proof.
  split; [reflexivity|].
  destruct (inert_rules_have_no_effect (fun _ => 0) broken_rule eq_refl) as (H & _).
  exact (H [] [heart_rule] true heart_sentence).
Defined.

(** X10.  A rule whose pattern matches nowhere in the text leaves the text
    and the random source as they are, so a text that no enabled rule
    matches comes back unchanged; and a rule draws from the random source
    exactly once for each match when it is of the randomised kind, and never
    otherwise. *)
Theorem rules_act_on_matches_only (f : Fixer) (rnd : oracle) (text : string) :
  (forall rule k, rule_matches rule text = [] ->
                  applyRule rnd (text, k) rule = (text, k)) /\
  (forall rule k, snd (applyRule rnd (text, k) rule)
                  = k + (if draws rule then List.length (rule_matches rule text)
                         else 0)) /\
  ((forall rule, In rule (enabledRules f) -> rule_matches rule text = []) ->
   applyReplacements f rnd text = text).
Proof.
  split; [intros; now apply applyRule_no_match|].
  split; [intros; apply applyRule_draws|].
  intros H. unfold applyReplacements. destruct (_ || _); [reflexivity|].
  now rewrite fold_applyRule_no_match.
Qed.

Lemma rules_act_on_matches_only_witness :
  applyReplacements heart_fixer (fun _ => 0) "Her cheeks flushed." = "Her cheeks flushed." /\
  snd (applyRule (fun _ => 0) ("His heart pounded. My heart pounded.", 0) heart_rule) = 2.
Proof.
  destruct (rules_act_on_matches_only heart_fixer (fun _ => 0) "Her cheeks flushed.")
    as (_ & _ & H).
  destruct (rules_act_on_matches_only heart_fixer (fun _ => 0)
              "His heart pounded. My heart pounded.") as (_ & D & _).
  split.
  - apply H. intros rule [<-|[]]. vm_compute. reflexivity.
  - rewrite D. vm_compute. reflexivity.
Defined.

(** X11.  [fixCapitalization] returns a text without lower-case letters
    (a to z) unchanged: both of its patterns need such a letter to match. *)
Theorem fixCapitalization_needs_lower_case (text : string) :
  Js.forall_chars (fun ch => negb (Js.is_lower ch)) text = true ->
  fixCapitalization text = text.
Proof.
  intros H. unfold fixCapitalization. destruct (negb (Js.truthy text)); [reflexivity|].
  unfold replace_pure.
  rewrite (replace_fn_no_match fl_s first_letter_re)
    by (apply (matches_needs Js.is_lower); [reflexivity|reflexivity|exact H]).
  cbn [fst].
  rewrite (replace_fn_no_match fl_gs after_sentence_re)
    by (apply (matches_needs Js.is_lower); [reflexivity|reflexivity|exact H]).
  reflexivity.
Qed.

Lemma fixCapitalization_needs_lower_case_witness :
  fixCapitalization "<B>STOP. GO!  <I>12</I>" = "<B>STOP. GO!  <I>12</I>".
Proof. apply fixCapitalization_needs_lower_case. reflexivity. Defined.

End FixerExtra.

(* ================================================================== *)
(** ** Tokens *)

Module TokenFacts.
Import RegExp PassiveWatcher Props Samples Coverage WatcherFacts.

Lemma substring_0_0 (s : string) : substring 0 0 s = EmptyString.
Proof. destruct s; reflexivity. Qed.

Lemma spliced_text_nil {S} (f : MatchResult -> S -> string * S)
    (input : string) (from : nat) (st : S) :
  spliced_text f input from [] st = substring from (String.length input - from) input.
Proof. reflexivity. Qed.

Lemma spliced_text_cons {S} (f : MatchResult -> S -> string * S)
    (input : string) (from : nat) (m : MatchResult) (ms : list MatchResult) (st : S) :
  spliced_text f input from (m :: ms) st
  = (substring from (index m - from) input ++ fst (f m st)
     ++ spliced_text f input (index m + String.length (matched m)) ms (snd (f m st)))%string.
Proof.
  unfold spliced_text. cbn [splice]. destruct (f m st) as [rep st1]. cbn [fst snd].
  destruct (splice f input _ ms st1) as [[ps tail] st2]. reflexivity.
Qed.

Lemma replace_fn_spliced {S} (fl : flags) (r : regex)
    (f : MatchResult -> S -> string * S) (input : string) (st : S) :
  fst (replace_fn fl r f input st) = spliced_text f input 0 (matches fl r input) st.
Proof.
  unfold replace_fn, spliced_text.
  destruct (splice f input 0 _ st) as [[ps tail] st2]. reflexivity.
Qed.

(** A set of one character at a position. *)
Lemma match_at_sym (p : ascii -> bool) (input : string) (i : nat)
    (pc : option ascii) (s : string) :
  match_at fl_g (Sym p) input i pc s =
  match s with
  | String c s' =>
      if p c
      then Some {| index := i; matched := String c EmptyString; groups := [];
                   before := substring 0 i input; after := s'; lastChar := Some c |}
      else None
  | EmptyString => None
  end.
Proof.
  unfold match_at. destruct s as [|c s']; [reflexivity|].
  cbn [matcher rest ignoreCase fl_g set_match]. destruct (p c); [|reflexivity].
  unfold result_of. cbn [endIndex advance rest prev captures].
  replace (S i - i) with 1 by lia. cbn [substring]. now rewrite substring_0_0.
Qed.

(** Replacing every character of a set by nothing takes these characters
    out. *)
Lemma spliced_remove (p : ascii -> bool) (s : string) :
  forall (fuel : nat) (a pend : string) (pc : option ascii),
    S (String.length s) <= fuel ->
    spliced_text (fun m (_ : unit) => (getSubstitution m EmptyString, tt))
      (a ++ pend ++ s) (String.length a)
      (matches_from fuel fl_g (Sym p) (a ++ pend ++ s)
         (String.length a + String.length pend) pc s) tt
    = (pend ++ remove_chars p s)%string.
Proof.
  induction s as [|c s IH]; intros fuel a pend pc Hf;
    (destruct fuel as [|fuel]; [cbn in Hf; lia|]).
  - cbn [matches_from exec_from]. rewrite match_at_sym.
    rewrite spliced_text_nil.
    replace (String.length (a ++ pend ++ "") - String.length a)
      with (String.length pend)
      by (rewrite !JsFacts.length_append; cbn; lia).
    now rewrite JsFacts.substring_middle, JsFacts.append_nil_r.
  - cbn [matches_from exec_from]. rewrite match_at_sym.
    cbn [remove_chars]. destruct (p c) eqn:Ep.
    + cbn [matched Js.is_empty index String.length after lastChar].
      rewrite spliced_text_cons. cbn [index matched fst snd String.length].
      cbn [getSubstitution].
      replace (String.length a + String.length pend - String.length a)
        with (String.length pend) by lia.
      rewrite JsFacts.substring_middle. cbn [append]. f_equal.
      specialize (IH fuel (a ++ pend ++ String c EmptyString)%string EmptyString
                    (Some c)).
      cbn [append String.length] in IH.
      replace ((a ++ pend ++ String c "") ++ s)%string
        with (a ++ pend ++ String c s)%string in IH
        by (rewrite !JsFacts.append_assoc; reflexivity).
      replace (String.length (a ++ pend ++ String c "") + 0)
        with (String.length a + String.length pend + 1) in IH
        by (rewrite !JsFacts.length_append; cbn; lia).
      replace (String.length (a ++ pend ++ String c ""))
        with (String.length a + String.length pend + 1) in IH
        by (rewrite !JsFacts.length_append; cbn; lia).
      apply IH. cbn in Hf. lia.
    + specialize (IH (S fuel) a (pend ++ String c EmptyString)%string (Some c)).
      replace (a ++ (pend ++ String c "") ++ s)%string
        with (a ++ pend ++ String c s)%string in IH
        by (rewrite !JsFacts.append_assoc; reflexivity).
      replace (String.length a + String.length (pend ++ String c ""))
        with (S (String.length a + String.length pend)) in IH
        by (rewrite JsFacts.length_append; cbn; lia).
      cbn [matches_from] in IH. rewrite IH by (cbn in Hf; lia).
      now rewrite JsFacts.append_assoc.
Qed.

Lemma replace_remove (p : ascii -> bool) (s : string) :
  replace_str fl_g (Sym p) EmptyString s = remove_chars p s.
Proof.
  unfold replace_str, replace_pure. rewrite replace_fn_spliced.
  unfold matches. cbn [global fl_g].
  apply (spliced_remove p s (S (String.length s)) EmptyString EmptyString None).
  lia.
Qed.

Lemma remove_chars_free (p : ascii -> bool) (s : string) :
  Js.forall_chars (fun c => negb (p c)) (remove_chars p s) = true.
Proof.
  induction s as [|c s IH]; [reflexivity|]. cbn [remove_chars].
  destruct (p c) eqn:E; [exact IH|]. cbn. now rewrite E, IH.
Qed.

Lemma lower_char_punct (c : ascii) : is_punct (Js.lower_char c) = is_punct c.
Proof. destruct c as [[] [] [] [] [] [] [] []]; reflexivity. Qed.

Lemma toLowerCase_punct_free (s : string) :
  Js.forall_chars (fun c => negb (is_punct c)) s = true ->
  Js.forall_chars (fun c => negb (is_punct c)) (Js.toLowerCase s) = true.
Proof.
  induction s as [|c s IH]; [reflexivity|]. cbn. intros H.
  apply andb_prop in H. destruct H as [Hc Hs].
  now rewrite lower_char_punct, Hc, IH.
Qed.

Lemma tokenize_punct_free (sentence : string) :
  Forall (fun t => Js.forall_chars (fun c => negb (is_punct c)) t = true)
         (tokenize sentence).
Proof.
  unfold tokenize. apply JsFacts.Forall_filter, JsFacts.split_chars; [reflexivity|].
  apply toLowerCase_punct_free.
  change punct_re with (Sym is_punct). rewrite replace_remove.
  apply remove_chars_free.
Qed.

End TokenFacts.

Module TokenExtra.
Import RegExp PassiveWatcher Props Samples Coverage WatcherFacts TokenFacts.

(** X12.  The tokens of a sentence are never empty, hold no white space,
    none of the characters . , ! ? and no upper-case letter; deleting the
    punctuation is exactly taking these four characters out of the
    sentence. *)
Theorem tokens_are_clean_words (sentence : string) :
  replace_str fl_g punct_re EmptyString sentence = remove_chars is_punct sentence /\
  forall t, In t (tokenize sentence) ->
    t <> EmptyString /\
    no_space t = true /\
    Js.forall_chars (fun c => negb (is_punct c)) t = true /\
    Js.toLowerCase t = t.
Proof.
  split; [apply replace_remove|]. intros t Ht.
  pose proof (tokenize_no_space sentence) as Hs.
  pose proof (tokenize_punct_free sentence) as Hp.
  pose proof (tokenize_fixed sentence) as Hf.
  rewrite Forall_forall in Hs, Hp, Hf.
  split; [|split; [now apply Hs|split; [now apply Hp|]]].
  - unfold tokenize in Ht. apply filter_In in Ht. destruct Ht as [_ Ht].
    intros ->. discriminate Ht.
  - apply JsFacts.toLowerCase_id. now apply Hf.
Qed.

Lemma tokens_are_clean_words_witness :
  tokenize latin_sentence
  = [String "233"%char "lan"; "vital"; String "252"%char "ber"; "alles"] /\
  Js.toLowerCase (String "252"%char "ber") = String "252"%char "ber" /\
  no_space (String "252"%char "ber") = true.
Proof.
  split; [reflexivity|].
  destruct (tokens_are_clean_words latin_sentence) as (_ & H).
  assert (Hin : In (String "252"%char "ber") (tokenize latin_sentence))
    by (vm_compute; right; right; left; reflexivity).
  destruct (H _ Hin) as (_ & Hs & _ & Hl).
  split; [exact Hl|exact Hs].
Defined.

End TokenExtra.

(* ================================================================== *)
(** ** The Proactive Injector *)

Module InjectorFacts.
Import ProactiveInjector InjectorProps.

Lemma append_nonempty_r (a b : string) : b <> EmptyString -> (a ++ b)%string <> EmptyString.
Proof. destruct a; [easy|discriminate]. Qed.

Lemma trim_end_app (a b : string) :
  Js.trim_end b <> EmptyString -> Js.trim_end (a ++ b) = (a ++ Js.trim_end b)%string.
Proof.
  intros H. induction a as [|c a IH]; [reflexivity|].
  cbn [append Js.trim_end]. rewrite IH.
  destruct (a ++ Js.trim_end b)%string eqn:E; [|reflexivity].
  exfalso. exact (append_nonempty_r a _ H E).
Qed.

Lemma trim_end_idem (s : string) : Js.trim_end (Js.trim_end s) = Js.trim_end s.
Proof.
  induction s as [|c s IH]; [reflexivity|]. cbn [Js.trim_end].
  destruct (Js.trim_end s) as [|d t] eqn:E.
  - destruct (Js.is_space c) eqn:Ec; [reflexivity|]. cbn [Js.trim_end]. now rewrite Ec.
  - cbn [Js.trim_end]. cbn [Js.trim_end] in IH. now rewrite IH.
Qed.

(** A string that does not start with white space. *)
Lemma trim_start_clean (s : string) :
  match Js.trim_start s with
  | String c _ => Js.is_space c = false
  | EmptyString => True
  end.
Proof.
  induction s as [|c s IH]; [exact I|]. cbn [Js.trim_start].
  destruct (Js.is_space c) eqn:Ec; [exact IH|exact Ec].
Qed.

Lemma trim_start_end (s : string) :
  match s with String c _ => Js.is_space c = false | EmptyString => True end ->
  Js.trim_start (Js.trim_end s) = Js.trim_end s.
Proof.
  destruct s as [|c s]; [reflexivity|]. intros Hc. cbn [Js.trim_end].
  destruct (Js.trim_end s); rewrite ?Hc; cbn [Js.trim_start]; now rewrite Hc.
Qed.

Lemma trim_idem (s : string) : Js.trim (Js.trim s) = Js.trim s.
Proof.
  unfold Js.trim. rewrite trim_start_end by apply trim_start_clean.
  apply trim_end_idem.
Qed.

(** What [trim] leaves of a template that starts with a line break. *)
Lemma trim_template (h mid f : string) :
  match h with String c _ => Js.is_space c = false | EmptyString => False end ->
  Js.trim_end f <> EmptyString ->
  Js.trim (nl ++ h ++ mid ++ f) = (h ++ mid ++ Js.trim_end f)%string.
Proof.
  intros Hh Hf. destruct h as [|c h]; [easy|].
  unfold Js.trim, nl. cbn [append Js.trim_start].
  replace (Js.is_space "010") with true by reflexivity. rewrite Hh.
  change (String c (h ++ mid ++ f)) with (String c h ++ mid ++ f)%string.
  rewrite <- JsFacts.append_assoc, trim_end_app by exact Hf.
  now rewrite JsFacts.append_assoc.
Qed.

Lemma directive_closed (list : string) :
  Js.trim (directive_template list) = directive_text list.
Proof.
  unfold directive_template, directive_text. apply trim_template.
  - vm_compute. reflexivity.
  - vm_compute. discriminate.
Qed.

Lemma directive_text_nonempty (list : string) : directive_text list <> EmptyString.
Proof.
  unfold directive_text. destruct directive_head eqn:E; [|discriminate].
  vm_compute in E. discriminate E.
Qed.

Lemma guideline_nonempty (examples : string) :
  Js.trim (guideline_template examples) <> EmptyString.
Proof.
  unfold guideline_template. rewrite trim_template.
  - destruct guideline_head eqn:E; [|discriminate].
    vm_compute in E. discriminate E.
  - vm_compute. reflexivity.
  - vm_compute. discriminate.
Qed.

Lemma startsWith_app (p b : string) : Js.startsWith p (p ++ b) = true.
Proof.
  induction p as [|c p IH]; [reflexivity|].
  cbn [append Js.startsWith]. now rewrite Ascii.eqb_refl, IH.
Qed.

Lemma includes_app (a p b : string) : Js.includes p (a ++ p ++ b) = true.
Proof.
  assert (Hinc : forall s, Js.includes p s
                           = Js.startsWith p s
                             || match s with
                                | EmptyString => false
                                | String _ t => Js.includes p t
                                end) by (destruct s; reflexivity).
  induction a as [|c a IH]; cbn [append].
  - now rewrite Hinc, startsWith_app.
  - rewrite Hinc, IH. apply orb_true_r.
Qed.

Lemma join_in (sep q : string) (qs : list string) :
  In q qs -> exists a b, Js.join sep qs = (a ++ q ++ b)%string.
Proof.
  induction qs as [|w ws IH]; [easy|]. intros [->|H].
  - destruct ws as [|w' ws'].
    + exists EmptyString, EmptyString. cbn. now rewrite JsFacts.append_nil_r.
    + exists EmptyString, (sep ++ Js.join sep (w' :: ws'))%string. reflexivity.
  - destruct ws as [|w' ws']; [easy|]. destruct (IH H) as (a & b & E).
    exists (w ++ sep ++ a)%string, b.
    change (Js.join sep (w :: w' :: ws'))
      with (w ++ sep ++ Js.join sep (w' :: ws'))%string.
    now rewrite E, !JsFacts.append_assoc.
Qed.

Lemma silent_false (inj : Injector) :
  silent inj = false -> enabled inj = true /\ overusedPhrases inj <> [].
Proof.
  unfold silent. intros H. apply orb_false_elim in H. destruct H as [He Hl].
  split; [now destruct (enabled inj)|]. intros E. now rewrite E in Hl.
Qed.

Lemma silent_true (inj : Injector) :
  silent inj = true <-> enabled inj = false \/ overusedPhrases inj = [].
Proof.
  unfold silent. split.
  - intros H. apply orb_true_iff in H. destruct H as [H|H].
    + left. now destruct (enabled inj).
    + right. destruct (overusedPhrases inj); [reflexivity|discriminate].
  - intros [H|H]; rewrite H; [reflexivity|]. cbn. apply orb_true_r.
Qed.

(** The directive of an injector that has something to say. *)
Lemma directive_of (inj : Injector) (maxPhrases : Z) :
  enabled inj = true -> slice_to maxPhrases (overusedPhrases inj) <> [] ->
  generatePreventativeInstructions inj maxPhrases
  = directive_text (Js.join ", " (map quoted (slice_to maxPhrases (overusedPhrases inj)))).
Proof.
  intros He Ht. unfold generatePreventativeInstructions. rewrite He.
  destruct (overusedPhrases inj) as [|p ps] eqn:Ep.
  - exfalso. apply Ht. unfold slice_to. now destruct (Z.to_nat _).
  - cbn [negb orb List.length Nat.eqb]. rewrite length_map.
    destruct (slice_to maxPhrases (p :: ps)) as [|t ts] eqn:Es; [easy|].
    cbn [List.length Nat.eqb]. apply directive_closed.
Qed.

Lemma slice_to_first {A} (k : nat) (x : A) (l : list A) :
  slice_to (Z.of_nat (S k)) (x :: l) = x :: firstn k l.
Proof.
  unfold slice_to.
  destruct (Z.of_nat (S k) <? 0)%Z eqn:E; [apply Z.ltb_lt in E; lia|].
  now rewrite Nat2Z.id.
Qed.

Lemma mode_frame (inj : Injector) (mode : string) :
  enabled (setInjectionMode inj mode) = enabled inj /\
  overusedPhrases (setInjectionMode inj mode) = overusedPhrases inj /\
  priority (setInjectionMode inj mode) = priority inj.
Proof. unfold setInjectionMode. now destruct (array_includes mode modes). Qed.

Lemma priority_frame (inj : Injector) (p : string) :
  enabled (setPriority inj p) = enabled inj /\
  overusedPhrases (setPriority inj p) = overusedPhrases inj /\
  injectionMode (setPriority inj p) = injectionMode inj.
Proof. unfold setPriority. now destruct (array_includes p priorities). Qed.

Lemma array_includes_In (x : string) (l : list string) :
  array_includes x l = true <-> In x l.
Proof.
  unfold array_includes. rewrite existsb_exists. split.
  - intros (y & Hy & E). apply String.eqb_eq in E. now subst.
  - intros H. exists x. split; [exact H|apply String.eqb_refl].
Qed.

End InjectorFacts.

Module InjectorExtra.
Import ProactiveInjector InjectorProps InjectorFacts.

(** X13.  The directive of [generatePreventativeInstructions] is empty
    exactly when the injector is switched off or the slice of its phrases is
    empty.  Otherwise it is the fixed heading, the phrases of the slice in
    double quotes separated by commas, and the fixed closing paragraph, with
    no white space around it: every phrase of the slice can be read in it
    between double quotes, and for a count that is not negative the slice
    holds at most that many phrases. *)
Theorem directive_lists_top_phrases (inj : Injector) (maxPhrases : Z) :
  let top := slice_to maxPhrases (overusedPhrases inj) in
  let text := generatePreventativeInstructions inj maxPhrases in
  (text = EmptyString <-> enabled inj = false \/ top = []) /\
  (enabled inj = true -> top <> [] ->
   text = directive_text (Js.join ", " (map quoted top)) /\
   Js.trim text = text /\
   forall item, In item top -> Js.includes (quoted item) text = true) /\
  ((0 <= maxPhrases)%Z -> List.length top <= Z.to_nat maxPhrases).
Proof.
  cbn zeta. split; [|split].
  - split.
    + intros H. destruct (enabled inj) eqn:He; [|now left]. right.
      destruct (slice_to maxPhrases (overusedPhrases inj)) as [|t ts] eqn:Es;
        [reflexivity|].
      exfalso. rewrite directive_of in H by (rewrite ?Es; easy).
      exact (directive_text_nonempty _ H).
    + unfold generatePreventativeInstructions. intros [H|H].
      * now rewrite H.
      * destruct (negb (enabled inj) || _); [reflexivity|].
        now rewrite length_map, H.
  - intros He Ht. rewrite directive_of by assumption.
    split; [reflexivity|split].
    + rewrite <- directive_closed. apply trim_idem.
    + intros item Hi. unfold directive_text.
      destruct (join_in ", " (quoted item) (map quoted _) (in_map quoted _ _ Hi))
        as (a & b & E).
      rewrite E, <- !JsFacts.append_assoc, !JsFacts.append_assoc.
      rewrite <- (JsFacts.append_assoc directive_head a).
      apply includes_app.
  - intros Hm. unfold slice_to.
    destruct (maxPhrases <? 0)%Z eqn:E; [apply Z.ltb_lt in E; lia|].
    apply firstn_le_length.
Qed.

Lemma directive_lists_top_phrases_witness :
  generatePreventativeInstructions two_phrases 1
  = directive_text (quoted {| PassiveWatcher.phrase := "his heart pounded";
                              PassiveWatcher.p_score := 7.5%float;
                              PassiveWatcher.p_count := 3 |}).
Proof.
  destruct (directive_lists_top_phrases two_phrases 1) as (_ & H & _).
  assert (He : enabled two_phrases = true) by reflexivity.
  assert (Ht : slice_to 1 (overusedPhrases two_phrases) <> []) by discriminate.
  destruct (H He Ht) as (E & _). exact E.
Defined.

(** X14.  An injector that is switched off or knows no phrase says nothing:
    the directive, the guideline and the reminder are empty and
    [getInjectionText] is null.  Any other injector produces three texts that
    are not empty, and [getInjectionText] is its directive for ten phrases.
    [getStats] reports [wouldInject] from the phrases alone, so it is true for
    an injector that is switched off and injects nothing. *)
Theorem injector_speaks_when_on_and_informed (inj : Injector) :
  (silent inj = true ->
   (forall k, generatePreventativeInstructions inj k = EmptyString) /\
   generateAlternativesSuggestion inj = EmptyString /\
   generateGentleReminder inj = EmptyString /\
   getInjectionText inj = None) /\
  (silent inj = false ->
   getInjectionText inj = Some (generatePreventativeInstructions inj 10) /\
   generatePreventativeInstructions inj 10 <> EmptyString /\
   generateAlternativesSuggestion inj <> EmptyString /\
   generateGentleReminder inj <> EmptyString) /\
  (enabled inj = false -> overusedPhrases inj <> [] ->
   wouldInject (getStats inj) = true /\ getInjectionText inj = None) /\
  silent (reset inj) = true.
Proof.
  split; [|split; [|split]].
  - intros H. unfold generatePreventativeInstructions, generateAlternativesSuggestion,
      generateGentleReminder, getInjectionText. fold (silent inj). now rewrite H.
  - intros H. destruct (silent_false inj H) as [He Hp].
    unfold generateAlternativesSuggestion, generateGentleReminder, getInjectionText.
    fold (silent inj). rewrite H.
    split; [reflexivity|]. split; [|split].
    + destruct (overusedPhrases inj) as [|p ps] eqn:Ep; [easy|].
      rewrite directive_of; [apply directive_text_nonempty|exact He|].
      rewrite Ep. change 10%Z with (Z.of_nat 10). rewrite slice_to_first. discriminate.
    + apply guideline_nonempty.
    + discriminate.
  - intros He Hp. split.
    + unfold getStats. cbn [wouldInject]. destruct (overusedPhrases inj); [easy|reflexivity].
    + unfold getInjectionText. now rewrite He.
  - unfold silent, reset. cbn. apply orb_true_r.
Qed.

Lemma injector_speaks_when_on_and_informed_witness :
  getInjectionText two_phrases = Some (generatePreventativeInstructions two_phrases 10) /\
  wouldInject (getStats (setEnabled two_phrases false)) = true /\
  getInjectionText (setEnabled two_phrases false) = None.
Proof.
  destruct (injector_speaks_when_on_and_informed two_phrases) as (_ & H & _).
  destruct (injector_speaks_when_on_and_informed (setEnabled two_phrases false))
    as (_ & _ & H' & _).
  assert (Hs : silent two_phrases = false) by reflexivity.
  assert (He : enabled (setEnabled two_phrases false) = false) by reflexivity.
  assert (Hp : overusedPhrases (setEnabled two_phrases false) <> []) by discriminate.
  destruct (H Hs) as (E & _). destruct (H' He Hp) as (E1 & E2).
  split; [exact E|split; [exact E1|exact E2]].
Defined.

(** X15.  The mode and the priority of an injector are always among the
    values the setters list: the constructor sets such values, the setters
    ignore any other value and no other operation changes them.  Neither
    setting has any effect on the texts: the directive, the guideline, the
    reminder and [getInjectionText] are the same whatever the mode and the
    priority. *)
Theorem mode_and_priority_are_checked_but_unused (inj : Injector) (mode p : string) :
  valid create /\
  (valid inj ->
   valid (setInjectionMode inj mode) /\ valid (setPriority inj p) /\
   valid (reset inj) /\
   (forall en, valid (setEnabled inj en)) /\
   (forall phrases, valid (updateOverusedPhrases inj phrases))) /\
  (~ In mode modes -> setInjectionMode inj mode = inj) /\
  (~ In p priorities -> setPriority inj p = inj) /\
  (let inj' := setPriority (setInjectionMode inj mode) p in
   (forall k, generatePreventativeInstructions inj' k
              = generatePreventativeInstructions inj k) /\
   generateAlternativesSuggestion inj' = generateAlternativesSuggestion inj /\
   generateGentleReminder inj' = generateGentleReminder inj /\
   getInjectionText inj' = getInjectionText inj).
Proof.
  split; [|split; [|split; [|split]]].
  - split; cbn; auto.
  - intros [Hm Hp]. split; [|split; [|split; [|split]]].
    + unfold setInjectionMode. destruct (array_includes mode modes) eqn:E;
        [|now split]. split; [|exact Hp]. now apply array_includes_In.
    + unfold setPriority. destruct (array_includes p priorities) eqn:E;
        [|now split]. split; [exact Hm|]. now apply array_includes_In.
    + now split.
    + intros en. now split.
    + intros phrases. now split.
  - intros H. unfold setInjectionMode.
    destruct (array_includes mode modes) eqn:E; [|reflexivity].
    now apply array_includes_In in E.
  - intros H. unfold setPriority.
    destruct (array_includes p priorities) eqn:E; [|reflexivity].
    now apply array_includes_In in E.
  - cbn zeta.
    destruct (priority_frame (setInjectionMode inj mode) p) as (He & Hp & _).
    destruct (mode_frame inj mode) as (He' & Hp' & _).
    unfold generatePreventativeInstructions, generateAlternativesSuggestion,
      generateGentleReminder, getInjectionText, generatePreventativeInstructions.
    rewrite He, Hp, He', Hp'. repeat split.
Qed.

Lemma mode_and_priority_are_checked_but_unused_witness :
  setInjectionMode two_phrases "assistant" = two_phrases /\
  valid (setPriority two_phrases "low").
Proof.
  destruct (mode_and_priority_are_checked_but_unused two_phrases "assistant" "low")
    as (_ & Hv & Hm & _).
  split.
  - apply Hm. intros [H|[H|[H|[]]]]; discriminate H.
  - apply Hv. split; cbn; auto.
Defined.

(** X16.  When the injector is given the result of the watcher's default
    query, it has a directive exactly when some record of the table has a
    score of at least 5; every phrase it holds is a key of the table with
    such a score, and carries the score and the count of its record; and
    when at most ten records qualify, each of them is named in the
    directive between double quotes. *)
Theorem directive_names_overused_phrases (w : PassiveWatcher.Watcher) (inj : Injector) :
  let found := PassiveWatcher.getOverusedPhrases w None in
  let inj' := updateOverusedPhrases inj found in
  enabled inj = true ->
  (getInjectionText inj' = None <->
   forall e, In e (PassiveWatcher.ngramFrequencies w) -> overused e = false) /\
  (forall item, In item (overusedPhrases inj') ->
     exists d, In (PassiveWatcher.phrase item, d) (PassiveWatcher.ngramFrequencies w) /\
               overused (PassiveWatcher.phrase item, d) = true /\
               PassiveWatcher.p_score item = PassiveWatcher.score d /\
               PassiveWatcher.p_count item = PassiveWatcher.count d) /\
  (List.length found <= 10 ->
   forall k d, In (k, d) (PassiveWatcher.ngramFrequencies w) -> overused (k, d) = true ->
     exists text, getInjectionText inj' = Some text /\
                  Js.includes (dq ++ k ++ dq) text = true).
Proof.
  cbn zeta. intros He.
  set (found := PassiveWatcher.getOverusedPhrases w None).
  assert (Hperm : Permutation found
                    (map PassiveWatcher.project
                         (filter overused (PassiveWatcher.ngramFrequencies w))))
    by apply WatcherFacts.js_sort_perm.
  assert (Hin : forall item, In item found <->
                  exists e, In e (PassiveWatcher.ngramFrequencies w) /\
                            overused e = true /\ PassiveWatcher.project e = item).
  { intros item. split.
    - intros H. apply (Permutation_in _ Hperm) in H. apply in_map_iff in H.
      destruct H as (e & E & H). apply filter_In in H. now exists e.
    - intros (e & H1 & H2 & E). apply (Permutation_in _ (Permutation_sym Hperm)).
      apply in_map_iff. exists e. split; [exact E|]. now apply filter_In. }
  split; [|split].
  - unfold getInjectionText. cbn [enabled overusedPhrases updateOverusedPhrases].
    rewrite He. cbn [negb orb]. split.
    + intros H e Hi. destruct (overused e) eqn:Eo; [|reflexivity].
      assert (Hf : In (PassiveWatcher.project e) found) by (apply Hin; now exists e).
      destruct found; [easy|discriminate H].
    + intros H. destruct found as [|item l] eqn:Ef; [reflexivity|]. exfalso.
      destruct (proj1 (Hin item) (or_introl eq_refl)) as (e & H1 & H2 & _).
      rewrite (H e H1) in H2. discriminate H2.
  - cbn [overusedPhrases updateOverusedPhrases]. intros item Hi.
    apply Hin in Hi. destruct Hi as ([k d] & H1 & H2 & <-). now exists d.
  - intros Hl k d Hi Ho.
    assert (Hf : In (PassiveWatcher.project (k, d)) found)
      by (apply Hin; now exists (k, d)).
    assert (Hs : slice_to 10 found = found).
    { unfold slice_to. cbn. now apply firstn_all2. }
    assert (Hne : found <> []) by (intros E; now rewrite E in Hf).
    exists (generatePreventativeInstructions (updateOverusedPhrases inj found) 10).
    split.
    + unfold getInjectionText. cbn [enabled overusedPhrases updateOverusedPhrases].
      rewrite He. destruct found; [easy|reflexivity].
    + rewrite directive_of;
        cbn [enabled overusedPhrases updateOverusedPhrases]; rewrite ?Hs; try assumption.
      unfold directive_text.
      destruct (join_in ", " _ _ (in_map quoted _ _ Hf)) as (a & b & E).
      rewrite E. unfold quoted at 1. cbn [PassiveWatcher.phrase PassiveWatcher.project fst].
      rewrite !JsFacts.append_assoc.
      rewrite <- (JsFacts.append_assoc directive_head a).
      rewrite <- (JsFacts.append_assoc k dq).
      rewrite <- (JsFacts.append_assoc dq (k ++ dq)).
      apply includes_app.
Qed.

Lemma directive_names_overused_phrases_witness :
  exists text,
    getInjectionText
      (updateOverusedPhrases create
         (PassiveWatcher.getOverusedPhrases Samples.seasoned None)) = Some text /\
    Js.includes (dq ++ "his heart pounded" ++ dq) text = true.
Proof.
  destruct (directive_names_overused_phrases Samples.seasoned create eq_refl)
    as (_ & _ & H).
  assert (Hl : List.length (PassiveWatcher.getOverusedPhrases Samples.seasoned None) <= 10)
    by (vm_compute; lia).
  assert (Hi : In ("his heart pounded",
                   {| PassiveWatcher.count := 3; PassiveWatcher.score := 6.0%float;
                      PassiveWatcher.lastSeen := 2 |})
                  (PassiveWatcher.ngramFrequencies Samples.seasoned))
    by (vm_compute; left; reflexivity).
  apply (H Hl _ _ Hi). vm_compute. reflexivity.
Defined.

End InjectorExtra.

(* ================================================================== *)
(** ** Rules by id *)

Module CatalogExtra.
Import RegExp StaticFixer FixerCatalog.

(** X17.  [setRuleEnabled] changes the first rule that has the given id and
    nothing else: the ids and the number of rules stay, an id that no rule
    has leaves the rules as they are, and later rules with the same id keep
    their state.  Disabling a rule by its id makes [applyReplacements] behave
    as if that first rule had been removed. *)
Theorem setRuleEnabled_changes_first_match (entries : list Entry) (ruleId : string)
    (en : bool) :
  map id (setRuleEnabled entries ruleId en) = map id entries /\
  ((forall e, In e entries -> has_id ruleId e = false) ->
   setRuleEnabled entries ruleId en = entries) /\
  (forall before e after,
     entries = before ++ e :: after ->
     (forall b, In b before -> has_id ruleId b = false) ->
     has_id ruleId e = true ->
     setRuleEnabled entries ruleId en
     = before ++ {| id := id e; rule := set_disabled (rule e) (negb en) |} :: after) /\
  (forall (on : bool) (rnd : oracle) (text : string),
     applyReplacements (fixer_of (setRuleEnabled entries ruleId false) on) rnd text
     = applyReplacements (fixer_of (remove_first ruleId entries) on) rnd text).
Proof.
  split; [|split; [|split]].
  - induction entries as [|e es IH]; [reflexivity|]. cbn [setRuleEnabled].
    destruct (has_id ruleId e); [reflexivity|]. cbn [map]. now rewrite IH.
  - induction entries as [|e es IH]; intros H; [reflexivity|]. cbn [setRuleEnabled].
    rewrite (H e (or_introl eq_refl)). f_equal. apply IH.
    intros e' He'. apply H. now right.
  - intros before. revert entries.
    induction before as [|b bs IH]; intros entries e after -> Hb He.
    + cbn [app setRuleEnabled]. now rewrite He.
    + cbn [app setRuleEnabled]. rewrite (Hb b (or_introl eq_refl)). f_equal.
      apply (IH _ e after eq_refl); [|exact He]. intros b' Hb'. apply Hb. now right.
  - intros on rnd text. unfold applyReplacements. cbn [enabled fixer_of].
    destruct (negb (Js.truthy text) || negb on); [reflexivity|]. f_equal. f_equal.
    unfold enabledRules, fixer_of. cbn [rules].
    induction entries as [|e es IH]; [reflexivity|].
    cbn [setRuleEnabled remove_first]. destruct (has_id ruleId e).
    + reflexivity.
    + cbn [map filter]. now rewrite IH.
Qed.

Lemma setRuleEnabled_changes_first_match_witness :
  setRuleEnabled twin_entries "R1" false
  = [{| id := Some "R1"; rule := set_disabled heart_rule true |};
     {| id := Some "R1"; rule := heart_rule |}].
Proof.
  destruct (setRuleEnabled_changes_first_match twin_entries "R1" false)
    as (_ & _ & H & _).
  apply (H [] {| id := Some "R1"; rule := heart_rule |}
           [{| id := Some "R1"; rule := heart_rule |}]).
  - reflexivity.
  - intros b [].
  - reflexivity.
Defined.

End CatalogExtra.

(* ================================================================== *)
(** ** White space after stripMarkup *)

Module MarkupFacts.
Import RegExp PassiveWatcher Props Coverage TokenFacts.

Lemma clear_no_captures (x : MatchState) :
  captures x = [] -> clear_captures [] x = x.
Proof. destruct x as [e r p c]. cbn. now intros ->. Qed.

(** The greedy repetition of a white-space character takes all the white
    space there is. *)
Lemma star_spaces (fuel : nat) :
  forall x, captures x = [] -> String.length (rest x) < fuel ->
    exists y,
      star_loop true (fun x' k => matcher fl_g (Sym Js.is_space) x' k) [] Some fuel x
      = Some y /\
      rest y = Js.trim_start (rest x) /\
      endIndex y + String.length (rest y) = endIndex x + String.length (rest x) /\
      captures y = [].
Proof.
  induction fuel as [|fuel IH]; intros x Hc Hl; [lia|].
  cbn [star_loop]. rewrite (clear_no_captures x Hc).
  assert (Hstep : forall k, matcher fl_g (Sym Js.is_space) x k
                  = match rest x with
                    | String ch s' => if Js.is_space ch then k (advance x ch s') else None
                    | EmptyString => None
                    end) by reflexivity.
  rewrite Hstep. clear Hstep.
  destruct (rest x) as [|ch s'] eqn:Er.
  - exists x. rewrite Er. repeat split; try reflexivity. exact Hc.
  - cbn [Js.trim_start]. destruct (Js.is_space ch) eqn:Ec.
    + cbn [advance endIndex].
      replace (S (endIndex x) =? endIndex x) with false
        by (symmetry; apply Nat.eqb_neq; lia).
      destruct (IH (advance x ch s')) as (y & E & Hr & He & Hy).
      * exact Hc.
      * cbn [advance rest]. cbn in Hl. lia.
      * rewrite E. exists y. cbn [advance rest endIndex] in Hr, He.
        split; [reflexivity|]. split; [exact Hr|]. split; [|exact Hy].
        cbn [String.length]. lia.
    + exists x. rewrite Er. repeat split; try reflexivity. exact Hc.
Qed.

Lemma trim_start_suffix (s : string) :
  exists pre, s = (pre ++ Js.trim_start s)%string.
Proof.
  induction s as [|c s IH]; [now exists EmptyString|]. cbn [Js.trim_start].
  destruct (Js.is_space c).
  - destruct IH as (pre & E). exists (String c pre). cbn. now rewrite <- E.
  - now exists EmptyString.
Qed.

(** What the pattern for white space matches at a position. *)
Lemma spaces_match_g (input : string) (q : nat) (pc : option ascii) (s : string) :
  match s with
  | String ch s' =>
      if Js.is_space ch
      then exists m, match_at fl_g spaces_re input q pc s = Some m /\
                     index m = q /\ after m = Js.trim_start s' /\
                     s = (matched m ++ after m)%string /\
                     matched m <> EmptyString /\ groups m = []
      else match_at fl_g spaces_re input q pc s = None
  | EmptyString => match_at fl_g spaces_re input q pc s = None
  end.
Proof.
  unfold match_at. destruct s as [|ch s']; [reflexivity|].
  set (x0 := {| endIndex := q; rest := String ch s'; prev := pc; captures := [] |}).
  assert (Hstep : matcher fl_g spaces_re x0 Some =
                  if Js.is_space ch
                  then star_loop true (fun x' k => matcher fl_g (Sym Js.is_space) x' k) []
                         Some (S (String.length s')) (advance x0 ch s')
                  else None) by reflexivity.
  rewrite Hstep. clear Hstep.
  destruct (Js.is_space ch) eqn:Es; [|reflexivity].
  destruct (star_spaces (S (String.length s')) (advance x0 ch s'))
    as (y & E & Hr & He & Hy); [reflexivity|cbn; lia|].
  rewrite E. cbn [advance rest endIndex x0] in Hr, He.
  eexists. split; [reflexivity|].
  cbn [index after matched groups result_of].
  destruct (trim_start_suffix s') as (pre & Ep).
  assert (Hlen : endIndex y - q = S (String.length pre)).
  { assert (Hl' : String.length s'
                  = String.length pre + String.length (Js.trim_start s'))
      by (rewrite Ep at 1; apply JsFacts.length_append).
    rewrite Hr in He. lia. }
  assert (Hsub : substring 0 (String.length pre) s' = pre)
    by (rewrite Ep; apply JsFacts.substring_prefix).
  rewrite Hlen, Hr. cbn [substring]. rewrite Hsub.
  split; [reflexivity|]. split; [reflexivity|]. split.
  - cbn [append]. now rewrite <- Ep.
  - split; [discriminate|reflexivity].
Qed.

Lemma spaces_match_end (input : string) (q : nat) (pc : option ascii) :
  match_at fl_g spaces_re input q pc EmptyString = None.
Proof. reflexivity. Qed.

Lemma collapse_in_run (s : string) :
  collapse true s = collapse false (Js.trim_start s).
Proof.
  induction s as [|c s IH]; [reflexivity|]. cbn [collapse Js.trim_start].
  destruct (Js.is_space c) eqn:Ec; [exact IH|]. cbn [collapse]. now rewrite Ec.
Qed.

Lemma trim_start_length (s : string) :
  String.length (Js.trim_start s) <= String.length s.
Proof.
  induction s as [|c s IH]; [reflexivity|]. cbn [Js.trim_start].
  destruct (Js.is_space c); cbn; lia.
Qed.

(** Replacing every run of white space by a space. *)
Lemma spliced_collapse (n : nat) :
  forall (s : string), String.length s <= n ->
  forall (fuel : nat) (a pend : string) (pc : option ascii),
    S (String.length s) <= fuel ->
    spliced_text (fun m (_ : unit) => (getSubstitution m " ", tt))
      (a ++ pend ++ s) (String.length a)
      (matches_from fuel fl_g spaces_re (a ++ pend ++ s)
         (String.length a + String.length pend) pc s) tt
    = (pend ++ collapse false s)%string.
Proof.
  induction n as [|n IH]; intros s Hn fuel a pend pc Hf;
    (destruct fuel as [|fuel]; [lia|]).
  - destruct s; [|cbn in Hn; lia].
    cbn [matches_from exec_from].
    rewrite spaces_match_end.
    rewrite spliced_text_nil.
    replace (String.length (a ++ pend ++ "") - String.length a)
      with (String.length pend)
      by (rewrite !JsFacts.length_append; cbn; lia).
    now rewrite JsFacts.substring_middle, JsFacts.append_nil_r.
  - destruct s as [|c s].
    + cbn [matches_from exec_from].
      rewrite spaces_match_end.
      rewrite spliced_text_nil.
      replace (String.length (a ++ pend ++ "") - String.length a)
        with (String.length pend)
        by (rewrite !JsFacts.length_append; cbn; lia).
      now rewrite JsFacts.substring_middle, JsFacts.append_nil_r.
    + cbn [matches_from exec_from].
      pose proof (spaces_match_g (a ++ pend ++ String c s)
                    (String.length a + String.length pend) pc (String c s)) as Hm.
      cbn beta iota in Hm. cbn [collapse].
      destruct (Js.is_space c) eqn:Ec.
      * destruct Hm as (m & Em & Hi & Ha & Hs & Hne & Hg). rewrite Em.
        assert (Hemp : Js.is_empty (matched m) = false)
          by (destruct (matched m); [congruence|reflexivity]).
        rewrite Hemp, spliced_text_cons. cbn [fst snd getSubstitution].
        replace (negb (Ascii.eqb " " "$")) with true by reflexivity.
        rewrite Hi.
        replace (String.length a + String.length pend - String.length a)
          with (String.length pend) by lia.
        rewrite JsFacts.substring_middle. f_equal. cbn [append]. f_equal.
        rewrite collapse_in_run, <- Ha.
        pose proof (IH (after m)) as IH'.
        assert (Hla : String.length (after m) <= n).
        { rewrite Ha. pose proof (trim_start_length s). cbn in Hn. lia. }
        specialize (IH' Hla fuel (a ++ pend ++ matched m)%string EmptyString
                      (lastChar m)).
        cbn [append String.length] in IH'.
        replace ((a ++ pend ++ matched m) ++ after m)%string
          with (a ++ pend ++ String c s)%string in IH'
          by (rewrite Hs at 1; now rewrite !JsFacts.append_assoc).
        replace (String.length (a ++ pend ++ matched m) + 0)
          with (String.length a + String.length pend + String.length (matched m)) in IH'
          by (rewrite !JsFacts.length_append; lia).
        replace (String.length (a ++ pend ++ matched m))
          with (String.length a + String.length pend + String.length (matched m)) in IH'
          by (rewrite !JsFacts.length_append; lia).
        apply IH'. rewrite Ha. pose proof (trim_start_length s). cbn in Hf. lia.
      * rewrite Hm.
        pose proof (IH s) as IH'.
        assert (Hls : String.length s <= n) by (cbn in Hn; lia).
        specialize (IH' Hls (S fuel) a (pend ++ String c EmptyString)%string (Some c)).
        replace (a ++ (pend ++ String c "") ++ s)%string
          with (a ++ pend ++ String c s)%string in IH'
          by (rewrite !JsFacts.append_assoc; reflexivity).
        replace (String.length a + String.length (pend ++ String c ""))
          with (S (String.length a + String.length pend)) in IH'
          by (rewrite JsFacts.length_append; cbn; lia).
        cbn [matches_from] in IH'. rewrite IH' by (cbn in Hf; lia).
        now rewrite JsFacts.append_assoc.
Qed.

Lemma replace_spaces (s : string) :
  replace_str fl_g spaces_re " " s = collapse false s.
Proof.
  unfold replace_str, replace_pure. rewrite replace_fn_spliced.
  unfold matches. cbn [global fl_g].
  apply (spliced_collapse (String.length s) s (le_n _) (S (String.length s))
           EmptyString EmptyString None).
  lia.
Qed.

Lemma single_spaced_collapse (s : string) :
  forall b, single_spaced b (collapse b s) = true.
Proof.
  induction s as [|c s IH]; intros b; [reflexivity|]. cbn [collapse].
  destruct (Js.is_space c) eqn:Ec.
  - destruct b; [apply IH|]. cbn [single_spaced].
    replace (Js.is_space " ") with true by reflexivity. cbn. apply IH.
  - cbn [single_spaced]. rewrite Ec. apply IH.
Qed.

Lemma single_spaced_start (s : string) :
  single_spaced true s = true -> Js.trim_start s = s.
Proof.
  destruct s as [|c s]; [reflexivity|]. cbn [single_spaced Js.trim_start].
  destruct (Js.is_space c); [|reflexivity].
  rewrite andb_false_r. discriminate.
Qed.

Lemma single_spaced_trim_start (s : string) :
  single_spaced false s = true -> single_spaced true (Js.trim_start s) = true.
Proof.
  destruct s as [|c s]; [reflexivity|]. cbn [single_spaced Js.trim_start].
  destruct (Js.is_space c) eqn:Ec.
  - intros H. apply andb_prop in H. destruct H as [_ H].
    now rewrite (single_spaced_start s H).
  - intros H. cbn [single_spaced]. now rewrite Ec.
Qed.

Lemma single_spaced_trim_end (s : string) :
  forall b, single_spaced b s = true -> single_spaced b (Js.trim_end s) = true.
Proof.
  induction s as [|c s IH]; intros b H; [reflexivity|].
  cbn [Js.trim_end]. cbn [single_spaced] in H.
  destruct (Js.is_space c) eqn:Ec.
  - apply andb_prop in H. destruct H as [Hc Hs].
    specialize (IH true Hs).
    destruct (Js.trim_end s) as [|d t]; [reflexivity|].
    cbn [single_spaced]. rewrite Ec, Hc. exact IH.
  - specialize (IH false H).
    destruct (Js.trim_end s) as [|d t]; cbn [single_spaced]; rewrite Ec;
      [reflexivity|exact IH].
Qed.

(** A string in this form that does not end with white space is a list of
    words joined by spaces. *)
Lemma single_spaced_words (s : string) :
  forall b, single_spaced b s = true -> Js.trim_end s = s -> s <> EmptyString ->
    exists w ws, s = Js.join " " (w :: ws) /\
                 Forall is_word_text ws /\ no_space w = true /\
                 (b = true -> w <> EmptyString).
Proof.
  assert (Hcons : forall c s, Js.trim_end (String c s)
                    = match Js.trim_end s with
                      | EmptyString =>
                          if Js.is_space c then EmptyString else String c EmptyString
                      | t' => String c t'
                      end) by reflexivity.
  induction s as [|c s IH]; intros b H Ht Hne; [easy|].
  cbn [single_spaced] in H. rewrite Hcons in Ht.
  destruct s as [|d t].
  - cbn [Js.trim_end] in Ht. destruct (Js.is_space c) eqn:Ec; [discriminate|].
    exists (String c EmptyString), []. split; [reflexivity|].
    split; [constructor|]. split; [|discriminate].
    unfold no_space. cbn. now rewrite Ec.
  - assert (Ht' : Js.trim_end (String d t) = String d t).
    { destruct (Js.trim_end (String d t)) as [|e u].
      - destruct (Js.is_space c); discriminate.
      - injection Ht as E1 E2. now rewrite E1, E2. }
    destruct (Js.is_space c) eqn:Ec.
    + apply andb_prop in H. destruct H as [Hc Hs].
      apply andb_prop in Hc. destruct Hc as [Hc Hb].
      apply Ascii.eqb_eq in Hc. subst c.
      destruct (IH true Hs Ht') as (w & ws & E & Hws & Hw & Hn); [discriminate|].
      exists EmptyString, (w :: ws). split.
      * change (Js.join " " ("" :: w :: ws)) with (String " " (Js.join " " (w :: ws))).
        now rewrite <- E.
      * split; [constructor; [split; [now apply Hn|exact Hw]|exact Hws]|].
        split; [reflexivity|]. intros ->. discriminate.
    + destruct (IH false H Ht') as (w & ws & E & Hws & Hw & _); [discriminate|].
      exists (String c w), ws. split.
      * rewrite E. destruct ws; reflexivity.
      * split; [exact Hws|]. split; [|discriminate].
        unfold no_space in *. cbn. now rewrite Ec, Hw.
Qed.

Lemma stripMarkup_form (text : option string) :
  exists s, stripMarkup text = Js.trim (collapse false s).
Proof.
  destruct text as [t|]; [|now exists EmptyString]. unfold stripMarkup.
  destruct (negb (Js.truthy t)); [now exists EmptyString|].
  rewrite replace_spaces. eexists. reflexivity.
Qed.

End MarkupFacts.

Module MarkupExtra.
Import RegExp PassiveWatcher Props Coverage MarkupFacts.

(** X18.  The text that [stripMarkup] returns is empty or a list of words
    joined by single spaces, where a word is not empty and holds no white
    space.  So it neither starts nor ends with white space, trimming it
    changes nothing, and the blank test of [analyzeMessage] on it is the
    test for the empty string. *)
Theorem stripMarkup_yields_spaced_words (text : option string) :
  let clean := stripMarkup text in
  (clean = EmptyString \/
   exists ws, ws <> [] /\ Forall is_word_text ws /\ clean = Js.join " " ws) /\
  single_spaced true clean = true /\
  Js.trim clean = clean /\
  Js.truthy (Js.trim clean) = negb (Js.is_empty clean).
Proof.
  cbn zeta. destruct (stripMarkup_form text) as (s & E). rewrite E.
  assert (Hs : single_spaced true (Js.trim (collapse false s)) = true).
  { unfold Js.trim. apply single_spaced_trim_end, single_spaced_trim_start,
      single_spaced_collapse. }
  assert (Ht : Js.trim (Js.trim (collapse false s)) = Js.trim (collapse false s))
    by apply InjectorFacts.trim_idem.
  split; [|split; [exact Hs|split; [exact Ht|now rewrite Ht]]].
  destruct (Js.trim (collapse false s)) as [|c u] eqn:Eu; [now left|]. right.
  assert (He : Js.trim_end (String c u) = String c u).
  { rewrite <- Eu. unfold Js.trim. apply InjectorFacts.trim_end_idem. }
  destruct (single_spaced_words (String c u) true Hs He) as (w & ws & Ej & Hws & Hw & Hn);
    [discriminate|].
  exists (w :: ws). split; [discriminate|]. split; [|exact Ej].
  constructor; [split; [now apply Hn|exact Hw]|exact Hws].
Qed.

Lemma stripMarkup_yields_spaced_words_witness :
  stripMarkup (Some nbsp_text) = "a b" /\
  single_spaced true (stripMarkup (Some nbsp_text)) = true.
Proof.
  split; [reflexivity|].
  pose proof (stripMarkup_yields_spaced_words (Some nbsp_text)) as H.
  cbv zeta in H. destruct H as (_ & H & _). exact H.
Defined.

End MarkupExtra.

(* ================================================================== *)
(** ** Sentences *)

Module SentenceFacts.
Import RegExp PassiveWatcher Props Coverage Sentences MarkupFacts.

Lemma substring_whole_prefix (m a s : string) (n : nat) :
  s = (m ++ a)%string -> n = String.length m -> substring 0 n s = m.
Proof. intros -> ->. apply JsFacts.substring_prefix. Qed.

Lemma take_drop (q : ascii -> bool) (s : string) :
  s = (take_while q s ++ drop_while q s)%string.
Proof.
  induction s as [|c s IH]; [reflexivity|]. cbn [take_while drop_while].
  destruct (q c); [|reflexivity]. cbn [append]. now rewrite <- IH.
Qed.

Lemma eat_rest (q : ascii -> bool) (s : string) :
  forall i pc, rest (eat q i pc s) = drop_while q s.
Proof.
  induction s as [|c s IH]; intros i pc; [reflexivity|]. cbn [eat drop_while].
  destruct (q c); [apply IH|reflexivity].
Qed.

Lemma eat_end (q : ascii -> bool) (s : string) :
  forall i pc, endIndex (eat q i pc s) = i + String.length (take_while q s).
Proof.
  induction s as [|c s IH]; intros i pc; cbn [eat take_while]; [cbn; lia|].
  destruct (q c); [|cbn; lia]. rewrite IH. cbn. lia.
Qed.

Lemma eat_captures (q : ascii -> bool) (s : string) :
  forall i pc, captures (eat q i pc s) = [].
Proof.
  induction s as [|c s IH]; intros i pc; [reflexivity|]. cbn [eat].
  destruct (q c); [apply IH|reflexivity].
Qed.

(** The greedy repetition of a pattern for one character of a set consumes
    all the characters of the set, when what follows the repetition never
    fails or fails wherever the repetition could go on. *)
Lemma star_eat (q : ascii -> bool)
    (m1 : MatchState -> (MatchState -> option MatchState) -> option MatchState)
    (c : MatchState -> option MatchState) :
  (forall x k, m1 x k = match rest x with
                        | String ch s' => if q ch then k (advance x ch s') else None
                        | EmptyString => None
                        end) ->
  (forall y, c y <> None) \/ (forall y, starts q (rest y) = true -> c y = None) ->
  forall fuel x, captures x = [] -> String.length (rest x) < fuel ->
    star_loop true m1 [] c fuel x = c (eat q (endIndex x) (prev x) (rest x)).
Proof.
  intros Hm Hc. induction fuel as [|fuel IH]; intros x Hx Hl; [lia|].
  cbn [star_loop]. rewrite (clear_no_captures x Hx), Hm.
  destruct x as [i s pc caps]. cbn [rest endIndex prev captures] in *. subst caps.
  destruct s as [|ch s']; [reflexivity|]. cbn [eat].
  destruct (q ch) eqn:Eq; [|reflexivity].
  cbn [advance endIndex captures].
  replace (S i =? i) with false by (symmetry; apply Nat.eqb_neq; lia).
  rewrite IH; [|reflexivity|cbn in *; lia].
  cbn [advance endIndex prev rest].
  destruct (c (eat q (S i) (Some ch) s')) eqn:Ec; [reflexivity|].
  destruct Hc as [Ht|Hg]; [exfalso; exact (Ht _ Ec)|].
  apply Hg. cbn. exact Eq.
Qed.

Lemma not_sym_step (p : ascii -> bool) (x : MatchState)
    (k : MatchState -> option MatchState) :
  matcher fl_g (NotSym p) x k
  = match rest x with
    | String ch s' => if negb (p ch) then k (advance x ch s') else None
    | EmptyString => None
    end.
Proof.
  cbn [matcher ignoreCase fl_g set_match]. destruct (rest x) as [|ch s']; [reflexivity|].
  now destruct (p ch).
Qed.

Lemma sym_step (p : ascii -> bool) (x : MatchState)
    (k : MatchState -> option MatchState) :
  matcher fl_g (Sym p) x k
  = match rest x with
    | String ch s' => if p ch then k (advance x ch s') else None
    | EmptyString => None
    end.
Proof. reflexivity. Qed.

(** What the pattern for sentences matches at a position. *)
Lemma sentence_match_at (input : string) (i : nat) (pc : option ascii) (s : string) :
  match sentence_at s with
  | Some (m, a) =>
      exists r, match_at fl_g sentence_re input i pc s = Some r /\
                matched r = m /\ after r = a
  | None => match_at fl_g sentence_re input i pc s = None
  end.
Proof.
  unfold match_at. destruct s as [|ch s']; [reflexivity|].
  set (x0 := {| endIndex := i; rest := String ch s'; prev := pc; captures := [] |}).
  set (K2 := fun y : MatchState => matcher fl_g (Opt (chr dquote)) y Some).
  set (K1 := fun y : MatchState =>
               matcher fl_g (Seq (Plus true (Sym terminator)) (Opt (chr dquote))) y Some).
  assert (Hstep : matcher fl_g sentence_re x0 Some =
                  if terminator ch then None
                  else star_loop true
                         (fun x' k => matcher fl_g (NotSym terminator) x' k) []
                         K1 (S (String.length s')) (advance x0 ch s')) by reflexivity.
  rewrite Hstep. clear Hstep. cbn [sentence_at].
  destruct (terminator ch) eqn:Et; [reflexivity|].
  assert (HK1 : forall y, K1 y = match rest y with
                                 | String c2 s2 =>
                                     if terminator c2
                                     then star_loop true
                                            (fun x' k => matcher fl_g (Sym terminator) x' k)
                                            [] K2 (S (String.length s2)) (advance y c2 s2)
                                     else None
                                 | EmptyString => None
                                 end) by reflexivity.
  rewrite (star_eat not_terminator _ K1 (not_sym_step terminator));
    [| right; intros y Hy; rewrite HK1; destruct (rest y) as [|c2 s2]; [reflexivity|];
       cbn in Hy; unfold not_terminator in Hy; now destruct (terminator c2)
     | reflexivity | cbn; lia].
  cbn [advance endIndex prev rest x0].
  set (y1 := eat not_terminator (S i) (Some ch) s').
  rewrite HK1.
  assert (Hr1 : rest y1 = drop_while not_terminator s') by apply eat_rest.
  assert (He1 : endIndex y1 = S i + String.length (take_while not_terminator s'))
    by apply eat_end.
  assert (Hc1 : captures y1 = []) by apply eat_captures.
  rewrite Hr1.
  pose proof (take_drop not_terminator s') as Hs'.
  destruct (drop_while not_terminator s') as [|c2 s2] eqn:Ed1; [reflexivity|].
  destruct (terminator c2) eqn:Et2; [|reflexivity].
  assert (HK2 : forall y, K2 y = match rest y with
                                 | String c4 s4 =>
                                     if Ascii.eqb dquote c4 then Some (advance y c4 s4)
                                     else Some y
                                 | EmptyString => Some y
                                 end).
  { intros y. unfold K2, Opt, chr. cbn [matcher ignoreCase fl_g set_match].
    destruct (rest y) as [|c4 s4]; [reflexivity|]. now destruct (Ascii.eqb dquote c4). }
  rewrite (star_eat terminator _ K2 (sym_step terminator));
    [| left; intros y; rewrite HK2; destruct (rest y) as [|c4 s4]; [discriminate|];
       destruct (Ascii.eqb dquote c4); discriminate
     | exact Hc1 | cbn; lia].
  cbn [advance endIndex prev rest].
  set (y3 := eat terminator (S (endIndex y1)) (Some c2) s2).
  rewrite HK2.
  assert (Hr3 : rest y3 = drop_while terminator s2) by apply eat_rest.
  assert (He3 : endIndex y3 = S (endIndex y1) + String.length (take_while terminator s2))
    by apply eat_end.
  rewrite Hr3.
  pose proof (take_drop terminator s2) as Hs2.
  set (run := take_while not_terminator s') in *.
  set (marks := take_while terminator s2) in *.
  destruct (drop_while terminator s2) as [|c4 s4] eqn:Ed2.
  - rewrite JsFacts.append_nil_r in Hs2.
    eexists. split; [reflexivity|]. cbn [matched after result_of]. rewrite Hr3.
    split; [|reflexivity].
    apply (substring_whole_prefix _ EmptyString).
    + rewrite JsFacts.append_nil_r. cbn [append]. congruence.
    + rewrite JsFacts.length_append. cbn [String.length]. lia.
  - destruct (Ascii.eqb dquote c4) eqn:Eq.
    + eexists. split; [reflexivity|]. cbn [matched after result_of advance rest endIndex].
      split; [|reflexivity].
      apply (substring_whole_prefix _ s4).
      * rewrite !JsFacts.append_assoc. cbn [append]. congruence.
      * rewrite !JsFacts.length_append. cbn [String.length]. lia.
    + eexists. split; [reflexivity|]. cbn [matched after result_of]. rewrite Hr3.
      split; [|reflexivity].
      apply (substring_whole_prefix _ (String c4 s4)).
      * rewrite !JsFacts.append_assoc. cbn [append]. congruence.
      * rewrite JsFacts.length_append. cbn [String.length]. lia.
Qed.

Lemma take_drop_app (q : ascii -> bool) (a b : string) :
  drop_while q a <> EmptyString \/ starts q b = false ->
  take_while q (a ++ b) = take_while q a /\
  drop_while q (a ++ b) = (drop_while q a ++ b)%string.
Proof.
  induction a as [|c a IH]; intros H.
  - destruct H as [H|H]; [easy|]. cbn [append take_while drop_while].
    destruct b as [|d b]; [now split|]. cbn in H. cbn [take_while drop_while].
    rewrite H. now split.
  - cbn [append take_while drop_while] in *. destruct (q c); [|now split].
    destruct (IH H) as [E1 E2]. now rewrite E1, E2.
Qed.

Lemma drop_while_all (q : ascii -> bool) (s : string) :
  Js.forall_chars q s = true -> drop_while q s = EmptyString.
Proof.
  induction s as [|c s IH]; [reflexivity|]. cbn. intros H.
  apply andb_prop in H. destruct H as [Hc Hs]. rewrite Hc. now apply IH.
Qed.

Lemma drop_while_head (q : ascii -> bool) (s : string) (c : ascii) (t : string) :
  drop_while q s = String c t -> q c = false.
Proof.
  induction s as [|d s IH]; [discriminate|]. cbn [drop_while].
  destruct (q d) eqn:E; [exact IH|]. intros [= -> ->]. exact E.
Qed.

Lemma ends_tail (c : ascii) (s : string) :
  ends_with_terminator (String c s) = true ->
  s = EmptyString \/ ends_with_terminator s = true.
Proof. destruct s; [now left|now right]. Qed.

Lemma ends_drop (q : ascii -> bool) (s : string) :
  ends_with_terminator s = true ->
  drop_while q s = EmptyString \/ ends_with_terminator (drop_while q s) = true.
Proof.
  induction s as [|c s IH]; [discriminate|]. intros H. cbn [drop_while].
  destruct (q c); [|now right].
  destruct (ends_tail c s H) as [->|Hs]; [now left|now apply IH].
Qed.

Lemma ends_has_terminator (s : string) :
  ends_with_terminator s = true -> drop_while not_terminator s <> EmptyString.
Proof.
  induction s as [|c s IH]; [discriminate|]. intros H. cbn [drop_while].
  destruct (not_terminator c) eqn:E; [|discriminate].
  destruct (ends_tail c s H) as [->|Hs]; [|now apply IH].
  cbn in H. unfold not_terminator in E. now rewrite H in E.
Qed.

Lemma loose_tail_starts (tail : string) :
  loose_tail tail = true ->
  Js.forall_chars not_terminator tail = true /\
  starts terminator tail = false /\ starts (Ascii.eqb dquote) tail = false.
Proof.
  unfold loose_tail. intros H. apply andb_prop in H. destruct H as [H1 H2].
  split; [exact H1|]. split; [|now destruct (starts _ tail)].
  destruct tail as [|c t]; [reflexivity|]. cbn in *.
  apply andb_prop in H1. destruct H1 as [H1 _]. unfold not_terminator in H1.
  now destruct (terminator c).
Qed.

(** The sentence at the start of a text that ends with a sentence mark is
    the same when a loose tail follows the text. *)
Lemma sentence_at_app (ch : ascii) (s' tail : string) :
  terminator ch = false -> ends_with_terminator (String ch s') = true ->
  loose_tail tail = true ->
  exists m a,
    sentence_at (String ch s') = Some (m, a) /\
    sentence_at (String ch s' ++ tail) = Some (m, (a ++ tail)%string) /\
    m <> EmptyString /\ String ch s' = (m ++ a)%string /\
    (a = EmptyString \/ ends_with_terminator a = true).
Proof.
  intros Et He Hl. destruct (loose_tail_starts tail Hl) as (Hl1 & Hl2 & Hl3).
  destruct (ends_tail ch s' He) as [->|Hs'];
    [cbn in He; now rewrite He in Et|].
  cbn [append sentence_at]. rewrite Et.
  pose proof (ends_has_terminator s' Hs') as Hne.
  destruct (take_drop_app not_terminator s' tail (or_introl Hne)) as [E1 E2].
  rewrite E1, E2. clear E1 E2.
  pose proof (take_drop not_terminator s') as Hd1.
  pose proof (ends_drop not_terminator s' Hs') as Hr1.
  destruct (drop_while not_terminator s') as [|c2 s2] eqn:Ed1; [easy|].
  destruct Hr1 as [Hr1|Hr1]; [discriminate|].
  apply drop_while_head in Ed1. unfold not_terminator in Ed1.
  assert (Et2 : terminator c2 = true) by now destruct (terminator c2).
  cbn [append]. rewrite Et2.
  destruct (take_drop_app terminator s2 tail (or_intror Hl2)) as [E1 E2].
  rewrite E1, E2. clear E1 E2.
  pose proof (take_drop terminator s2) as Hd2.
  set (run := take_while not_terminator s') in *.
  set (marks := take_while terminator s2) in *.
  destruct (drop_while terminator s2) as [|c4 s4] eqn:Ed2.
  - rewrite JsFacts.append_nil_r in Hd2. cbn [append].
    exists (String ch run ++ String c2 marks)%string, EmptyString.
    split; [reflexivity|]. split.
    + destruct tail as [|c4 t4]; [reflexivity|]. cbn [starts] in Hl3. now rewrite Hl3.
    + split; [discriminate|]. split; [|now left].
      rewrite JsFacts.append_nil_r. cbn [append]. congruence.
  - assert (Hr2 : ends_with_terminator (String c4 s4) = true).
    { destruct (ends_tail c2 s2 Hr1) as [->|Hs2]; [discriminate Ed2|].
      destruct (ends_drop terminator s2 Hs2) as [H|H]; rewrite Ed2 in H;
        [discriminate|exact H]. }
    cbn [append]. destruct (Ascii.eqb dquote c4) eqn:Eq.
    + exists (String ch run ++ String c2 marks ++ String c4 "")%string, s4.
      split; [reflexivity|]. split; [reflexivity|]. split; [discriminate|]. split.
      * rewrite !JsFacts.append_assoc. cbn [append]. congruence.
      * destruct (ends_tail c4 s4 Hr2) as [->|H]; [now left|now right].
    + exists (String ch run ++ String c2 marks)%string, (String c4 s4).
      split; [reflexivity|]. split; [reflexivity|]. split; [discriminate|]. split.
      * rewrite !JsFacts.append_assoc. cbn [append]. congruence.
      * now right.
Qed.

(** A text without sentence marks holds no sentence. *)
Lemma exec_sentence_none (s : string) :
  Js.forall_chars not_terminator s = true ->
  forall input i pc, exec_from fl_g sentence_re input i pc s = None.
Proof.
  induction s as [|c s IH]; intros H input i pc.
  - reflexivity.
  - cbn [exec_from]. pose proof (sentence_match_at input i pc (String c s)) as Hm.
    cbn in H. apply andb_prop in H. destruct H as [Hc Hs].
    cbn [sentence_at] in Hm. rewrite (drop_while_all _ _ Hs) in Hm.
    destruct (terminator c); rewrite Hm; now apply IH.
Qed.

(** A text that ends with a sentence mark and is not made of sentence marks
    holds a sentence. *)
Lemma exec_sentence_some (s : string) :
  ends_with_terminator s = true -> Js.forall_chars terminator s = false ->
  forall input i pc, exec_from fl_g sentence_re input i pc s <> None.
Proof.
  induction s as [|c s IH]; intros He Ha input i pc; [discriminate|].
  cbn [exec_from]. pose proof (sentence_match_at input i pc (String c s)) as Hm.
  destruct (terminator c) eqn:Et.
  - cbn [sentence_at] in Hm. rewrite Et in Hm. rewrite Hm.
    cbn in Ha. rewrite Et in Ha. cbn in Ha.
    destruct (ends_tail c s He) as [->|Hs]; [discriminate|]. now apply IH.
  - destruct (sentence_at_app c s EmptyString Et He eq_refl) as (m & a & E & _).
    rewrite E in Hm. destruct Hm as (r & Er & _). rewrite Er. discriminate.
Qed.

(** The sentences of a text that ends with a sentence mark are found again
    when a loose tail follows the text. *)
Lemma matches_tail (n : nat) :
  forall s, String.length s <= n ->
    s = EmptyString \/ ends_with_terminator s = true ->
  forall tail, loose_tail tail = true ->
  forall f1 f2 in1 in2 i1 i2 pc1 pc2,
    S (String.length (s ++ tail)) <= f1 -> S (String.length s) <= f2 ->
    map matched (matches_from f1 fl_g sentence_re in1 i1 pc1 (s ++ tail))
    = map matched (matches_from f2 fl_g sentence_re in2 i2 pc2 s).
Proof.
  assert (Hnil : forall tail, loose_tail tail = true ->
            forall f1 f2 in1 in2 i1 i2 pc1 pc2,
              map matched (matches_from f1 fl_g sentence_re in1 i1 pc1 tail)
              = map matched (matches_from f2 fl_g sentence_re in2 i2 pc2 EmptyString)).
  { intros tail Hl f1 f2 in1 in2 i1 i2 pc1 pc2.
    destruct (loose_tail_starts tail Hl) as (Hl1 & _).
    destruct f1 as [|f1], f2 as [|f2]; cbn [matches_from];
      rewrite ?(exec_sentence_none tail Hl1); reflexivity. }
  induction n as [|n IH]; intros s Hn Hs tail Hl f1 f2 in1 in2 i1 i2 pc1 pc2 Hf1 Hf2.
  - destruct s; [|cbn in Hn; lia]. now apply Hnil.
  - destruct s as [|c s']; [now apply Hnil|].
    destruct Hs as [Hs|Hs]; [discriminate|].
    destruct f1 as [|f1]; [lia|]. destruct f2 as [|f2]; [lia|].
    cbn [matches_from append exec_from].
    pose proof (sentence_match_at in1 i1 pc1 (String c s' ++ tail)) as Hm1.
    pose proof (sentence_match_at in2 i2 pc2 (String c s')) as Hm2.
    cbn [append] in Hm1.
    destruct (terminator c) eqn:Et.
    + cbn [sentence_at] in Hm1, Hm2. rewrite Et in Hm1, Hm2. rewrite Hm1, Hm2.
      assert (Hs' : s' = EmptyString \/ ends_with_terminator s' = true)
        by now apply (ends_tail c).
      assert (Hn' : String.length s' <= n) by (cbn in Hn; lia).
      specialize (IH s' Hn' Hs' tail Hl (S f1) (S f2) in1 in2 (S i1) (S i2)
                    (Some c) (Some c)).
      cbn [matches_from] in IH. apply IH; cbn in Hf1, Hf2; lia.
    + destruct (sentence_at_app c s' tail Et Hs Hl) as (m & a & E2 & E1 & Hne & Hma & Ha).
      cbn [append] in E1. rewrite E1 in Hm1. rewrite E2 in Hm2.
      destruct Hm1 as (r1 & Er1 & Hr1 & Ha1). destruct Hm2 as (r2 & Er2 & Hr2 & Ha2).
      rewrite Er1, Er2.
      assert (He1 : Js.is_empty (matched r1) = false)
        by (rewrite Hr1; destruct m; [congruence|reflexivity]).
      assert (He2 : Js.is_empty (matched r2) = false)
        by (rewrite Hr2; destruct m; [congruence|reflexivity]).
      rewrite He1, He2. cbn [map]. f_equal; [congruence|].
      rewrite Ha1, Ha2.
      assert (Hlen : String.length (String c s') = String.length m + String.length a)
        by (rewrite Hma at 1; apply JsFacts.length_append).
      assert (Hm0 : 0 < String.length m) by (destruct m; [congruence|cbn; lia]).
      apply IH; try assumption.
      * cbn in Hn, Hlen. lia.
      * cbn [append String.length] in Hf1. rewrite JsFacts.length_append in *.
        cbn [String.length] in Hlen. lia.
      * cbn [String.length] in Hf2, Hlen. lia.
Qed.

Lemma sentences_of_tail (body tail : string) :
  ends_with_terminator body = true -> Js.forall_chars terminator body = false ->
  loose_tail tail = true ->
  sentences_of (body ++ tail) = sentences_of body.
Proof.
  intros He Ha Hl. unfold sentences_of, match_all, matches. cbn [global fl_g].
  pose proof (matches_tail (String.length body) body (le_n _) (or_intror He) tail Hl
                (S (String.length (body ++ tail))) (S (String.length body))
                (body ++ tail)%string body 0 0 None None (le_n _) (le_n _)) as H.
  assert (Hb : matches_from (S (String.length body)) fl_g sentence_re body 0 None body
               <> []).
  { cbn [matches_from].
    pose proof (exec_sentence_some body He Ha body 0 None) as Hx.
    destruct (exec_from fl_g sentence_re body 0 None body); [discriminate|easy]. }
  destruct (matches_from (S (String.length body)) _ _ body 0 None body) as [|m2 l2];
    [easy|].
  destruct (matches_from (S (String.length (body ++ tail))) _ _ _ 0 None _) as [|m1 l1];
    [discriminate H|].
  now rewrite H.
Qed.

Lemma sentences_of_unmarked (text : string) :
  Js.forall_chars not_terminator text = true -> sentences_of text = [text].
Proof.
  intros H. unfold sentences_of, match_all, matches. cbn [global fl_g matches_from].
  now rewrite (exec_sentence_none text H).
Qed.

End SentenceFacts.

Module SentenceExtra.
Import RegExp PassiveWatcher Props Coverage Sentences SentenceFacts.

(** X19.  A clean text without any of the marks . ! ? is analysed as one
    sentence.  In a text that ends with such a mark and holds another
    character, what is appended after it without a further mark (and without
    a double quote right after the mark) is not analysed at all: the
    sentences, and so the n-grams of the message, are those of the text
    without the addition. *)
Theorem text_after_last_mark_is_ignored :
  (forall text, Js.forall_chars not_terminator text = true ->
                sentences_of text = [text]) /\
  (forall body tail,
     ends_with_terminator body = true -> Js.forall_chars terminator body = false ->
     loose_tail tail = true ->
     sentences_of (body ++ tail) = sentences_of body /\
     forall st, message_ngrams st (body ++ tail) = message_ngrams st body).
Proof.
  split; [exact sentences_of_unmarked|].
  intros body tail He Ha Hl.
  pose proof (sentences_of_tail body tail He Ha Hl) as H.
  split; [exact H|]. intros st. unfold message_ngrams. now rewrite H.
Qed.

Lemma text_after_last_mark_is_ignored_witness :
  sentences_of "His heart pounded. And then it stopped"
  = sentences_of "His heart pounded." /\
  sentences_of "no mark here" = ["no mark here"].
Proof.
  destruct text_after_last_mark_is_ignored as (H1 & H2).
  split.
  - apply (H2 "His heart pounded." " And then it stopped"); reflexivity.
  - apply H1. reflexivity.
Defined.

End SentenceExtra.

(* ================================================================== *)
(** ** The first character and fixCapitalization *)

Module CapitalFacts.
Import RegExp StaticFixer FixerCoverage FixerFacts FixerMoreFacts TokenFacts.

Lemma lower_is_plain (c : ascii) :
  Js.is_lower c = true ->
  one_of ".!?" (Js.upper_char c) = false /\ one_of ".!?" c = false.
Proof. destruct c as [[] [] [] [] [] [] [] []]; intros H; try discriminate H; now split. Qed.

(** The first pattern at the start of a text that begins with a lower-case
    letter. *)
Lemma first_letter_match (input : string) (c : ascii) (t : string) :
  Js.is_lower c = true ->
  match_at fl_s first_letter_re input 0 None (String c t)
  = Some {| index := 0; matched := String c EmptyString;
            groups := [None; Some (String c EmptyString)];
            before := EmptyString; after := t; lastChar := Some c |}.
Proof.
  intros H. unfold match_at.
  destruct c as [[] [] [] [] [] [] [] []]; try discriminate H;
    vm_compute; destruct input, t; reflexivity.
Qed.

Lemma match_at_index (fl : flags) (r : regex) (input : string) (i : nat)
    (pc : option ascii) (s : string) (m : MatchResult) :
  match_at fl r input i pc s = Some m -> index m = i.
Proof.
  unfold match_at. destruct (matcher _ _ _ Some); [|discriminate].
  now intros [= <-].
Qed.

Lemma exec_from_index (fl : flags) (r : regex) (input : string) (s : string) :
  forall i pc m, exec_from fl r input i pc s = Some m -> i <= index m.
Proof.
  induction s as [|ch s IH]; intros i pc m; cbn [exec_from];
    destruct (match_at fl r input i pc _) as [m'|] eqn:E.
  - intros [= <-]. apply match_at_index in E. lia.
  - discriminate.
  - intros [= <-]. apply match_at_index in E. lia.
  - intros H. apply IH in H. lia.
Qed.

(** The second pattern starts with a sentence mark. *)
Lemma after_sentence_head (input : string) (i : nat) (pc : option ascii) (s : string) :
  match s with String u _ => one_of ".!?" u = false | EmptyString => True end ->
  match_at fl_gs after_sentence_re input i pc s = None.
Proof.
  intros H. unfold match_at, after_sentence_re.
  cbn [matcher rest ignoreCase fl_gs set_match].
  destruct s as [|u t]; [reflexivity|]. now rewrite H.
Qed.

Lemma after_sentence_none (s : string) :
  Js.forall_chars not_mark s = true ->
  forall input i pc, exec_from fl_gs after_sentence_re input i pc s = None.
Proof.
  induction s as [|u t IH]; intros H input i pc; cbn [exec_from].
  - now rewrite after_sentence_head.
  - cbn in H. apply andb_prop in H. destruct H as [Hu Ht].
    rewrite after_sentence_head
      by (unfold not_mark in Hu; now destruct (one_of ".!?" u)).
    now apply IH.
Qed.

Lemma substring_tail (c : ascii) (t : string) :
  substring 1 (String.length (String c t) - 1) (String c t) = t.
Proof. cbn. rewrite Nat.sub_0_r. apply substring_all. Qed.

(** The second replacement keeps a first character that is no sentence
    mark. *)
Lemma second_keeps_head (f : MatchResult -> string) (u : ascii) (t : string) :
  one_of ".!?" u = false ->
  exists rest, replace_pure fl_gs after_sentence_re f (String u t) = String u rest.
Proof.
  intros Hu. unfold replace_pure. rewrite replace_fn_spliced.
  unfold matches. cbn [global fl_gs matches_from exec_from].
  rewrite after_sentence_head by exact Hu.
  destruct (exec_from fl_gs after_sentence_re (String u t) 1 (Some u) t) as [m|] eqn:E.
  - apply exec_from_index in E. rewrite spliced_text_cons.
    destruct (index m) as [|k]; [lia|]. cbn [Nat.sub substring append].
    eexists. reflexivity.
  - rewrite spliced_text_nil, Nat.sub_0_r, substring_all. now exists t.
Qed.

Lemma second_unmarked (f : MatchResult -> string) (s : string) :
  Js.forall_chars not_mark s = true ->
  replace_pure fl_gs after_sentence_re f s = s.
Proof.
  intros H. unfold replace_pure. rewrite replace_fn_no_match; [reflexivity|].
  unfold matches. cbn [global fl_gs matches_from].
  now rewrite after_sentence_none.
Qed.

(** The first replacement on a text that starts with a lower-case letter. *)
Lemma first_capitalises (c : ascii) (t : string) :
  Js.is_lower c = true ->
  replace_pure fl_s first_letter_re
    (fun m => (group_text (groups m) 1
               ++ Js.toUpperCase (group_text (groups m) 2))%string) (String c t)
  = String (Js.upper_char c) t.
Proof.
  intros H. unfold replace_pure. rewrite replace_fn_spliced.
  unfold matches, exec. cbn [global fl_s exec_from].
  rewrite first_letter_match by exact H.
  rewrite spliced_text_cons, spliced_text_nil.
  cbn [index matched groups fst snd String.length Nat.add Nat.sub].
  rewrite substring_0_0, Nat.sub_0_r. cbn [substring]. now rewrite substring_all.
Qed.

(** The first pattern matches at the start of the text only. *)
Lemma first_letter_later (input : string) (s : string) :
  forall i pc, exec_from fl_s first_letter_re input i (Some pc) s = None.
Proof.
  induction s as [|ch s IH]; intros i pc; cbn [exec_from].
  - reflexivity.
  - assert (E : match_at fl_s first_letter_re input i (Some pc) (String ch s) = None)
      by reflexivity.
    rewrite E. apply IH.
Qed.

(** A tag needs the character [<]. *)
Lemma tag_needs_open (i : nat) (fl : flags) (r : regex) (x : MatchState)
    (k : MatchState -> option MatchState) :
  ignoreCase fl = false ->
  Js.forall_chars not_tag_open (rest x) = true ->
  matcher fl (Group i (Seq (Star true (Sym Js.is_space)) (Seq (chr "<") r))) x k = None.
Proof.
  intros Hic Hx.
  destruct (matcher fl _ x k) as [z|] eqn:E; [exfalso|reflexivity].
  change (matcher fl (Group i (Seq (Star true (Sym Js.is_space)) (Seq (chr "<") r))) x k)
    with (matcher fl (Star true (Sym Js.is_space)) x
            (fun y => matcher fl (chr "<") y
               (fun y1 => matcher fl r y1
                  (fun y0 => k (set_capture i
                                  (substring 0 (endIndex y0 - endIndex x) (rest x)) y0)))))
    in E.
  apply JsFacts.matcher_extends in E. destruct E as (y & (cons & Hc & _) & E).
  rewrite Hc in Hx. apply forall_chars_suffix in Hx.
  unfold chr in E. cbn [matcher] in E.
  destruct (rest y) as [|ch s']; [discriminate|].
  unfold set_match in E. rewrite Hic in E.
  cbn in Hx. unfold not_tag_open in Hx.
  destruct (Ascii.eqb "<" ch); [discriminate Hx|discriminate E].
Qed.

(** The pattern for tags matches nothing in a text without [<]. *)
Lemma tags_need_open (i : nat) (fl : flags) (x : MatchState)
    (k : MatchState -> option MatchState) :
  ignoreCase fl = false ->
  Js.forall_chars not_tag_open (rest x) = true ->
  matcher fl (tags_re i) x k = k x.
Proof.
  intros Hic Hx.
  set (tag := Group i (Seq (Star true (Sym Js.is_space))
                         (Seq (chr "<") (Seq (Star true (NotSym (one_of ">"))) (chr ">"))))).
  assert (Hs : matcher fl (tags_re i) x k
               = match matcher fl tag (clear_captures (groups_of tag) x)
                         (fun y => if endIndex y =? endIndex x then None
                                   else star_loop true (fun x' k' => matcher fl tag x' k')
                                          (groups_of tag) k (String.length (rest x)) y)
                 with
                 | Some z => Some z
                 | None => k x
                 end) by reflexivity.
  rewrite Hs. unfold tag. now rewrite tag_needs_open.
Qed.

(** The first replacement on a text without [<] that does not start with a
    lower-case letter. *)
Lemma first_skips (f : MatchResult -> string) (c : ascii) (t : string) :
  Js.is_lower c = false -> Js.forall_chars not_tag_open (String c t) = true ->
  replace_pure fl_s first_letter_re f (String c t) = String c t.
Proof.
  intros Hc Ht. unfold replace_pure. rewrite replace_fn_no_match; [reflexivity|].
  unfold matches, exec. cbn [global fl_s exec_from].
  assert (E : match_at fl_s first_letter_re (String c t) 0 None (String c t) = None).
  { unfold match_at, first_letter_re. cbn [matcher prev].
    rewrite tags_need_open by (try reflexivity; exact Ht).
    cbn [matcher rest ignoreCase fl_s set_match]. now rewrite Hc. }
  rewrite E. now rewrite first_letter_later.
Qed.

End CapitalFacts.

Module CapitalExtra.
Import RegExp StaticFixer FixerCoverage CapitalFacts.

(** X20.  [fixCapitalization] capitalises a lower-case letter that is the
    very first character of the text, and leaves the rest of a text without
    the marks . ! ? as it is.  A text without tags and without these marks
    that starts with any other character, white space included, comes back
    unchanged, whatever letters follow. *)
Theorem fixCapitalization_looks_at_first_character (c : ascii) (t : string) :
  (Js.is_lower c = true ->
   (exists rest, fixCapitalization (String c t) = String (Js.upper_char c) rest) /\
   (Js.forall_chars not_mark t = true ->
    fixCapitalization (String c t) = String (Js.upper_char c) t)) /\
  (Js.is_lower c = false ->
   Js.forall_chars not_tag_open (String c t) = true ->
   Js.forall_chars not_mark (String c t) = true ->
   fixCapitalization (String c t) = String c t).
Proof.
  unfold fixCapitalization. cbn [Js.truthy Js.is_empty negb]. split.
  - intros H. rewrite first_capitalises by exact H.
    destruct (lower_is_plain c H) as [Hu _]. split.
    + now apply second_keeps_head.
    + intros Ht. apply second_unmarked. cbn. unfold not_mark at 1. now rewrite Hu.
  - intros Hc Ho Hm. rewrite first_skips by assumption.
    now apply second_unmarked.
Qed.

Lemma fixCapitalization_looks_at_first_character_witness :
  fixCapitalization "hello there" = "Hello there" /\
  fixCapitalization " hello there" = " hello there".
Proof.
  destruct (fixCapitalization_looks_at_first_character "h" "ello there") as (H1 & _).
  destruct (fixCapitalization_looks_at_first_character " " "hello there") as (_ & H2).
  split.
  - destruct (H1 eq_refl) as (_ & H). apply H. reflexivity.
  - apply H2; reflexivity.
Defined.

End CapitalExtra.

(* ================================================================== *)
(** ** Stop words and the table *)

Module StopWordFacts.
Import RegExp PassiveWatcher Props Samples Coverage WatcherFacts WatcherMoreFacts.

(** A key that an observation adds is no stop-word n-gram. *)
Lemma analyzeMessage_adds_qualified (w : Watcher) (text : option string) (g : string) :
  In g (keys (ngramFrequencies (analyzeMessage w text))) ->
  In g (keys (ngramFrequencies w)) \/ qualifies w g.
Proof.
  intros Hin. destruct (observes w text) eqn:E.
  - rewrite analyzeMessage_observes in Hin by assumption.
    assert (Hl : In g (keys (ngramFrequencies (after_loops w text)))).
    { destruct (prune_due _); [now apply pruneOldNgrams_keys|exact Hin]. }
    unfold after_loops in Hl. cbn [ngramFrequencies with_counter] in Hl.
    apply fold_observe_keys in Hl. destruct Hl as [Hl|(n & Ho & Hq)]; [now left|].
    right. apply not_low_quality_qualifies; [|exact Hq].
    eapply message_ngrams_fixed. exact Ho.
  - rewrite analyzeMessage_skips in Hin by assumption. now left.
Qed.

Lemma tracked_since_analyzeMessage (base : list string) (w : Watcher)
    (text : option string) :
  tracked_since base w -> tracked_since base (analyzeMessage w text).
Proof.
  intros [Hb Hk]. destruct (analyzeMessage_frame w text) as (A & B & _).
  split; [now rewrite B|]. intros g Hin. rewrite A.
  destruct (analyzeMessage_adds_qualified w text g Hin) as [H|(Hn & t & Ht & Hs)];
    [now apply Hk|].
  split; [exact Hn|]. exists t. split; [exact Ht|].
  destruct (set_has t base) eqn:E; [|reflexivity].
  rewrite (Hb t E) in Hs. discriminate.
Qed.

Lemma tracked_since_prune (base : list string) (w : Watcher) :
  tracked_since base w -> tracked_since base (pruneOldNgrams w).
Proof.
  intros [Hb Hk]. unfold pruneOldNgrams.
  destruct (fold_prune_frame (ngramFrequencies w) w) as (A & _ & B & _).
  split; [now rewrite B|]. intros g Hin. rewrite A. apply Hk.
  now apply pruneOldNgrams_keys.
Qed.

Lemma tracked_since_reset (base : list string) (w : Watcher) :
  tracked_since base w -> tracked_since base (reset w).
Proof. intros [Hb _]. split; [exact Hb|]. intros g []. Qed.

Lemma tracked_since_addToWhitelist (base : list string) (w : Watcher)
    (words : list string) :
  tracked_since base w -> tracked_since base (addToWhitelist w words).
Proof.
  intros [Hb Hk]. split; [|exact Hk]. intros t Ht.
  cbn [whitelist addToWhitelist]. rewrite set_has_fold_add, (Hb t Ht). reflexivity.
Qed.

Lemma tracked_since_observe_all (base : list string) (msgs : list Message) :
  forall w, tracked_since base w -> tracked_since base (observe_all w msgs).
Proof.
  induction msgs as [|m msgs IH]; intros w H; [exact H|].
  apply (IH (analyzeMessage w (mes m))). now apply tracked_since_analyzeMessage.
Qed.

Lemma tracked_since_batch (base : list string) (w : Watcher) (msgs : list Message) :
  tracked_since base w -> tracked_since base (fst (analyzeChatHistory w msgs)).
Proof.
  intros H. apply (tracked_since_observe_all base (recentMessages w msgs) (reset w)).
  now apply tracked_since_reset.
Qed.

(** With respect to its own stop words. *)
Lemma tracked_since_own (w : Watcher) :
  table_qualifies w <-> tracked_since (whitelist w) w.
Proof.
  split.
  - intros H. split; [auto|exact H].
  - intros [_ H]. exact H.
Qed.

End StopWordFacts.

Module StopWordSpec.
Import RegExp PassiveWatcher Props Samples Coverage WatcherFacts WatcherMoreFacts
       StopWordFacts.

(** C9, as the code has it.  Observing a text never adds an n-gram whose
    tokens are all stop words: every key the call adds to the table has at
    least ngramMin tokens and a token outside the stop-word set of that
    moment, for every window of tokens of any size.  A table whose keys all
    have such a token keeps that property under every operation except
    [addToWhitelist], which leaves the table as it is while the stop-word
    set grows; what holds under every operation is the property with
    respect to a set of words that were stop words all along, such as the
    built-in stop words of a watcher since its creation. *)
Theorem stop_word_ngrams_are_not_added (w : Watcher) (text : option string) :
  (forall g, In g (keys (ngramFrequencies (analyzeMessage w text))) ->
     In g (keys (ngramFrequencies w)) \/ qualifies w g) /\
  (forall g, (forall t, In t (tokens g) -> set_has t (whitelist w) = true) ->
     ~ In g (keys (ngramFrequencies w)) ->
     ~ In g (keys (ngramFrequencies (analyzeMessage w text)))) /\
  (forall sentence i n,
     0 < n -> i + n <= List.length (tokenize sentence) ->
     let window := Js.slice i (i + n) (tokenize sentence) in
     (forall t, In t window -> set_has t (whitelist w) = true) ->
     ~ In (Js.join " " window) (keys (ngramFrequencies w)) ->
     ~ In (Js.join " " window) (keys (ngramFrequencies (analyzeMessage w text)))) /\
  (forall s, table_qualifies (create s)) /\
  table_qualifies (reset w) /\
  (forall msgs, table_qualifies (fst (analyzeChatHistory w msgs))) /\
  (table_qualifies w ->
     table_qualifies (analyzeMessage w text) /\
     table_qualifies (pruneOldNgrams w) /\
     forall n, table_qualifies (setAnalysisWindow w n)) /\
  (forall words, ngramFrequencies (addToWhitelist w words) = ngramFrequencies w) /\
  (forall s, tracked_since COMMON_WORDS (create s)) /\
  (forall base, tracked_since base w ->
     tracked_since base (analyzeMessage w text) /\
     tracked_since base (pruneOldNgrams w) /\
     tracked_since base (reset w) /\
     (forall words, tracked_since base (addToWhitelist w words)) /\
     (forall n, tracked_since base (setAnalysisWindow w n)) /\
     (forall msgs, tracked_since base (fst (analyzeChatHistory w msgs)))).
Proof.
  assert (Hstop : forall g,
            (forall t, In t (tokens g) -> set_has t (whitelist w) = true) ->
            ~ In g (keys (ngramFrequencies w)) ->
            ~ In g (keys (ngramFrequencies (analyzeMessage w text)))).
  { intros g Hall Hnot Hin.
    destruct (analyzeMessage_adds_qualified w text g Hin) as [H|(_ & t & Ht & Hs)];
      [tauto|].
    rewrite (Hall t Ht) in Hs. discriminate. }
  split; [apply analyzeMessage_adds_qualified|]. split; [exact Hstop|].
  split; [|split; [|split; [|split; [|split; [|split; [|split]]]]]].
  - intros sentence i n Hn Hi window Hall. apply Hstop.
    unfold window. now rewrite tokens_of_window.
  - intros s g [].
  - intros g [].
  - intros msgs.
    pose proof (tracked_since_batch (whitelist w) w msgs) as H.
    destruct (observe_all_frame (recentMessages w msgs) (reset w)) as (_ & B & _).
    apply tracked_since_own.
    change (fst (analyzeChatHistory w msgs))
      with (observe_all (reset w) (recentMessages w msgs)) in *.
    rewrite B. cbn [whitelist reset with_counter with_table].
    apply (tracked_since_observe_all (whitelist w)).
    split; [auto|]. intros g [].
  - intros Hq. apply tracked_since_own in Hq. split; [|split].
    + destruct (analyzeMessage_frame w text) as (_ & B & _).
      apply tracked_since_own. rewrite B. now apply tracked_since_analyzeMessage.
    + destruct (fold_prune_frame (ngramFrequencies w) w) as (_ & _ & B & _).
      apply tracked_since_own. unfold pruneOldNgrams at 1. rewrite B.
      now apply tracked_since_prune.
    + intros n. destruct Hq as [_ Hq]. exact Hq.
  - reflexivity.
  - intros s. split; [auto|]. intros g [].
  - intros base Hb. split; [now apply tracked_since_analyzeMessage|].
    split; [now apply tracked_since_prune|].
    split; [now apply tracked_since_reset|].
    split; [intros words; now apply tracked_since_addToWhitelist|].
    split; [intros n; exact Hb|].
    intros msgs. now apply tracked_since_batch.
Qed.

Lemma stop_word_ngrams_are_not_added_witness :
  qualifies fresh "his heart pounded" /\
  ~ In "it was the"
       (keys (ngramFrequencies (analyzeMessage fresh (Some "It was the one.")))) /\
  tracked_since COMMON_WORDS (addToWhitelist (analyzeMessage fresh heart_text) ["heart"]).
Proof.
  split; [|split].
  - destruct (stop_word_ngrams_are_not_added fresh heart_text) as (H & _).
    destruct (H "his heart pounded") as [[]|Hq]; [|exact Hq].
    vm_compute. auto.
  - destruct (stop_word_ngrams_are_not_added fresh (Some "It was the one."))
      as (_ & _ & H & _).
    assert (Hn : 0 < 3) by lia.
    assert (Hi : 0 + 3 <= List.length (tokenize "It was the one."))
      by (vm_compute; lia).
    specialize (H "It was the one." 0 3 Hn Hi).
    change (Js.join " " (Js.slice 0 (0 + 3) (tokenize "It was the one.")))
      with "it was the" in H.
    apply H; [|intros []].
    intros t Ht. vm_compute in Ht.
    destruct Ht as [<-|[<-|[<-|[]]]]; reflexivity.
  - destruct (stop_word_ngrams_are_not_added fresh heart_text)
      as (_ & _ & _ & _ & _ & _ & _ & _ & H0 & H1).
    destruct (H1 COMMON_WORDS (H0 default_settings)) as (Ha & _).
    destruct (stop_word_ngrams_are_not_added (analyzeMessage fresh heart_text) None)
      as (_ & _ & _ & _ & _ & _ & _ & _ & _ & H2).
    destruct (H2 COMMON_WORDS Ha) as (_ & _ & _ & Hw & _).
    exact (Hw ["heart"]).
Defined.

(** C9 as stated fails: after "heart" and "pounded" are made stop words, the
    table still holds "his heart pounded", all of whose tokens are stop
    words. *)
Lemma whitelisting_keeps_tracked_ngrams :
  In "his heart pounded" (keys (ngramFrequencies rewhitelisted)) /\
  (forall t, In t (tokens "his heart pounded") ->
             set_has t (whitelist rewhitelisted) = true) /\
  ~ table_qualifies rewhitelisted.
Proof.
  assert (Hin : In "his heart pounded" (keys (ngramFrequencies rewhitelisted)))
    by (vm_compute; left; reflexivity).
  assert (Hall : forall t, In t (tokens "his heart pounded") ->
                           set_has t (whitelist rewhitelisted) = true).
  { intros t Ht. vm_compute in Ht.
    destruct Ht as [<-|[<-|[<-|[]]]]; vm_compute; reflexivity. }
  split; [exact Hin|]. split; [exact Hall|].
  intros H. destruct (H _ Hin) as (_ & t & Ht & Hs).
  rewrite (Hall t Ht) in Hs. discriminate.
Qed.

End StopWordSpec.

(* ================================================================== *)
(** ** Alternatives and their references *)

Module AlternativesFacts.
Import RegExp StaticFixer Coverage FixerCoverage FixerFacts TokenFacts.









End AlternativesFacts.

Module AlternativesSpec.
Import RegExp StaticFixer Samples FixerCoverage FixerFacts AlternativesFacts.




(** What the amended claim leaves out: a reference to a group that the
    pattern does not have.  The replacer reads the arguments that follow the
    captures, so [$1] of a pattern without groups is replaced by the offset
    of the match and [$2] by the whole text. *)
Lemma reference_to_missing_group :
  applyReplacements groupless_fixer (fun _ => 0) heart_sentence = "His 4." /\
  applyReplacements groupless_fixer (fun _ => 1) heart_sentence
  = "His His heart pounded..".
Proof. split; reflexivity. Qed.

End AlternativesSpec.
